(** * Cross-Training Matrix Scheduler: a shallow embedding of
      [scheduler/models.py] and [scheduler/scheduler.py].

    Conventions of the embedding.
    - A Python [int] is a [Z]; a Python [float] is a primitive IEEE-754
      binary64 [float]; a [str] is a [string].
    - A [dict] whose iteration order is observable ([stations],
      [employees], [assignments]) is an insertion-ordered association
      list ([dict V]); [station_competencies] and the rotation statistics,
      which are only looked up, are [gmap]s.
    - A [set] of ids is a [gset string]; iterating over it goes through
      [elements], whose order is fixed but unspecified, like the order of
      a Python set of strings.  The proofs use of that order only that it
      lists every element once.
    - An exception is a value of [exn]; fallible code lives in [result],
      and an engine operation gives back its outcome together with the
      scheduler as the call left it.
    - [date.today()] is an input: the proleptic Gregorian ordinal [today]. *)

From Stdlib Require Import ZArith Lia.
From Stdlib Require Import Floats Numbers.Cyclic.Int63.Uint63.
From stdpp Require Import gmap strings list sorting.

Open Scope Z_scope.

(* Decimal literals such as 0.40 are rounded to the nearest binary64 value,
   as Python does when it reads the same literal. *)
Set Warnings "-inexact-float,-register-all,-clear-no-such-hyp".

(** ** Exceptions and the error monad *)

Inductive exn : Type :=
| ValueError (msg : string)
| KeyError (key : string)
| TypeError (msg : string).

Inductive result (A : Type) : Type :=
| Ok (a : A)
| Raise (e : exn).
Arguments Ok {A} a.
Arguments Raise {A} e.

#[global] Instance result_ret : MRet result := fun A a => Ok a.
#[global] Instance result_bind : MBind result := fun A B f m =>
  match m with
  | Ok a => f a
  | Raise e => Raise e
  end.

(** ** Insertion-ordered dictionaries keyed by strings *)

Module Dict.

Definition dict (V : Type) : Type := list (string * V).

Fixpoint get {V} (k : string) (d : dict V) : option V :=
  match d with
  | [] => None
  | (k', v) :: d' => if decide (k = k') then Some v else get k d'
  end.

(** [d[k] = v]: an existing key keeps its position, a new key goes last. *)
Fixpoint set {V} (k : string) (v : V) (d : dict V) : dict V :=
  match d with
  | [] => [(k, v)]
  | (k', v') :: d' =>
      if decide (k = k') then (k', v) :: d' else (k', v') :: set k v d'
  end.

Definition keys {V} (d : dict V) : list string := d.*1.
Definition values {V} (d : dict V) : list V := d.*2.
Definition contains {V} (k : string) (d : dict V) : bool :=
  bool_decide (is_Some (get k d)).

(** [{key x: x for x in l}] *)
Definition of_list {V} (key : V -> string) (l : list V) : dict V :=
  fold_left (fun d x => set (key x) x d) l [].

End Dict.
Import Dict.

(** ** models.py *)

Record Station : Type := mkStation {
  s_id : string;
  s_name : string;
  required_skill_level : Z;
  required_headcount : Z;
  required_certification : Z
}.

Record Employee : Type := mkEmployee {
  e_id : string;
  e_name : string;
  station_competencies : gmap string Z;
  certification_level : Z
}.

(** [Employee.get_competency]: [self.station_competencies.get(station_id, 0)] *)
Definition get_competency (e : Employee) (station_id : string) : Z :=
  default 0 (station_competencies e !! station_id).

Record Assignment : Type := mkAssignment {
  station_id : string;
  assigned_employee_ids : list string;
  is_fully_staffed : bool;
  unfilled_slots : Z
}.

(** [Assignment(station_id=sid)]: the dataclass defaults. *)
Definition new_Assignment (sid : string) : Assignment :=
  mkAssignment sid [] false 0.

Record AssignmentLog : Type := mkAssignmentLog {
  log_date : string;
  employee_id : string;
  log_station_id : string;
  hours : float
}.

Record RotationStats : Type := mkRotationStats {
  rs_employee_id : string;
  rs_station_id : string;
  total_hours : float;
  days_since_last : Z;
  assignment_count : Z
}.

(** [RotationStats(employee_id=e, station_id=s)]: the dataclass defaults. *)
Definition new_RotationStats (e s : string) : RotationStats :=
  mkRotationStats e s 0%float 999 0.

Record ScenarioWeights : Type := mkScenarioWeights {
  sw_name : string;
  skill_weight : float;
  recency_weight : float;
  fatigue_weight : float;
  invert_skill : bool
}.

(** ** The scheduler state *)

Record MatrixScheduler : Type := mkScheduler {
  stations : dict Station;
  employees : dict Employee;
  assignments : dict Assignment;
  available_employees : gset string;
  absent_employees : gset string;
  assignment_logs : list AssignmentLog;
  scenario : ScenarioWeights
}.

Definition Balanced : ScenarioWeights :=
  mkScenarioWeights "Balanced" 0.40%float 0.35%float 0.25%float false.
Definition Max_Competency : ScenarioWeights :=
  mkScenarioWeights "Max Competency" 0.75%float 0.10%float 0.15%float false.
Definition Cross_Training : ScenarioWeights :=
  mkScenarioWeights "Cross-Training" 0.10%float 0.55%float 0.35%float true.
Definition Fatigue_Aware : ScenarioWeights :=
  mkScenarioWeights "Fatigue Aware" 0.30%float 0.25%float 0.45%float false.
Definition Fresh_Rotation : ScenarioWeights :=
  mkScenarioWeights "Fresh Rotation" 0.20%float 0.60%float 0.20%float false.

(** [MatrixScheduler.__init__] *)
Definition init (sts : list Station) (emps : list Employee) : MatrixScheduler :=
  let employees := of_list e_id emps in
  {| stations := of_list s_id sts;
     employees := employees;
     assignments := [];
     available_employees := list_to_set (keys employees);
     absent_employees := ∅;
     assignment_logs := [];
     scenario := Balanced |}.

(** ** Strings and calendar dates (the parts of [str] and [datetime]
       that [_build_rotation_stats] uses) *)

Definition code (c : Ascii.ascii) : Z := Z.of_N (Ascii.N_of_ascii c).

(** [a < b] on [str]: lexicographic on code points. *)
Fixpoint str_ltb (a b : string) : bool :=
  match a, b with
  | _, EmptyString => false
  | EmptyString, String _ _ => true
  | String x a', String y b' =>
      if code x <? code y then true
      else if code y <? code x then false
      else str_ltb a' b'
  end.

Module Calendar.

Definition is_leap (year : Z) : bool :=
  (year mod 4 =? 0) && (negb (year mod 100 =? 0) || (year mod 400 =? 0)).

Definition DAYS_IN_MONTH (month : Z) : Z :=
  match month with
  | 1 => 31 | 2 => 28 | 3 => 31 | 4 => 30 | 5 => 31 | 6 => 30
  | 7 => 31 | 8 => 31 | 9 => 30 | 10 => 31 | 11 => 30 | 12 => 31
  | _ => -1
  end.

Definition DAYS_BEFORE_MONTH (month : Z) : Z :=
  match month with
  | 1 => 0 | 2 => 31 | 3 => 59 | 4 => 90 | 5 => 120 | 6 => 151
  | 7 => 181 | 8 => 212 | 9 => 243 | 10 => 273 | 11 => 304 | 12 => 334
  | _ => -1
  end.

Definition days_before_year (year : Z) : Z :=
  let y := year - 1 in y * 365 + y / 4 - y / 100 + y / 400.

Definition days_in_month (year month : Z) : Z :=
  if (month =? 2) && is_leap year then 29 else DAYS_IN_MONTH month.

Definition days_before_month (year month : Z) : Z :=
  DAYS_BEFORE_MONTH month + (if (2 <? month) && is_leap year then 1 else 0).

(** [date(year, month, day).toordinal()] *)
Definition ymd2ord (year month day : Z) : Z :=
  days_before_year year + days_before_month year month + day.

(** [date.fromordinal(n)] as [(year, month, day)] *)
Definition ord2ymd (n : Z) : Z * Z * Z :=
  let n := n - 1 in
  let n400 := n / 146097 in let n := n mod 146097 in
  let year := n400 * 400 + 1 in
  let n100 := n / 36524 in let n := n mod 36524 in
  let n4 := n / 1461 in let n := n mod 1461 in
  let n1 := n / 365 in let n := n mod 365 in
  let year := year + n100 * 100 + n4 * 4 + n1 in
  if (n1 =? 4) || (n100 =? 4) then (year - 1, 12, 31)
  else
    let leapyear := (n1 =? 3) && (negb (n4 =? 24) || (n100 =? 3)) in
    let month := Z.shiftr (n + 50) 5 in
    let preceding :=
      DAYS_BEFORE_MONTH month + (if (2 <? month) && leapyear then 1 else 0) in
    if n <? preceding then
      let month := month - 1 in
      let preceding :=
        preceding
        - (DAYS_IN_MONTH month + (if (month =? 2) && leapyear then 1 else 0)) in
      (year, month, n - preceding + 1)
    else (year, month, n - preceding + 1).

Definition digit_char (d : Z) : Ascii.ascii :=
  Ascii.ascii_of_N (Z.to_N (48 + d mod 10)).

Definition pad2 (n : Z) : string :=
  String (digit_char (n / 10)) (String (digit_char n) EmptyString).

Definition pad4 (n : Z) : string :=
  String (digit_char (n / 1000)) (String (digit_char (n / 100)) (pad2 n)).

(** [d.strftime("%Y-%m-%d")] for the date of ordinal [n] (a four-digit year). *)
Definition strftime_ymd (n : Z) : string :=
  let '(y, m, d) := ord2ymd n in
  pad4 y +:+ "-" +:+ pad2 m +:+ "-" +:+ pad2 d.

Definition digit_of (c : Ascii.ascii) : option Z :=
  if (48 <=? code c) && (code c <=? 57) then Some (code c - 48) else None.

Definition in_range (lo hi : Z) (c : Ascii.ascii) : option Z :=
  match digit_of c with
  | Some d => if (lo <=? d) && (d <=? hi) then Some d else None
  | None => None
  end.

(** The directive [%Y]: exactly four digits. *)
Definition parse_Y (s : string) : option (Z * string) :=
  match s with
  | String a (String b (String c (String d rest))) =>
      match digit_of a, digit_of b, digit_of c, digit_of d with
      | Some a, Some b, Some c, Some d =>
          Some (a * 1000 + b * 100 + c * 10 + d, rest)
      | _, _, _, _ => None
      end
  | _ => None
  end.

(** The directive [%m]: [1[0-2]|0[1-9]|[1-9]], first alternative that fits. *)
Definition parse_m (s : string) : option (Z * string) :=
  match s with
  | String a rest =>
      let two :=
        match rest with
        | String b rest' =>
            match in_range 1 1 a, in_range 0 2 b with
            | Some _, Some b => Some (10 + b, rest')
            | _, _ =>
                match in_range 0 0 a, in_range 1 9 b with
                | Some _, Some b => Some (b, rest')
                | _, _ => None
                end
            end
        | EmptyString => None
        end in
      match two with
      | Some r => Some r
      | None => match in_range 1 9 a with
                | Some a => Some (a, rest)
                | None => None
                end
      end
  | EmptyString => None
  end.

(** The literal [-] of the format. *)
Definition parse_dash (s : string) : option string :=
  match s with
  | String c rest => if code c =? 45 then Some rest else None
  | EmptyString => None
  end.

(** The directive [%d]: [3[0-1]|[1-2]\d|0[1-9]|[1-9]| [1-9]]. *)
Definition parse_d (s : string) : option (Z * string) :=
  match s with
  | String a rest =>
      let two :=
        match rest with
        | String b rest' =>
            match in_range 3 3 a, in_range 0 1 b with
            | Some _, Some b => Some (30 + b, rest')
            | _, _ =>
                match in_range 1 2 a, digit_of b with
                | Some a, Some b => Some (a * 10 + b, rest')
                | _, _ =>
                    match in_range 0 0 a, in_range 1 9 b with
                    | Some _, Some b => Some (b, rest')
                    | _, _ => None
                    end
                end
            end
        | EmptyString => None
        end in
      match two with
      | Some r => Some r
      | None =>
          match in_range 1 9 a with
          | Some a => Some (a, rest)
          | None =>
              match rest with
              | String b rest' =>
                  if code a =? 32 then
                    match in_range 1 9 b with
                    | Some b => Some (b, rest')
                    | None => None
                    end
                  else None
              | EmptyString => None
              end
          end
      end
  | EmptyString => None
  end.

(** [datetime.strptime(s, "%Y-%m-%d").date()] on ASCII text, as the
    ordinal of the date.  Every failure of the library call is a
    [ValueError]: the text does not match the format, text is left over,
    or the fields are not a date. *)
Definition strptime_ymd (s : string) : result Z :=
  let bad := Raise (ValueError "time data does not match format") in
  match parse_Y s with
  | None => bad
  | Some (y, s1) =>
  match parse_dash s1 with
  | None => bad
  | Some s2 =>
  match parse_m s2 with
  | None => bad
  | Some (m, s3) =>
  match parse_dash s3 with
  | None => bad
  | Some s4 =>
  match parse_d s4 with
  | None => bad
  | Some (d, EmptyString) =>
      if (1 <=? y) && (d <=? days_in_month y m) then Ok (ymd2ord y m d)
      else Raise (ValueError "day or year is out of range")
  | Some (_, String _ _) => Raise (ValueError "unconverted data remains")
  end end end end end.

End Calendar.
Import Calendar.

(** ** Numbers and sorting *)

(** The conversion of an [int] to a [float] that Python applies in a mixed
    [int / float] division; exact for [|z| < 2^53], which covers every skill
    sum and day count the scorer sees, and meant for [|z| < 2^63] only. *)
Definition float_of_Z (z : Z) : float :=
  if z <? 0 then PrimFloat.opp (PrimFloat.of_uint63 (Uint63.of_Z (- z)))
  else PrimFloat.of_uint63 (Uint63.of_Z z).

(** [min(x, 240)] for a float [x]: Python keeps the first argument unless
    the second is strictly smaller. *)
Definition min_float_int (x : float) (n : Z) : float :=
  if PrimFloat.ltb (float_of_Z n) x then float_of_Z n else x.

(** [list.sort(key=..., reverse=True)]: a stable sort that only asks
    [key a < key b]; equal keys keep their original order. [lt a b] is
    [key a < key b].  Where [<] orders the keys (integers, tuples of
    integers, floats none of which is a NaN) a stable sort has one possible
    result, which this insertion sort computes. *)
Fixpoint insert_desc {A} (lt : A -> A -> bool) (x : A) (l : list A) : list A :=
  match l with
  | [] => [x]
  | y :: l' => if lt x y then y :: insert_desc lt x l' else x :: l
  end.

Definition sort_desc {A} (lt : A -> A -> bool) (l : list A) : list A :=
  foldr (insert_desc lt) [] l.

(** [<] on the tuples [(x[2], x[1])] *)
Definition pair_ltb (a b : Z * Z) : bool :=
  (a.1 <? b.1) || ((a.1 =? b.1) && (a.2 <? b.2)).

(** ** Rotation statistics *)

Abbreviation stats_map := (gmap (string * string) RotationStats).

Fixpoint foldM {A B} (f : B -> A -> result B) (l : list A) (b : B) : result B :=
  match l with
  | [] => Ok b
  | x :: l' => b' ← f b x; foldM f l' b'
  end.

(** One iteration of the loop of [_build_rotation_stats]. *)
Definition record_log (today : Z) (cutoff_str : string)
    (stats : stats_map) (log : AssignmentLog) : result stats_map :=
  if str_ltb (log_date log) cutoff_str then Ok stats
  else
    let key := (employee_id log, log_station_id log) in
    let s := default (new_RotationStats (employee_id log) (log_station_id log))
                     (stats !! key) in
    let s := mkRotationStats (rs_employee_id s) (rs_station_id s)
               (total_hours s + hours log)%float
               (days_since_last s) (assignment_count s + 1) in
    match strptime_ymd (log_date log) with
    | Ok log_date =>
        let days_ago := today - log_date in
        Ok (<[key := mkRotationStats (rs_employee_id s) (rs_station_id s)
                       (total_hours s)
                       (Z.min (days_since_last s) days_ago)
                       (assignment_count s)]> stats)
    | Raise (ValueError _) => Ok (<[key := s]> stats)
    | Raise e => Raise e
    end.

Definition _build_rotation_stats (today : Z) (rolling_window_days : Z)
    (logs : list AssignmentLog) : result stats_map :=
  let cutoff := today - rolling_window_days in
  let cutoff_str := strftime_ymd cutoff in
  foldM (record_log today cutoff_str) logs ∅.

(** ** The qualification gate and the ranking of candidates *)

Definition getitem {V} (k : string) (d : dict V) : result V :=
  match get k d with
  | Some v => Ok v
  | None => Raise (KeyError k)
  end.

(** The first loop of [_get_qualified_employees] over the ids [ids] of
    [self.available_employees]: triples [(emp_id, competency, certification)]. *)
Fixpoint collect_qualified (emps : dict Employee) (station : Station)
    (ids : list string) : result (list (string * Z * Z)) :=
  match ids with
  | [] => Ok []
  | emp_id :: rest =>
      employee ← getitem emp_id emps;
      let competency := get_competency employee (s_id station) in
      let meets_certification :=
        required_certification station <=? certification_level employee in
      let meets_competency := required_skill_level station <=? competency in
      qualified ← collect_qualified emps station rest;
      Ok (if meets_certification && meets_competency
          then (emp_id, competency, certification_level employee) :: qualified
          else qualified)
  end.

(** The body of the scoring loop: the priority of one qualified candidate. *)
Definition priority (w : ScenarioWeights) (rotation_stats : stats_map)
    (station : Station) (c : string * Z * Z) : float :=
  let '(emp_id, competency, certification) := c in
  let skill_score := (float_of_Z (competency + certification) / 6)%float in
  let skill_score := if invert_skill w then (1 - skill_score)%float else skill_score in
  let key := (emp_id, s_id station) in
  let '(recency_score, fatigue_score) :=
    match rotation_stats !! key with
    | Some rs =>
        ((float_of_Z (Z.min (days_since_last rs) 30) / 30)%float,
         (min_float_int (total_hours rs) 240 / 240)%float)
    | None => (1%float, 0%float)
    end in
  (skill_weight w * skill_score + recency_weight w * recency_score
   - fatigue_weight w * fatigue_score)%float.

Definition rank (w : ScenarioWeights) (rotation_stats : option stats_map)
    (station : Station) (qualified : list (string * Z * Z)) : list string :=
  match rotation_stats with
  | Some stats =>
      let scored := map (fun c => (c.1.1, priority w stats station c)) qualified in
      (sort_desc (fun a b => PrimFloat.ltb a.2 b.2) scored).*1
  | None =>
      map (fun c => c.1.1)
          (sort_desc (fun a b => pair_ltb (a.2, a.1.2) (b.2, b.1.2)) qualified)
  end.

Definition _get_qualified_employees (self : MatrixScheduler) (station : Station)
    (rotation_stats : option stats_map) : result (list string) :=
  qualified ← collect_qualified (employees self) station
                 (elements (available_employees self));
  Ok (rank (scenario self) rotation_stats station qualified).

(** [is_qualified] *)
Definition is_qualified (employee_id station_id : string)
    (self : MatrixScheduler) : result bool :=
  if negb (contains employee_id (employees self))
     || negb (contains station_id (stations self))
  then Ok false
  else
    employee ← getitem employee_id (employees self);
    station ← getitem station_id (stations self);
    Ok ((required_certification station <=? certification_level employee)
        && (required_skill_level station <=? get_competency employee station_id)).

(** ** The engine operations

    An operation takes the scheduler and gives back what the call
    produced, a value or an exception, together with the scheduler as the
    call left it: an exception does not undo the mutations made before it. *)

Definition set_scenario (w : ScenarioWeights) (self : MatrixScheduler) :=
  mkScheduler (stations self) (employees self) (assignments self)
    (available_employees self) (absent_employees self)
    (assignment_logs self) w.

Definition set_assignments (a : dict Assignment) (self : MatrixScheduler) :=
  mkScheduler (stations self) (employees self) a
    (available_employees self) (absent_employees self)
    (assignment_logs self) (scenario self).

Definition set_available (av : gset string) (self : MatrixScheduler) :=
  mkScheduler (stations self) (employees self) (assignments self)
    av (absent_employees self) (assignment_logs self) (scenario self).

Definition set_absent (ab : gset string) (self : MatrixScheduler) :=
  mkScheduler (stations self) (employees self) (assignments self)
    (available_employees self) ab (assignment_logs self) (scenario self).

(** The inner loop of [generate_schedule]: [for emp_id in qualified]. *)
Fixpoint fill_slots (qualified : list string) (slots_to_fill : Z)
    (assigned : list string) (available : gset string)
  : list string * gset string :=
  match qualified with
  | [] => (assigned, available)
  | emp_id :: rest =>
      if slots_to_fill <=? 0 then (assigned, available)
      else fill_slots rest (slots_to_fill - 1)
             (assigned ++ [emp_id]) (available ∖ {[emp_id]})
  end.

(** The body of the outer loop of [generate_schedule] for one station. *)
Definition staff_station (rotation_stats : option stats_map) (station : Station)
    (self : MatrixScheduler) : result unit * MatrixScheduler :=
  match _get_qualified_employees self station rotation_stats with
  | Raise e => (Raise e, self)
  | Ok qualified =>
      let '(assigned, available) :=
        fill_slots qualified (required_headcount station) []
                   (available_employees self) in
      let filled := Z.of_nat (length assigned) in
      let unfilled := required_headcount station - filled in
      let assignment :=
        mkAssignment (s_id station) assigned (unfilled =? 0) unfilled in
      (Ok (),
       set_assignments (set (s_id station) assignment (assignments self))
         (set_available available self))
  end.

Fixpoint staff_stations (rotation_stats : option stats_map)
    (sorted_stations : list Station) (self : MatrixScheduler)
  : result unit * MatrixScheduler :=
  match sorted_stations with
  | [] => (Ok (), self)
  | station :: rest =>
      match staff_station rotation_stats station self with
      | (Ok _, self') => staff_stations rotation_stats rest self'
      | (Raise e, self') => (Raise e, self')
      end
  end.

Definition generate_schedule (today : Z) (scenario : option ScenarioWeights)
    (self : MatrixScheduler) : result (dict Assignment) * MatrixScheduler :=
  let self := match scenario with
              | Some w => set_scenario w self
              | None => self
              end in
  let self := set_assignments [] self in
  let self :=
    set_available (list_to_set (keys (employees self)) ∖ absent_employees self)
                  self in
  let rotation_stats :=
    match assignment_logs self with
    | [] => Ok None
    | _ :: _ => stats ← _build_rotation_stats today 30 (assignment_logs self);
                Ok (Some stats)
    end in
  match rotation_stats with
  | Raise e => (Raise e, self)
  | Ok rotation_stats =>
      let sorted_stations :=
        sort_desc (fun a b => required_skill_level a <? required_skill_level b)
                  (values (stations self)) in
      match staff_stations rotation_stats sorted_stations self with
      | (Ok _, self') => (Ok (assignments self'), self')
      | (Raise e, self') => (Raise e, self')
      end
  end.

(** The object bound to [assignment] in [rebalance_schedule]: the one
    stored at [self.assignments[sid]], so that a mutation of it is a
    mutation of the stored value. *)
Definition the_assignment (sid : string) (self : MatrixScheduler) : Assignment :=
  default (new_Assignment sid) (get sid (assignments self)).

Definition update_assignment (sid : string) (a : Assignment)
    (self : MatrixScheduler) : MatrixScheduler :=
  set_assignments (set sid a (assignments self)) self.

(** The loop [while assignment.unfilled_slots > 0] of [rebalance_schedule].
    Each turn that does not leave the loop lowers [unfilled_slots] by one,
    so [fuel] turns are enough when [fuel] is at least [unfilled_slots]. *)
Fixpoint fill_gaps (fuel : nat) (station : Station) (sid : string)
    (self : MatrixScheduler) : result unit * MatrixScheduler :=
  match fuel with
  | O => (Ok (), self)
  | S fuel' =>
      let assignment := the_assignment sid self in
      if 0 <? unfilled_slots assignment then
        match _get_qualified_employees self station None with
        | Raise e => (Raise e, self)
        | Ok [] => (Ok (), self)
        | Ok (emp_id :: _) =>
            let assignment' :=
              mkAssignment (station_id assignment)
                (assigned_employee_ids assignment ++ [emp_id])
                (is_fully_staffed assignment)
                (unfilled_slots assignment - 1) in
            fill_gaps fuel' station sid
              (set_available (available_employees self ∖ {[emp_id]})
                 (update_assignment sid assignment' self))
        end
      else (Ok (), self)
  end.

Definition rebalance_schedule (sid : string) (self : MatrixScheduler)
  : result bool * MatrixScheduler :=
  match get sid (stations self) with
  | None => (Raise (ValueError ("Unknown station: " +:+ sid)), self)
  | Some station =>
      let self :=
        match get sid (assignments self) with
        | None => update_assignment sid (new_Assignment sid) self
        | Some _ => self
        end in
      let fuel := Z.to_nat (unfilled_slots (the_assignment sid self)) in
      match fill_gaps fuel station sid self with
      | (Raise e, self') => (Raise e, self')
      | (Ok _, self') =>
          let assignment := the_assignment sid self' in
          let staffed := unfilled_slots assignment =? 0 in
          (Ok staffed,
           update_assignment sid
             (mkAssignment (station_id assignment)
                (assigned_employee_ids assignment) staffed
                (unfilled_slots assignment)) self')
      end
  end.

(** [list.remove(x)]: drops the first occurrence. *)
Fixpoint remove_first (x : string) (l : list string) : list string :=
  match l with
  | [] => []
  | y :: l' => if decide (x = y) then l' else y :: remove_first x l'
  end.

(** The body of the first loop of [handle_absence] on one assignment. *)
Definition unassign (emp_id : string) (a : Assignment) : Assignment :=
  if bool_decide (emp_id ∈ assigned_employee_ids a) then
    mkAssignment (station_id a) (remove_first emp_id (assigned_employee_ids a))
      false (unfilled_slots a + 1)
  else a.

Definition affected_by (emp_id : string) (d : dict Assignment) : list string :=
  keys (filter (fun kv => emp_id ∈ assigned_employee_ids kv.2) d).

Fixpoint rebalance_each (sids : list string) (self : MatrixScheduler)
  : result unit * MatrixScheduler :=
  match sids with
  | [] => (Ok (), self)
  | sid :: rest =>
      match rebalance_schedule sid self with
      | (Ok _, self') => rebalance_each rest self'
      | (Raise e, self') => (Raise e, self')
      end
  end.

Definition handle_absence (emp_id : string) (self : MatrixScheduler)
  : result (list string) * MatrixScheduler :=
  if negb (contains emp_id (employees self)) then
    (Raise (ValueError ("Unknown employee: " +:+ emp_id)), self)
  else
    let self := set_absent (absent_employees self ∪ {[emp_id]}) self in
    let self := set_available (available_employees self ∖ {[emp_id]}) self in
    let affected_stations := affected_by emp_id (assignments self) in
    let self :=
      set_assignments (prod_map id (unassign emp_id) <$> assignments self) self in
    match rebalance_each affected_stations self with
    | (Ok _, self') => (Ok affected_stations, self')
    | (Raise e, self') => (Raise e, self')
    end.

(** *** The examples of the specification, run on the model *)

Definition competencies (l : list (string * Z)) : gmap string Z := list_to_map l.

Definition ex_critical := mkStation "critical" "Critical" 3 2 0.
Definition ex_general := mkStation "general" "General" 1 1 0.
Definition ex_alice :=
  mkEmployee "alice" "Alice" (competencies [("critical", 3); ("general", 3)]) 0.
Definition ex_bob :=
  mkEmployee "bob" "Bob" (competencies [("critical", 1); ("general", 2)]) 0.
Definition ex_state := init [ex_general; ex_critical] [ex_alice; ex_bob].

(** ** Serialization: [to_dict] / [from_dict], [to_json] / [from_json]

    [json] is the value that [json.dumps] writes and [json.loads] reads
    back; the text between the two is left out, since [json.loads] gives
    back the value [json.dumps] was given when that value is built from
    dictionaries with string keys, lists, strings, integers, floats and
    booleans, which is all [to_json] builds.  The records of [models.py]
    are typed, so a field that holds a value of another JSON type than the
    dataclass declares is rejected here with [TypeError]. *)

Inductive json : Type :=
| JNull
| JBool (b : bool)
| JInt (n : Z)
| JFloat (x : float)
| JStr (s : string)
| JList (l : list json)
| JObject (o : dict json).

Module Json.

Definition as_str (v : json) : result string :=
  match v with JStr s => Ok s | _ => Raise (TypeError "str") end.
Definition as_int (v : json) : result Z :=
  match v with JInt n => Ok n | _ => Raise (TypeError "int") end.
Definition as_bool (v : json) : result bool :=
  match v with JBool b => Ok b | _ => Raise (TypeError "bool") end.
Definition as_list (v : json) : result (list json) :=
  match v with JList l => Ok l | _ => Raise (TypeError "list") end.
Definition as_object (v : json) : result (dict json) :=
  match v with JObject o => Ok o | _ => Raise (TypeError "dict") end.
(** [float(v)] *)
Definition to_float (v : json) : result float :=
  match v with
  | JFloat x => Ok x
  | JInt n => Ok (float_of_Z n)
  | _ => Raise (TypeError "float")
  end.

(** [data.get(k, default)] followed by the reading [rd] of the value *)
Definition get_or {A} (k : string) (rd : json -> result A) (dflt : A)
    (data : dict json) : result A :=
  match get k data with
  | Some v => rd v
  | None => Ok dflt
  end.

(** [data[k]] followed by the reading [rd] of the value *)
Definition field {A} (k : string) (rd : json -> result A)
    (data : dict json) : result A :=
  v ← getitem k data; rd v.

Fixpoint mapM {A B} (f : A -> result B) (l : list A) : result (list B) :=
  match l with
  | [] => Ok []
  | x :: l' => y ← f x; ys ← mapM f l'; Ok (y :: ys)
  end.

End Json.
Import Json.

Definition Station_to_dict (s : Station) : json :=
  JObject [("id", JStr (s_id s)); ("name", JStr (s_name s));
           ("required_skill_level", JInt (required_skill_level s));
           ("required_headcount", JInt (required_headcount s));
           ("required_certification", JInt (required_certification s))].

Definition Station_from_dict (v : json) : result Station :=
  data ← as_object v;
  id ← field "id" as_str data;
  name ← field "name" as_str data;
  skill ← field "required_skill_level" as_int data;
  headcount ← get_or "required_headcount" as_int 1 data;
  certification ← get_or "required_certification" as_int 0 data;
  Ok (mkStation id name skill headcount certification).

Definition competencies_to_dict (m : gmap string Z) : json :=
  JObject (prod_map id JInt <$> map_to_list m).

Definition competencies_from_dict (v : json) : result (gmap string Z) :=
  o ← as_object v;
  l ← mapM (fun kv => n ← as_int kv.2; Ok (kv.1, n)) o;
  Ok (list_to_map l).

Definition Employee_to_dict (e : Employee) : json :=
  JObject [("id", JStr (e_id e)); ("name", JStr (e_name e));
           ("station_competencies", competencies_to_dict (station_competencies e));
           ("certification_level", JInt (certification_level e))].

Definition Employee_from_dict (v : json) : result Employee :=
  data ← as_object v;
  if contains "current_skill_level" data
     && negb (contains "station_competencies" data)
  then
    id ← field "id" as_str data;
    name ← field "name" as_str data;
    certification ← get_or "certification_level" as_int 0 data;
    Ok (mkEmployee id name ∅ certification)
  else
    id ← field "id" as_str data;
    name ← field "name" as_str data;
    comps ← get_or "station_competencies" competencies_from_dict ∅ data;
    certification ← get_or "certification_level" as_int 0 data;
    Ok (mkEmployee id name comps certification).

Definition Assignment_to_dict (a : Assignment) : json :=
  JObject [("station_id", JStr (station_id a));
           ("assigned_employee_ids", JList (JStr <$> assigned_employee_ids a));
           ("is_fully_staffed", JBool (is_fully_staffed a));
           ("unfilled_slots", JInt (unfilled_slots a))].

Definition str_list (v : json) : result (list string) :=
  l ← as_list v; mapM as_str l.

Definition Assignment_from_dict (v : json) : result Assignment :=
  data ← as_object v;
  sid ← field "station_id" as_str data;
  ids ← get_or "assigned_employee_ids" str_list [] data;
  staffed ← get_or "is_fully_staffed" as_bool false data;
  unfilled ← get_or "unfilled_slots" as_int 0 data;
  Ok (mkAssignment sid ids staffed unfilled).

Definition AssignmentLog_to_dict (l : AssignmentLog) : json :=
  JObject [("log_date", JStr (log_date l));
           ("employee_id", JStr (employee_id l));
           ("station_id", JStr (log_station_id l));
           ("hours", JFloat (hours l))].

Definition AssignmentLog_from_dict (v : json) : result AssignmentLog :=
  data ← as_object v;
  d ← field "log_date" as_str data;
  e ← field "employee_id" as_str data;
  s ← field "station_id" as_str data;
  h ← get_or "hours" to_float 8%float data;
  Ok (mkAssignmentLog d e s h).

Definition to_json (self : MatrixScheduler) : json :=
  JObject
    [("stations", JList (Station_to_dict <$> values (stations self)));
     ("employees", JList (Employee_to_dict <$> values (employees self)));
     ("assignments", JList (Assignment_to_dict <$> values (assignments self)));
     ("available_employees", JList (JStr <$> elements (available_employees self)));
     ("absent_employees", JList (JStr <$> elements (absent_employees self)));
     ("assignment_logs", JList (AssignmentLog_to_dict <$> assignment_logs self))].

Definition list_of {A} (rd : json -> result A) (v : json) : result (list A) :=
  l ← as_list v; mapM rd l.

Definition from_json (v : json) : result MatrixScheduler :=
  state ← as_object v;
  sts ← field "stations" (list_of Station_from_dict) state;
  emps ← field "employees" (list_of Employee_from_dict) state;
  let scheduler := init sts emps in
  asgs ← get_or "assignments" (list_of Assignment_from_dict) [] state;
  let scheduler :=
    set_assignments
      (fold_left (fun d a => set (station_id a) a d) asgs (assignments scheduler))
      scheduler in
  available ← get_or "available_employees" str_list [] state;
  let scheduler := set_available (list_to_set available) scheduler in
  absent ← get_or "absent_employees" str_list [] state;
  let scheduler := set_absent (list_to_set absent) scheduler in
  logs ← get_or "assignment_logs" (list_of AssignmentLog_from_dict) [] state;
  Ok (mkScheduler (stations scheduler) (employees scheduler)
        (assignments scheduler) (available_employees scheduler)
        (absent_employees scheduler) (assignment_logs scheduler ++ logs)
        (scenario scheduler)).

(** ** Well-formed and reachable states *)

(** A dictionary keyed by a field of its values: the keys are distinct (as
    in any [dict]) and every value sits at the key its field names, as
    [{s.id: s for s in stations}] builds it. *)
Definition keyed_by {V} (key : V -> string) (d : dict V) : Prop :=
  NoDup (keys d) ∧ Forall (fun kv => key kv.2 = kv.1) d.

(** The qualification gate, as a proposition. *)
Definition qualifies (e : Employee) (st : Station) : Prop :=
  required_certification st <= certification_level e
  ∧ required_skill_level st <= get_competency e (s_id st).

Record wf (s : MatrixScheduler) : Prop := mk_wf {
  wf_stations : keyed_by s_id (stations s);
  wf_employees : keyed_by e_id (employees s);
  wf_assignments : keyed_by station_id (assignments s);
  wf_assigned_known :
    ∀ k, k ∈ keys (assignments s) → k ∈ keys (stations s);
  wf_available_known :
    ∀ e, e ∈ available_employees s → e ∈ keys (employees s)
}.

(** What the allocator maintains about the current assignments. *)
Record consistent (s : MatrixScheduler) : Prop := mk_consistent {
  cs_nodup :
    ∀ k a, get k (assignments s) = Some a → NoDup (assigned_employee_ids a);
  cs_disjoint :
    ∀ k1 k2 a1 a2 e,
      get k1 (assignments s) = Some a1 → get k2 (assignments s) = Some a2 →
      e ∈ assigned_employee_ids a1 → e ∈ assigned_employee_ids a2 → k1 = k2;
  cs_unavailable :
    ∀ k a e, get k (assignments s) = Some a →
      e ∈ assigned_employee_ids a → e ∉ available_employees s;
  cs_qualified :
    ∀ k a e, get k (assignments s) = Some a → e ∈ assigned_employee_ids a →
      ∃ st emp, get k (stations s) = Some st ∧ get e (employees s) = Some emp
                ∧ qualifies emp st
}.

Definition set_logs (logs : list AssignmentLog) (self : MatrixScheduler) :=
  mkScheduler (stations self) (employees self) (assignments self)
    (available_employees self) (absent_employees self) logs (scenario self).

(** The states the engine operations reach from a freshly constructed
    scheduler.  Each operation contributes the state it leaves behind,
    whether it returned or raised.  The history [assignment_logs] is kept
    by the caller, who may store any list of entries in it. *)
Inductive reachable : MatrixScheduler → Prop :=
| reach_init sts emps : reachable (init sts emps)
| reach_logs s logs : reachable s → reachable (set_logs logs s)
| reach_generate s today w :
    reachable s → reachable (generate_schedule today w s).2
| reach_absence s emp_id :
    reachable s → reachable (handle_absence emp_id s).2
| reach_rebalance s sid :
    reachable s → reachable (rebalance_schedule sid s).2.

(** ** The scorer as section 4.3 of the specification words it *)

Module Spec.

Definition skill_score (w : ScenarioWeights) (competency certification : Z) : float :=
  let s := (float_of_Z (competency + certification) / 6)%float in
  if invert_skill w then (1 - s)%float else s.

Definition recency_score (rs : option RotationStats) : float :=
  match rs with
  | Some rs => (float_of_Z (Z.min (days_since_last rs) 30) / 30)%float
  | None => 1%float
  end.

Definition fatigue_score (rs : option RotationStats) : float :=
  match rs with
  | Some rs => (min_float_int (total_hours rs) 240 / 240)%float
  | None => 0%float
  end.

Definition priority (w : ScenarioWeights) (competency certification : Z)
    (rs : option RotationStats) : float :=
  (skill_weight w * skill_score w competency certification
   + recency_weight w * recency_score rs
   - fatigue_weight w * fatigue_score rs)%float.

End Spec.

(** The ranking by certification, then competency, both descending: the
    [else] branch of [_get_qualified_employees], in which neither the
    rotation statistics nor the scenario weights occur. *)
Definition legacy_rank (station : Station) (qualified : list (string * Z * Z))
  : list string :=
  map (fun c => c.1.1)
      (sort_desc (fun a b => pair_ltb (a.2, a.1.2) (b.2, b.1.2)) qualified).

(** ** Definitions that the statements below use *)

(** A list in descending order for [lt]: no element is below a later one. *)
Definition descending {A} (lt : A → A → bool) : list A → Prop :=
  StronglySorted (fun a b => lt a b = false).

(** The triple the first loop of [_get_qualified_employees] records for
    [emp_id], if any. *)
Definition candidate (emps : dict Employee) (station : Station)
    (emp_id : string) : option (string * Z * Z) :=
  e ← get emp_id emps;
  if (required_certification station <=? certification_level e)
     && (required_skill_level station <=? get_competency e (s_id station))
  then Some (emp_id, get_competency e (s_id station), certification_level e)
  else None.

(** The invariant of the allocator. *)
Definition Inv (s : MatrixScheduler) : Prop := wf s ∧ consistent s.

(** What [generate_schedule] stores for a station. *)
Definition staffed_as (st : Station) (a : Assignment) : Prop :=
  station_id a = s_id st
  ∧ unfilled_slots a
    = required_headcount st - Z.of_nat (length (assigned_employee_ids a))
  ∧ is_fully_staffed a = (unfilled_slots a =? 0)
  ∧ (length (assigned_employee_ids a) ≤ Z.to_nat (required_headcount st))%nat.

(** The state in which the loop over the stations starts. *)
Definition reset_for_generate (w : option ScenarioWeights)
    (self : MatrixScheduler) : MatrixScheduler :=
  let self := match w with Some w => set_scenario w self | None => self end in
  let self := set_assignments [] self in
  set_available (list_to_set (keys (employees self)) ∖ absent_employees self)
                self.

(** The rotation statistics [generate_schedule] hands to the ranking. *)
Definition stats_for (today : Z) (logs : list AssignmentLog)
  : result (option stats_map) :=
  match logs with
  | [] => Ok None
  | _ :: _ => stats ← _build_rotation_stats today 30 logs; Ok (Some stats)
  end.

(** [sorted(self.stations.values(), key=..., reverse=True)] *)
Definition sorted_stations (self : MatrixScheduler) : list Station :=
  sort_desc (fun a b => required_skill_level a <? required_skill_level b)
            (values (stations self)).

(** What no engine operation changes, apart from [generate_schedule]'s
    choice of scenario. *)
Definition same_entities (s s' : MatrixScheduler) : Prop :=
  stations s' = stations s ∧ employees s' = employees s
  ∧ assignment_logs s' = assignment_logs s ∧ scenario s' = scenario s.

(** The state after the first loop of [handle_absence]. *)
Definition mark_absent (emp_id : string) (self : MatrixScheduler) : MatrixScheduler :=
  let self := set_absent (absent_employees self ∪ {[emp_id]}) self in
  let self := set_available (available_employees self ∖ {[emp_id]}) self in
  set_assignments (prod_map id (unassign emp_id) <$> assignments self) self.

#[global] Instance keyed_by_dec {V} (key : V → string) (d : dict V) :
  Decision (keyed_by key d).
Proof. unfold keyed_by. apply _. Defined.

(** The example state after [generate_schedule] on 2026-11-04. *)
Definition ex_scheduled : MatrixScheduler :=
  (generate_schedule 739924 None ex_state).2.

(** [strptime] raises on the date of the entry. *)
Definition unparseable (log : AssignmentLog) : Prop :=
  ∃ e, strptime_ymd (log_date log) = Raise e.

(** C5 as the specification states it: the statistics are those of the
    history without the entry. *)
Definition skipped_entirely (today : Z) (before : list AssignmentLog)
    (bad : AssignmentLog) (after : list AssignmentLog) : Prop :=
  _build_rotation_stats today 30 (before ++ bad :: after)
  = _build_rotation_stats today 30 (before ++ after).

(** A history entry whose date is not a date. *)
Definition ex_bad_log : AssignmentLog :=
  mkAssignmentLog "not-a-date" "alice" "critical" 8%float.

(** [(certification, competency)] of [a] is not below that of [b]. *)
Definition cert_comp_ge (a b : string * Z * Z) : Prop :=
  pair_ltb (a.2, a.1.2) (b.2, b.1.2) = false.

(** A binary64 value that is a number or an infinity. *)
Definition SF_not_nan (x : spec_float) : Prop :=
  match x with S754_nan => False | _ => True end.

(** The priority of [a] is not below that of [b]. *)
Definition priority_ge (a b : string * float) : Prop :=
  PrimFloat.ltb a.2 b.2 = false.

(** A history of one day: alice worked eight hours at the general station
    on 2026-11-03. *)
Definition ex_history : list AssignmentLog :=
  [mkAssignmentLog "2026-11-03" "alice" "general" 8%float].

(** The example state with that history, after alice is reported absent. *)
Definition ex_after_absence : MatrixScheduler :=
  (handle_absence "alice" (set_logs ex_history ex_scheduled)).2.

#[global] Instance qualifies_dec e st : Decision (qualifies e st).
Proof. unfold qualifies. apply _. Defined.

(** Two stations that want the same employee: carol is the only one who
    passes the gate of either. *)
Definition ex_low := mkStation "low" "Low Skill" 1 1 0.

Definition ex_high := mkStation "high" "High Skill" 3 1 0.

Definition ex_carol :=
  mkEmployee "carol" "Carol" (competencies [("low", 3); ("high", 3)]) 0.

Definition ex_dave := mkEmployee "dave" "Dave" (competencies [("high", 1)]) 0.

Definition ex_contested := init [ex_low; ex_high] [ex_carol; ex_dave].

(** ** Bookkeeping of the roster and of the slots *)

(** Where every employee is, and what the slot counters say: absent ids
    are known employees and are neither available nor assigned; every
    employee is available, absent or assigned; the unfilled slots and the
    assigned employees of a station add up to its required headcount,
    unless the assignment was created empty by [rebalance_schedule]. *)
Record accounted (s : MatrixScheduler) : Prop := mk_accounted {
  ac_absent_known :
    ∀ e, e ∈ absent_employees s → e ∈ keys (employees s);
  ac_available_present :
    ∀ e, e ∈ available_employees s → e ∉ absent_employees s;
  ac_assigned_present :
    ∀ k a e, get k (assignments s) = Some a →
      e ∈ assigned_employee_ids a → e ∉ absent_employees s;
  ac_covered :
    ∀ e, e ∈ keys (employees s) →
      e ∈ available_employees s ∨ e ∈ absent_employees s
      ∨ ∃ k a, get k (assignments s) = Some a ∧ e ∈ assigned_employee_ids a;
  ac_slots :
    ∀ k a st, get k (assignments s) = Some a → get k (stations s) = Some st →
      unfilled_slots a + Z.of_nat (length (assigned_employee_ids a))
      = required_headcount st
      ∨ (unfilled_slots a = 0 ∧ assigned_employee_ids a = []);
  ac_nonneg :
    ∀ k a, get k (assignments s) = Some a →
      0 ≤ unfilled_slots a ∨ assigned_employee_ids a = []
}.

(** The staffing flag of every assignment agrees with its slot counter. *)
Definition flagged (s : MatrixScheduler) : Prop :=
  ∀ k a, get k (assignments s) = Some a →
    is_fully_staffed a = (unfilled_slots a =? 0).

(** Station [k] has no open slot that an available employee could take. *)
Definition saturated_at (k : string) (s : MatrixScheduler) : Prop :=
  ∀ a st e emp,
    get k (assignments s) = Some a → get k (stations s) = Some st →
    0 < unfilled_slots a →
    e ∈ available_employees s → get e (employees s) = Some emp →
    ¬ qualifies emp st.

(** Everything the engine maintains besides the allocator's invariant. *)
Definition Kept (s : MatrixScheduler) : Prop :=
  accounted s ∧ flagged s ∧ ∀ k, saturated_at k s.

(** The contested roster after generation: carol is at "high", "low" stays
    open and dave, who is rated for neither, is still available. *)
Definition ex_contested_scheduled : MatrixScheduler :=
  (generate_schedule 739924 None ex_contested).2.

(** ** Reports on the current schedule *)

(** [get_unfilled_stations]: the station ids, in the order of
    [self.assignments], whose assignment is not flagged fully staffed. *)
Definition get_unfilled_stations (self : MatrixScheduler) : list string :=
  fold_left
    (fun unfilled kv =>
       if negb (is_fully_staffed kv.2) then unfilled ++ [kv.1] else unfilled)
    (assignments self) [].

(** One entry of the dictionary [get_schedule_summary] returns. *)
Record Summary : Type := mkSummary {
  sm_station_name : string;
  sm_assigned : list string;
  sm_required : Z;
  sm_filled : Z;
  sm_status : string
}.

Definition status_of (a : Assignment) : string :=
  if is_fully_staffed a then "fully_staffed" else "unfilled".

(** The body of the loop of [get_schedule_summary]; [self.stations[station_id]]
    raises [KeyError] for an assignment whose station is not known. *)
Definition summarize (self : MatrixScheduler) (summary : dict Summary)
    (kv : string * Assignment) : result (dict Summary) :=
  station ← getitem kv.1 (stations self);
  let filled := Z.of_nat (length (assigned_employee_ids kv.2)) in
  Ok (set kv.1
        (mkSummary (s_name station) (assigned_employee_ids kv.2)
           (required_headcount station) filled (status_of kv.2))
        summary).

Definition get_schedule_summary (self : MatrixScheduler) : result (dict Summary) :=
  foldM (summarize self) (assignments self) [].

(** The entry of the summary for assignment [a] of station [st]. *)
Definition summary_of (st : Station) (a : Assignment) : Summary :=
  mkSummary (s_name st) (assigned_employee_ids a) (required_headcount st)
    (Z.of_nat (length (assigned_employee_ids a))) (status_of a).



(** ** What the rotation statistics hold for one pair *)


(** Days between [today] and the date of an entry, when the date parses. *)
Definition days_ago (today : Z) (log : AssignmentLog) : option Z :=
  match strptime_ymd (log_date log) with
  | Ok log_date => Some (today - log_date)
  | Raise _ => None
  end.




(** ** app.py: merging a finalized day into the log

    The loop of [schedule_section] that stores the entries of the day in
    [scheduler.assignment_logs], one entry per (date, employee, station). *)

Definition log_key (log : AssignmentLog) : string * string * string :=
  (log_date log, employee_id log, log_station_id log).

(** [for i, existing in enumerate(logs): if key(existing) == key:
    logs[i] = log; break] *)
Fixpoint replace_first (log : AssignmentLog) (logs : list AssignmentLog)
  : list AssignmentLog :=
  match logs with
  | [] => []
  | existing :: rest =>
      if decide (log_key existing = log_key log) then log :: rest
      else existing :: replace_first log rest
  end.

(** One turn of [for log in new_logs], on the log and [existing_keys]. *)
Definition merge_log
    (acc : list AssignmentLog * gset (string * string * string))
    (log : AssignmentLog)
  : list AssignmentLog * gset (string * string * string) :=
  if decide (log_key log ∈ acc.2) then (replace_first log acc.1, acc.2)
  else (acc.1 ++ [log], acc.2 ∪ {[log_key log]}).

Definition merge_logs (logs new_logs : list AssignmentLog) : list AssignmentLog :=
  (fold_left merge_log new_logs (logs, list_to_set (log_key <$> logs))).1.

(** The entries of a second day: alice's entry of 2026-11-03 corrected to
    four hours, and a new entry for bob. *)
Definition ex_finalized : list AssignmentLog :=
  [mkAssignmentLog "2026-11-03" "alice" "general" 4%float;
   mkAssignmentLog "2026-11-04" "bob" "general" 8%float].

(** The last of [new_logs] with the key of [log]. *)
Definition last_with_key (log : AssignmentLog) (new_logs : list AssignmentLog)
  : option AssignmentLog :=
  last (filter (fun l => log_key l = log_key log) new_logs).

(** * Properties *)

(** ** The calendar, on the dates of the examples *)

Example ymd2ord_2026_11_04 : ymd2ord 2026 11 4 = 739924.
Proof. reflexivity. Qed.

Example ord2ymd_739924 : ord2ymd 739924 = (2026, 11, 4).
Proof. reflexivity. Qed.

Example strftime_cutoff : strftime_ymd (739924 - 30) = "2026-10-05"%string.
Proof. reflexivity. Qed.

Example strptime_padded : strptime_ymd "2026-10-05" = Ok 739894.
Proof. reflexivity. Qed.

Example strptime_unpadded : strptime_ymd "2026-1-5" = Ok (ymd2ord 2026 1 5).
Proof. reflexivity. Qed.

Example strptime_no_such_day :
  strptime_ymd "2026-02-30" = Raise (ValueError "day or year is out of range").
Proof. reflexivity. Qed.

Example strptime_no_such_month :
  strptime_ymd "2026-13-01" = Raise (ValueError "time data does not match format").
Proof. reflexivity. Qed.

Example strptime_text_left_over :
  strptime_ymd "2026-10-051" = Raise (ValueError "unconverted data remains").
Proof. reflexivity. Qed.

Example ex_generate :
  (generate_schedule 739924 None ex_state).1 =
  Ok [("critical", mkAssignment "critical" ["alice"] false 1);
      ("general", mkAssignment "general" ["bob"] true 0)].
Proof. vm_compute. reflexivity. Qed.

(** ** Dictionaries *)

Section dict_facts.
Context {V : Type}.
Implicit Types (d : dict V) (k : string) (v : V).

Lemma get_set_eq k v d : get k (set k v d) = Some v.
Proof.
  induction d as [|[k' v'] d IH]; simpl.
  - by rewrite decide_True.
  - destruct (decide (k = k')) as [->|Hne]; simpl.
    + by rewrite decide_True.
    + by rewrite decide_False.
Qed.

Lemma get_set_ne k k' v d : k ≠ k' → get k' (set k v d) = get k' d.
Proof.
  intros Hne. induction d as [|[k0 v0] d IH]; simpl.
  - by rewrite decide_False.
  - destruct (decide (k = k0)) as [->|Hk]; simpl.
    + by rewrite !decide_False.
    + destruct (decide (k' = k0)); done.
Qed.

Lemma get_Some_elem k v d : get k d = Some v → (k, v) ∈ d.
Proof.
  induction d as [|[k' v'] d IH]; simpl; [done|].
  destruct (decide (k = k')) as [->|Hne].
  - intros [= ->]. left.
  - intros H. right. auto.
Qed.

Lemma get_is_Some k d : k ∈ keys d ↔ is_Some (get k d).
Proof.
  unfold keys. induction d as [|[k' v'] d IH]; simpl.
  - split; [by intros ?%elem_of_nil | by intros [? ?]].
  - rewrite elem_of_cons. destruct (decide (k = k')) as [->|Hne].
    + split; eauto.
    + rewrite IH. naive_solver.
Qed.

Lemma get_None k d : k ∉ keys d ↔ get k d = None.
Proof. rewrite get_is_Some. by rewrite eq_None_not_Some. Qed.

Lemma elem_get k v d : NoDup (keys d) → (k, v) ∈ d → get k d = Some v.
Proof.
  unfold keys. induction d as [|[k' v'] d IH]; simpl.
  - by intros _ ?%elem_of_nil.
  - intros [Hk Hd]%NoDup_cons [[= -> ->]|Hin]%elem_of_cons.
    + by rewrite decide_True.
    + rewrite decide_False; [auto|].
      intros ->. apply Hk. apply list_elem_of_fmap. by exists (k', v).
Qed.

Lemma contains_true k d : contains k d = true ↔ k ∈ keys d.
Proof. unfold contains. rewrite bool_decide_eq_true. by rewrite get_is_Some. Qed.

Lemma contains_false k d : contains k d = false ↔ k ∉ keys d.
Proof. unfold contains. rewrite bool_decide_eq_false. by rewrite get_is_Some. Qed.

Lemma set_fresh k v d : k ∉ keys d → set k v d = d ++ [(k, v)].
Proof.
  unfold keys. induction d as [|[k' v'] d IH]; simpl; [done|].
  intros Hk. rewrite not_elem_of_cons in Hk. destruct Hk as [Hne Hk].
  rewrite decide_False by done. by rewrite IH.
Qed.

Lemma keys_set_known k v d : k ∈ keys d → keys (set k v d) = keys d.
Proof.
  unfold keys. induction d as [|[k' v'] d IH]; simpl.
  - by intros ?%elem_of_nil.
  - intros Hin. destruct (decide (k = k')) as [->|Hne]; simpl; [done|].
    f_equal. apply IH. apply elem_of_cons in Hin. naive_solver.
Qed.

Lemma keys_set k v d : ∀ x, x ∈ keys (set k v d) ↔ x = k ∨ x ∈ keys d.
Proof.
  intros x. destruct (decide (k ∈ keys d)) as [Hin|Hnin].
  - rewrite keys_set_known by done. naive_solver.
  - rewrite set_fresh by done. unfold keys. rewrite fmap_app. simpl.
    rewrite elem_of_app, list_elem_of_singleton. naive_solver.
Qed.

Lemma keyed_by_set key k v d :
  keyed_by key d → key v = k → keyed_by key (set k v d).
Proof.
  intros [Hnd Hall] Hk. destruct (decide (k ∈ keys d)) as [Hin|Hnin].
  - split; [by rewrite keys_set_known|].
    clear Hnd. induction d as [|[k' v'] d IH]; simpl.
    { by apply elem_of_nil in Hin. }
    apply Forall_cons in Hall as [Hh Ht].
    destruct (decide (k = k')) as [->|Hne].
    + constructor; done.
    + constructor; [done|]. apply IH; [done|].
      unfold keys in Hin. simpl in Hin. apply elem_of_cons in Hin. naive_solver.
  - rewrite set_fresh by done. split.
    + unfold keys. rewrite fmap_app. simpl. apply NoDup_app. split_and!; [done| |].
      * intros x Hx ->%list_elem_of_singleton. done.
      * apply NoDup_singleton.
    + apply Forall_app. split; [done|]. by constructor.
Qed.

Lemma keyed_by_nil key : keyed_by key ([] : dict V).
Proof. split; [apply NoDup_nil_2 | constructor]. Qed.

Lemma keyed_by_fold key (l : list V) d :
  keyed_by key d → keyed_by key (fold_left (fun d x => set (key x) x d) l d).
Proof.
  revert d. induction l as [|x l IH]; simpl; [done|].
  intros d Hd. apply IH. by apply keyed_by_set.
Qed.

Lemma keyed_by_of_list key (l : list V) : keyed_by key (of_list key l).
Proof. apply keyed_by_fold, keyed_by_nil. Qed.

Lemma fold_set_values key d1 d2 :
  keyed_by key (d1 ++ d2) →
  fold_left (fun d x => set (key x) x d) (values d2) d1 = d1 ++ d2.
Proof.
  revert d1. induction d2 as [|[k v] d2 IH]; intros d1 Hk; simpl.
  - by rewrite app_nil_r.
  - destruct Hk as [Hnd Hall].
    assert (key v = k) as Hkv.
    { rewrite Forall_app, Forall_cons in Hall. naive_solver. }
    assert (k ∉ keys d1) as Hfresh.
    { unfold keys in *. rewrite fmap_app in Hnd. simpl in Hnd.
      apply NoDup_app in Hnd as (_ & Hd & _). intros Hin.
      apply (Hd k Hin). left. }
    rewrite Hkv, set_fresh by done.
    rewrite IH; rewrite <- app_assoc; simpl; [done | by split].
Qed.

Lemma of_list_values key d : keyed_by key d → of_list key (values d) = d.
Proof. intros Hd. unfold of_list. by rewrite fold_set_values. Qed.

End dict_facts.

(** ** Sorting *)

Section sort_facts.
Context {A : Type} (lt : A → A → bool).

Lemma insert_desc_perm x l : insert_desc lt x l ≡ₚ x :: l.
Proof.
  induction l as [|y l IH]; simpl; [done|].
  destruct (lt x y); [|done].
  rewrite IH. apply Permutation_swap.
Qed.

Lemma sort_desc_perm l : sort_desc lt l ≡ₚ l.
Proof.
  induction l as [|x l IH]; simpl; [done|].
  rewrite insert_desc_perm. by f_equiv.
Qed.

Lemma elem_of_sort_desc x l : x ∈ sort_desc lt l ↔ x ∈ l.
Proof. by rewrite sort_desc_perm. Qed.

(** On a domain [P] where [lt] is asymmetric and its complement is
    transitive, the result is in descending order: no element is below a
    later one. *)
Context (P : A → Prop).
Hypothesis lt_asym : ∀ a b, P a → P b → lt a b = true → lt b a = false.
Hypothesis ge_trans :
  ∀ a b c, P a → P b → P c → lt a b = false → lt b c = false → lt a c = false.

Lemma insert_desc_descending x l :
  P x → Forall P l → descending lt l → descending lt (insert_desc lt x l).
Proof.
  intros Hx. induction l as [|y l IH]; simpl; intros HP Hs.
  - repeat constructor.
  - apply Forall_cons in HP as [Hy HP].
    apply StronglySorted_inv in Hs as [Hs Hyl].
    destruct (lt x y) eqn:Hxy.
    + constructor; [by apply IH|].
      rewrite insert_desc_perm. constructor; [by apply lt_asym|done].
    + constructor; [by constructor|].
      constructor; [done|].
      rewrite Forall_forall in Hyl, HP. apply Forall_forall.
      intros b Hb. apply (ge_trans x y b); auto.
Qed.

Lemma sort_desc_descending l : Forall P l → descending lt (sort_desc lt l).
Proof.
  induction l as [|x l IH]; simpl; intros HP.
  - constructor.
  - apply Forall_cons in HP as [Hx HP].
    apply insert_desc_descending; [done| |by apply IH].
    by rewrite sort_desc_perm.
Qed.

End sort_facts.

Lemma descending_before {A} (lt : A → A → bool) (l : list A) a b :
  descending lt l → a ∈ l → b ∈ l → lt b a = true →
  ∃ l1 l2, l = l1 ++ a :: l2 ∧ b ∉ l1.
Proof.
  intros Hs Ha Hb Hlt.
  apply list_elem_of_split in Ha as (l1 & l2 & ->).
  exists l1, l2. split; [done|]. intros Hin.
  assert (lt b a = false) as Hge; [|congruence].
  apply (StronglySorted_app_1_elem_of _ _ _ _ _ Hs); [done|left].
Qed.

Lemma stations_sorted (l : list Station) :
  descending (fun a b => required_skill_level a <? required_skill_level b)
    (sort_desc (fun a b => required_skill_level a <? required_skill_level b) l).
Proof.
  apply (sort_desc_descending _ (fun _ => True)).
  - intros a b _ _. rewrite Z.ltb_lt, Z.ltb_ge. lia.
  - intros a b c _ _ _. rewrite !Z.ltb_ge. lia.
  - by apply Forall_forall.
Qed.

Lemma pair_ltb_asym a b : pair_ltb a b = true → pair_ltb b a = false.
Proof.
  unfold pair_ltb.
  rewrite orb_true_iff, orb_false_iff, andb_true_iff, andb_false_iff.
  rewrite !Z.ltb_lt, !Z.ltb_ge, Z.eqb_eq, Z.eqb_neq. lia.
Qed.

Lemma pair_ltb_trans a b c :
  pair_ltb a b = false → pair_ltb b c = false → pair_ltb a c = false.
Proof.
  unfold pair_ltb.
  rewrite !orb_false_iff, !andb_false_iff.
  rewrite !Z.ltb_ge, !Z.eqb_neq. lia.
Qed.

(** ** The candidate list *)

Lemma candidate_Some emps st emp_id c :
  candidate emps st emp_id = Some c ↔
  ∃ e, get emp_id emps = Some e ∧ qualifies e st
       ∧ c = (emp_id, get_competency e (s_id st), certification_level e).
Proof.
  unfold candidate, qualifies. destruct (get emp_id emps) as [e|]; simpl.
  - destruct (Z.leb_spec (required_certification st) (certification_level e));
      destruct (Z.leb_spec (required_skill_level st)
                  (get_competency e (s_id st))); simpl.
    all: split; [intros [= <-]; eauto 10 | intros (e' & [= <-] & [? ?] & ->)].
    all: first [done | lia].
  - split; [done | by intros (? & ? & _)].
Qed.

Lemma collect_qualified_ok emps st ids :
  (∀ i, i ∈ ids → i ∈ keys emps) →
  collect_qualified emps st ids = Ok (omap (candidate emps st) ids).
Proof.
  induction ids as [|i ids IH]; intros Hk; simpl; [done|].
  assert (i ∈ keys emps) as Hi by (apply Hk; left).
  apply get_is_Some in Hi as [e He].
  unfold getitem, candidate. rewrite He. simpl.
  rewrite IH by (intros; apply Hk; by right). simpl.
  by destruct (_ && _).
Qed.

Lemma collect_qualified_raises emps st ids :
  (∃ i, i ∈ ids ∧ i ∉ keys emps) →
  ∃ k, collect_qualified emps st ids = Raise (KeyError k).
Proof.
  induction ids as [|i ids IH]; intros (j & Hj & Hn).
  - by apply elem_of_nil in Hj.
  - simpl. unfold getitem. destruct (get i emps) as [e|] eqn:He; simpl.
    + destruct IH as [k ->].
      { apply elem_of_cons in Hj as [->|Hj]; [|eauto].
        apply get_None in Hn. congruence. }
      eauto.
    + eauto.
Qed.

Lemma rank_perm w rs st q : rank w rs st q ≡ₚ q.*1.*1.
Proof.
  unfold rank. destruct rs as [stats|].
  - rewrite sort_desc_perm. rewrite <- list_fmap_compose.
    rewrite <- list_fmap_compose. done.
  - rewrite sort_desc_perm. by rewrite <- list_fmap_compose.
Qed.

Lemma omap_candidate_ids emps st ids :
  (omap (candidate emps st) ids).*1.*1
  = filter (fun i => is_Some (candidate emps st i)) ids.
Proof.
  induction ids as [|i ids IH]; [done|].
  csimpl. rewrite filter_cons. destruct (candidate emps st i) as [c|] eqn:Hc.
  - rewrite decide_True by eauto. csimpl. rewrite IH. f_equal.
    apply candidate_Some in Hc as (e & _ & _ & ->). done.
  - rewrite decide_False by (by intros [? ?]). done.
Qed.

(** What [_get_qualified_employees] returns when every available id is a
    known employee: the available employees that pass the gate, each once. *)
Lemma get_qualified_ok s st rs :
  (∀ e, e ∈ available_employees s → e ∈ keys (employees s)) →
  ∃ q, _get_qualified_employees s st rs = Ok q
       ∧ NoDup q
       ∧ ∀ i, i ∈ q ↔ i ∈ available_employees s
                        ∧ ∃ e, get i (employees s) = Some e ∧ qualifies e st.
Proof.
  intros Hk. unfold _get_qualified_employees.
  rewrite collect_qualified_ok by (intros i; rewrite elem_of_elements; auto).
  simpl. eexists. split; [done|]. split.
  - rewrite rank_perm, omap_candidate_ids.
    apply NoDup_filter, NoDup_elements.
  - intros i. rewrite rank_perm, omap_candidate_ids.
    rewrite list_elem_of_filter, elem_of_elements.
    split.
    + intros [[c Hc] Hi]. split; [done|].
      apply candidate_Some in Hc as (e & ? & ? & _). eauto.
    + intros [Hi (e & He & Hq)]. split; [|done].
      eexists. apply candidate_Some. eauto.
Qed.

Lemma fill_slots_take q n acc av :
  fill_slots q n acc av
  = (acc ++ take (Z.to_nat n) q, av ∖ list_to_set (take (Z.to_nat n) q)).
Proof.
  revert n acc av. induction q as [|e q IH]; intros n acc av; simpl.
  - rewrite take_nil, app_nil_r. simpl. f_equal. set_solver.
  - destruct (n <=? 0) eqn:Hn.
    + apply Z.leb_le in Hn. replace (Z.to_nat n) with O by lia.
      simpl. rewrite app_nil_r. f_equal. set_solver.
    + apply Z.leb_gt in Hn.
      replace (Z.to_nat n) with (S (Z.to_nat (n - 1))) by lia.
      rewrite IH. simpl. rewrite <- app_assoc. simpl. f_equal. set_solver.
Qed.

(** ** The invariant of the allocator *)

(** Storing at [sid] an assignment whose employees either were at [sid]
    already or are qualified employees taken out of the available set. *)
Lemma Inv_assign s sid st a' av' :
  Inv s →
  get sid (stations s) = Some st →
  station_id a' = sid →
  NoDup (assigned_employee_ids a') →
  av' ⊆ available_employees s →
  (∀ e, e ∈ assigned_employee_ids a' → e ∉ av') →
  (∀ e, e ∈ assigned_employee_ids a' →
     (∃ a, get sid (assignments s) = Some a ∧ e ∈ assigned_employee_ids a)
     ∨ (e ∈ available_employees s
        ∧ ∃ emp, get e (employees s) = Some emp ∧ qualifies emp st)) →
  Inv (set_available av' (update_assignment sid a' s)).
Proof.
  intros [Hwf Hcs] Hst Hid Hnd Hsub Hout Hsrc.
  destruct Hwf as [Hws Hwe Hwa Hak Hvk], Hcs as [Hn Hd Hu Hq].
  split; constructor; simpl.
  - done.
  - done.
  - by apply keyed_by_set.
  - intros k [->|Hk]%keys_set; [|auto]. apply get_is_Some. eauto.
  - intros e He. apply Hvk. set_solver.
  - intros k a. destruct (decide (sid = k)) as [<-|Hne].
    + rewrite get_set_eq. by intros [= <-].
    + rewrite get_set_ne by done. eauto.
  - intros k1 k2 a1 a2 e.
    destruct (decide (sid = k1)) as [<-|H1], (decide (sid = k2)) as [<-|H2];
      rewrite ?get_set_eq, ?get_set_ne by done; [done| | |by eauto].
    + intros [= <-] H2' He1 He2.
      destruct (Hsrc e He1) as [(a & Ha & Hea)|[Hav _]]; [by eauto|].
      by destruct (Hu _ _ _ H2' He2).
    + intros H1' [= <-] He1 He2.
      destruct (Hsrc e He2) as [(a & Ha & Hea)|[Hav _]]; [by eauto|].
      by destruct (Hu _ _ _ H1' He1).
  - intros k a e. destruct (decide (sid = k)) as [<-|Hne].
    + rewrite get_set_eq. intros [= <-]. auto.
    + rewrite get_set_ne by done. intros Ha He Hin.
      apply (Hu _ _ _ Ha He). set_solver.
  - intros k a e. destruct (decide (sid = k)) as [<-|Hne].
    + rewrite get_set_eq. intros [= <-] He.
      destruct (Hsrc e He) as [(a & Ha & Hea)|[Hav (emp & Hemp & Hqual)]].
      * eauto.
      * eauto.
    + rewrite get_set_ne by done. eauto.
Qed.

Lemma keyed_by_id_of {V} (key : V → string) (d : dict V) k v :
  keyed_by key d → get k d = Some v → key v = k.
Proof.
  intros [_ Hall] Hg. apply get_Some_elem in Hg.
  rewrite Forall_forall in Hall. apply (Hall _ Hg).
Qed.

Lemma keyed_by_get_value {V} (key : V → string) (d : dict V) v :
  keyed_by key d → v ∈ values d → get (key v) d = Some v.
Proof.
  intros [Hnd Hall] Hv. unfold values in Hv.
  apply list_elem_of_fmap in Hv as ([k v'] & -> & Hin). simpl.
  rewrite Forall_forall in Hall. pose proof (Hall _ Hin) as Hk.
  simpl in Hk. rewrite Hk. by apply elem_get.
Qed.

(** One station of [generate_schedule]: the call returns, and what it
    stores is the first [required_headcount] candidates. *)
Lemma staff_station_spec rs st s :
  Inv s → st ∈ values (stations s) →
  ∃ q av',
    let chosen := take (Z.to_nat (required_headcount st)) q in
    let unfilled := required_headcount st - Z.of_nat (length chosen) in
    _get_qualified_employees s st rs = Ok q
    ∧ staff_station rs st s =
        (Ok (),
         set_assignments
           (set (s_id st)
                (mkAssignment (s_id st) chosen (unfilled =? 0) unfilled)
                (assignments s))
           (set_available av' s))
    ∧ av' = available_employees s ∖ list_to_set chosen
    ∧ Inv (staff_station rs st s).2.
Proof.
  intros HI Hst.
  destruct (get_qualified_ok s st rs) as (q & Hq & Hnd & Hmem).
  { apply HI. }
  exists q, (available_employees s ∖ list_to_set (take (Z.to_nat (required_headcount st)) q)).
  simpl. split; [done|].
  assert (staff_station rs st s = (Ok (),
         set_assignments
           (set (s_id st)
                (mkAssignment (s_id st)
                   (take (Z.to_nat (required_headcount st)) q)
                   (required_headcount st
                    - Z.of_nat (length (take (Z.to_nat (required_headcount st)) q)) =? 0)
                   (required_headcount st
                    - Z.of_nat (length (take (Z.to_nat (required_headcount st)) q))))
                (assignments s))
           (set_available
              (available_employees s
               ∖ list_to_set (take (Z.to_nat (required_headcount st)) q)) s)))
    as Heq.
  { unfold staff_station. rewrite Hq, fill_slots_take. done. }
  split; [done|]. split; [done|].
  rewrite Heq. simpl.
  pose proof (keyed_by_get_value s_id _ _ (wf_stations _ (proj1 HI)) Hst) as Hget.
  apply (Inv_assign s (s_id st) st); simpl; try done.
  - eapply sublist_NoDup; [done|apply sublist_take].
  - set_solver.
  - intros e He. rewrite elem_of_difference, elem_of_list_to_set. tauto.
  - intros e He%subseteq_take. right. by apply Hmem.
Qed.

(** ** [generate_schedule] *)

Lemma staff_station_frame rs st s :
  let s' := (staff_station rs st s).2 in
  stations s' = stations s ∧ employees s' = employees s
  ∧ absent_employees s' = absent_employees s
  ∧ assignment_logs s' = assignment_logs s ∧ scenario s' = scenario s.
Proof.
  unfold staff_station. destruct (_get_qualified_employees s st rs); [|done].
  by destruct (fill_slots _ _ _ _).
Qed.

Lemma staff_stations_spec rs l s :
  Inv s → l ⊆ values (stations s) → NoDup (s_id <$> l) →
  ∃ s', staff_stations rs l s = (Ok (), s')
    ∧ Inv s'
    ∧ stations s' = stations s ∧ employees s' = employees s
    ∧ absent_employees s' = absent_employees s
    ∧ assignment_logs s' = assignment_logs s ∧ scenario s' = scenario s
    ∧ (∀ k, k ∉ s_id <$> l → get k (assignments s') = get k (assignments s))
    ∧ (∀ st, st ∈ l →
         ∃ a, get (s_id st) (assignments s') = Some a ∧ staffed_as st a).
Proof.
  revert s. induction l as [|st l IH]; intros s HI Hsub Hnd.
  - exists s. simpl. split_and!; try done. by intros st ?%elem_of_nil.
  - simpl. rewrite fmap_cons in Hnd. apply NoDup_cons in Hnd as [Hfresh Hnd].
    destruct (staff_station_spec rs st s HI) as (q & av' & _ & Heq & _ & HI').
    { apply Hsub. left. }
    pose proof (staff_station_frame rs st s) as Hfr. simpl in Hfr.
    rewrite Heq in HI', Hfr |- *. simpl in HI', Hfr.
    destruct Hfr as (Hs & He & Hab & Hlg & Hsc).
    edestruct (IH _ HI') as (s' & Hrun & HI'' & Hs' & He' & Hab' & Hlg' & Hsc'
                              & Hframe & Hdone).
    { simpl. intros x Hx. apply Hsub. by right. }
    { done. }
    exists s'. split; [done|]. split; [done|].
    simpl in *. split_and!; try congruence.
    + intros k Hk. rewrite not_elem_of_cons in Hk. destruct Hk as [Hne Hk].
      rewrite Hframe by done. by rewrite get_set_ne.
    + intros st' [->|Hin]%elem_of_cons; [|by apply Hdone].
      rewrite Hframe by done. rewrite get_set_eq.
      eexists. split; [done|]. unfold staffed_as. simpl.
      split_and!; try done.
      rewrite length_take. lia.
Qed.

(** The only exception [strptime] raises is [ValueError], which the
    [try] of [_build_rotation_stats] catches. *)
Lemma strptime_raises_ValueError str e :
  strptime_ymd str = Raise e → ∃ msg, e = ValueError msg.
Proof.
  unfold strptime_ymd. intros H.
  repeat case_match; simplify_eq; eauto.
Qed.

Lemma record_log_total today cutoff_str acc log :
  ∃ acc', record_log today cutoff_str acc log = Ok acc'.
Proof.
  unfold record_log. destruct (str_ltb _ _); [eauto|].
  destruct (strptime_ymd (log_date log)) as [d|e] eqn:Hp; [eauto|].
  apply strptime_raises_ValueError in Hp as [msg ->]. eauto.
Qed.

Lemma build_rotation_stats_total today window logs :
  ∃ stats, _build_rotation_stats today window logs = Ok stats.
Proof.
  unfold _build_rotation_stats.
  generalize (∅ : stats_map) as acc.
  induction logs as [|log logs IH]; intros acc; simpl; [eauto|].
  destruct (record_log_total today (strftime_ymd (today - window)) acc log)
    as [acc' ->].
  apply IH.
Qed.

Lemma reset_for_generate_Inv w s :
  keyed_by s_id (stations s) → keyed_by e_id (employees s) →
  Inv (reset_for_generate w s).
Proof.
  intros Hs He. unfold reset_for_generate.
  split; constructor; destruct w; simpl; try done.
  all: try apply keyed_by_nil.
  all: try (by intros k ?%elem_of_nil).
  all: intros e; set_solver.
Qed.

Lemma keyed_by_values_ids {V} (key : V → string) (d : dict V) :
  keyed_by key d → key <$> values d = keys d.
Proof.
  intros [_ Hall]. unfold values, keys.
  induction Hall as [|[k v] d Hk Hall IH]; csimpl; [done|].
  simpl in Hk. by f_equal.
Qed.

Lemma generate_schedule_unfold today w s :
  generate_schedule today w s =
  let s0 := reset_for_generate w s in
  match stats_for today (assignment_logs s0) with
  | Raise e => (Raise e, s0)
  | Ok rs =>
      match staff_stations rs (sorted_stations s0) s0 with
      | (Ok _, s') => (Ok (assignments s'), s')
      | (Raise e, s') => (Raise e, s')
      end
  end.
Proof. reflexivity. Qed.

Lemma stats_for_total today logs : ∃ rs, stats_for today logs = Ok rs.
Proof.
  destruct logs as [|l logs]; simpl; [eauto|].
  destruct (build_rotation_stats_total today 30 (l :: logs)) as [st Hst].
  rewrite Hst. simpl. eauto.
Qed.

Lemma reset_for_generate_frame w s :
  let s0 := reset_for_generate w s in
  stations s0 = stations s ∧ employees s0 = employees s
  ∧ absent_employees s0 = absent_employees s
  ∧ assignment_logs s0 = assignment_logs s
  ∧ scenario s0 = default (scenario s) w
  ∧ assignments s0 = [].
Proof. by destruct w. Qed.

(** [generate_schedule] returns on every state whose two entity
    dictionaries are keyed by id, and stores one assignment per station. *)
Lemma generate_schedule_spec today w s :
  keyed_by s_id (stations s) → keyed_by e_id (employees s) →
  ∃ s', generate_schedule today w s = (Ok (assignments s'), s')
    ∧ Inv s'
    ∧ stations s' = stations s ∧ employees s' = employees s
    ∧ absent_employees s' = absent_employees s
    ∧ assignment_logs s' = assignment_logs s
    ∧ scenario s' = default (scenario s) w
    ∧ (∀ k, k ∉ keys (stations s) → get k (assignments s') = None)
    ∧ (∀ st, st ∈ values (stations s) →
         ∃ a, get (s_id st) (assignments s') = Some a ∧ staffed_as st a).
Proof.
  intros Hs He. rewrite generate_schedule_unfold. cbv zeta.
  pose proof (reset_for_generate_Inv w s Hs He) as HI.
  pose proof (reset_for_generate_frame w s) as (Es & Ee & Eab & Elg & Esc & Eas).
  destruct (stats_for_total today (assignment_logs (reset_for_generate w s)))
    as [rs ->].
  destruct (staff_stations_spec rs (sorted_stations (reset_for_generate w s))
              (reset_for_generate w s) HI)
    as (s' & Hrun & HI' & Hs' & He' & Hab' & Hlg' & Hsc' & Hframe & Hdone).
  { intros x. unfold sorted_stations. by rewrite elem_of_sort_desc. }
  { unfold sorted_stations. rewrite sort_desc_perm.
    rewrite Es, (keyed_by_values_ids s_id) by done. apply Hs. }
  rewrite Hrun. exists s'. split; [done|]. split; [done|].
  split_and!; try congruence.
  - intros k Hk. rewrite Hframe, Eas; [done|].
    unfold sorted_stations. rewrite sort_desc_perm.
    rewrite Es, (keyed_by_values_ids s_id) by done. done.
  - intros st Hst. apply Hdone. unfold sorted_stations.
    rewrite elem_of_sort_desc. by rewrite Es.
Qed.

(** ** [rebalance_schedule] and [handle_absence] *)

Lemma same_entities_refl s : same_entities s s.
Proof. by repeat split. Qed.

Lemma same_entities_trans s1 s2 s3 :
  same_entities s1 s2 → same_entities s2 s3 → same_entities s1 s3.
Proof. unfold same_entities. intuition congruence. Qed.

Lemma the_assignment_get sid s a :
  get sid (assignments s) = Some a → the_assignment sid s = a.
Proof. unfold the_assignment. by intros ->. Qed.

Lemma fill_gaps_spec fuel st sid s :
  Inv s → get sid (stations s) = Some st → is_Some (get sid (assignments s)) →
  ∃ s', fill_gaps fuel st sid s = (Ok (), s')
    ∧ Inv s' ∧ same_entities s s'
    ∧ absent_employees s' = absent_employees s
    ∧ is_Some (get sid (assignments s'))
    ∧ ((Z.to_nat (unfilled_slots (the_assignment sid s)) ≤ fuel)%nat →
       unfilled_slots (the_assignment sid s') ≤ 0
       ∨ _get_qualified_employees s' st None = Ok []).
Proof.
  revert s. induction fuel as [|fuel IH]; intros s HI Hst [a Ha]; simpl.
  - exists s. split_and!; eauto using same_entities_refl. intros Hf. left. lia.
  - rewrite (the_assignment_get _ _ _ Ha).
    destruct (Z.ltb_spec 0 (unfilled_slots a)) as [Hpos|Hle].
    2:{ exists s. split_and!; eauto using same_entities_refl.
        rewrite (the_assignment_get _ _ _ Ha). auto. }
    destruct (get_qualified_ok s st None) as (q & Hq & Hnd & Hmem); [apply HI|].
    rewrite Hq. destruct q as [|emp q].
    { exists s. split_and!; eauto using same_entities_refl. }
    assert (emp ∈ available_employees s
            ∧ ∃ e, get emp (employees s) = Some e ∧ qualifies e st) as [Hav Hqual].
    { apply Hmem. left. }
    assert (emp ∉ assigned_employee_ids a) as Hfresh.
    { intros Hin. by destruct (cs_unavailable _ (proj2 HI) _ _ _ Ha Hin). }
    match goal with
    | |- context [fill_gaps fuel st sid ?s1] => set (s1' := s1)
    end.
    assert (Inv s1') as HI1.
    { apply (Inv_assign s sid st); simpl; try done.
      - apply (keyed_by_id_of station_id _ _ _ (wf_assignments _ (proj1 HI)) Ha).
      - apply NoDup_app. split_and!; [by apply (cs_nodup _ (proj2 HI) _ _ Ha)| |].
        + intros x Hx ->%list_elem_of_singleton. done.
        + apply NoDup_singleton.
      - set_solver.
      - intros e [He| ->%list_elem_of_singleton]%elem_of_app; [|set_solver].
        intros Hin. apply (cs_unavailable _ (proj2 HI) _ _ _ Ha He). set_solver.
      - intros e [He| ->%list_elem_of_singleton]%elem_of_app; [left; eauto|].
        right. done. }
    destruct (IH s1' HI1) as (s' & Hrun & HI' & Hsame & Hab & Hsome & Hexit).
    { done. }
    { subst s1'. simpl. rewrite get_set_eq. eauto. }
    exists s'. split; [done|]. split; [done|]. split_and!; try done.
    intros Hf. apply Hexit. subst s1'. unfold the_assignment. simpl.
    rewrite get_set_eq. simpl. lia.
Qed.

Lemma Inv_restage s sid a a' :
  Inv s → get sid (assignments s) = Some a → is_Some (get sid (stations s)) →
  station_id a' = station_id a →
  assigned_employee_ids a' = assigned_employee_ids a →
  Inv (update_assignment sid a' s).
Proof.
  intros HI Ha [st Hst] Hid Hids.
  replace (update_assignment sid a' s)
    with (set_available (available_employees s) (update_assignment sid a' s))
    by (by destruct s).
  apply (Inv_assign s sid st); try done.
  - rewrite Hid.
    apply (keyed_by_id_of station_id _ _ _ (wf_assignments _ (proj1 HI)) Ha).
  - rewrite Hids. apply (cs_nodup _ (proj2 HI) _ _ Ha).
  - intros e. rewrite Hids. apply (cs_unavailable _ (proj2 HI) _ _ _ Ha).
  - intros e. rewrite Hids. left. eauto.
Qed.

Lemma Inv_new_assignment s sid :
  Inv s → is_Some (get sid (stations s)) →
  Inv (update_assignment sid (new_Assignment sid) s).
Proof.
  intros HI [st Hst].
  replace (update_assignment sid (new_Assignment sid) s)
    with (set_available (available_employees s)
            (update_assignment sid (new_Assignment sid) s))
    by (by destruct s).
  apply (Inv_assign s sid st); simpl; try done.
  - apply NoDup_nil_2.
  - by intros e ?%elem_of_nil.
  - by intros e ?%elem_of_nil.
Qed.

Lemma rebalance_unknown sid s :
  get sid (stations s) = None →
  rebalance_schedule sid s
  = (Raise (ValueError ("Unknown station: " +:+ sid)), s).
Proof. unfold rebalance_schedule. by intros ->. Qed.

Lemma rebalance_known sid s :
  Inv s → is_Some (get sid (stations s)) →
  ∃ b s', rebalance_schedule sid s = (Ok b, s')
    ∧ Inv s' ∧ same_entities s s'
    ∧ absent_employees s' = absent_employees s.
Proof.
  intros HI [st Hst]. unfold rebalance_schedule. rewrite Hst.
  set (s0 := match get sid (assignments s) with
             | Some _ => s
             | None => update_assignment sid (new_Assignment sid) s
             end).
  assert (Inv s0 ∧ same_entities s s0
          ∧ absent_employees s0 = absent_employees s
          ∧ is_Some (get sid (assignments s0))) as (HI0 & Hsame0 & Hab0 & Hsome0).
  { subst s0. destruct (get sid (assignments s)) as [a|] eqn:Ha.
    - split_and!; eauto using same_entities_refl.
    - split_and!; [apply Inv_new_assignment; eauto| |done|].
      + by repeat split.
      + simpl. rewrite get_set_eq. eauto. }
  assert (get sid (stations s0) = Some st) as Hst0.
  { destruct Hsame0 as (-> & _). done. }
  destruct (fill_gaps_spec (Z.to_nat (unfilled_slots (the_assignment sid s0)))
              st sid s0 HI0 Hst0 Hsome0)
    as (s1 & Hrun & HI1 & Hsame1 & Hab1 & [a1 Ha1] & _).
  rewrite Hrun. eexists _, _. split; [done|].
  rewrite (the_assignment_get _ _ _ Ha1).
  split_and!.
  - apply (Inv_restage s1 sid a1); try done.
    destruct Hsame1 as (-> & _), Hsame0 as (-> & _). eauto.
  - eapply same_entities_trans; [done|].
    eapply same_entities_trans; [done|]. by repeat split.
  - simpl. congruence.
Qed.

(** [rebalance_schedule] leaves the allocator's invariant in place, whether
    it returns or raises. *)
Lemma rebalance_Inv sid s : Inv s → Inv (rebalance_schedule sid s).2.
Proof.
  intros HI. destruct (get sid (stations s)) as [st|] eqn:Hst.
  - destruct (rebalance_known sid s HI) as (b & s' & -> & HI' & _); eauto.
  - by rewrite rebalance_unknown.
Qed.

Lemma rebalance_each_spec sids s :
  Inv s → (∀ k, k ∈ sids → k ∈ keys (stations s)) →
  ∃ s', rebalance_each sids s = (Ok (), s')
    ∧ Inv s' ∧ same_entities s s'
    ∧ absent_employees s' = absent_employees s.
Proof.
  revert s. induction sids as [|sid sids IH]; intros s HI Hk; simpl.
  - exists s. eauto using same_entities_refl.
  - destruct (rebalance_known sid s HI) as (b & s1 & -> & HI1 & Hsame1 & Hab1).
    { apply get_is_Some, Hk. left. }
    destruct (IH s1 HI1) as (s' & -> & HI' & Hsame' & Hab').
    { intros k Hin. destruct Hsame1 as (-> & _). apply Hk. by right. }
    exists s'. split_and!; try done.
    + by eapply same_entities_trans.
    + congruence.
Qed.

Lemma get_fmap_values {V} (f : V → V) k (d : dict V) :
  get k (prod_map id f <$> d) = f <$> get k d.
Proof.
  induction d as [|[k' v] d IH]; csimpl; [done|].
  destruct (decide (k = k')); done.
Qed.

Lemma keys_fmap_values {V} (f : V → V) (d : dict V) :
  keys (prod_map id f <$> d) = keys d.
Proof.
  unfold keys. rewrite <- list_fmap_compose. by apply list_fmap_ext.
Qed.

Lemma remove_first_sublist x l : remove_first x l `sublist_of` l.
Proof.
  induction l as [|y l IH]; simpl; [done|].
  destruct (decide (x = y)); [by apply sublist_cons | by apply sublist_skip].
Qed.

Lemma unassign_sublist e a :
  assigned_employee_ids (unassign e a) `sublist_of` assigned_employee_ids a.
Proof.
  unfold unassign. case_bool_decide; simpl; [apply remove_first_sublist|done].
Qed.

Lemma unassign_station_id e a : station_id (unassign e a) = station_id a.
Proof. unfold unassign. by case_bool_decide. Qed.

Lemma mark_absent_Inv e s : Inv s → Inv (mark_absent e s).
Proof.
  intros [[Hws Hwe [Hnd Hall] Hak Hvk] [Hn Hd Hu Hq]].
  split; constructor; simpl; try done.
  - split; [by rewrite keys_fmap_values|].
    apply Forall_fmap. eapply Forall_impl; [done|].
    intros [k a] Hk. simpl in *. by rewrite unassign_station_id.
  - intros k. rewrite keys_fmap_values. auto.
  - intros x Hx. apply Hvk. set_solver.
  - intros k a. rewrite get_fmap_values.
    intros (a0 & Ha0 & ->)%fmap_Some.
    eapply sublist_NoDup; [by eapply Hn | apply unassign_sublist].
  - intros k1 k2 a1 a2 x. rewrite !get_fmap_values.
    intros (b1 & Hb1 & ->)%fmap_Some (b2 & Hb2 & ->)%fmap_Some H1 H2.
    apply (Hd k1 k2 b1 b2 x Hb1 Hb2).
    + exact (elem_of_sublist _ _ _ H1 (unassign_sublist _ _)).
    + exact (elem_of_sublist _ _ _ H2 (unassign_sublist _ _)).
  - intros k a x. rewrite get_fmap_values.
    intros (b & Hb & ->)%fmap_Some Hx Hin.
    apply (Hu k b x Hb); [|set_solver].
    eapply elem_of_sublist; [done|apply unassign_sublist].
  - intros k a x. rewrite get_fmap_values.
    intros (b & Hb & ->)%fmap_Some Hx.
    apply (Hq k b x Hb). eapply elem_of_sublist; [done|apply unassign_sublist].
Qed.

Lemma handle_absence_unknown e s :
  contains e (employees s) = false →
  handle_absence e s = (Raise (ValueError ("Unknown employee: " +:+ e)), s).
Proof. unfold handle_absence. by intros ->. Qed.

Lemma handle_absence_found e s :
  contains e (employees s) = true →
  handle_absence e s =
  match rebalance_each (affected_by e (assignments s)) (mark_absent e s) with
  | (Ok _, s') => (Ok (affected_by e (assignments s)), s')
  | (Raise x, s') => (Raise x, s')
  end.
Proof. unfold handle_absence. by intros ->. Qed.

Lemma affected_by_keys e (d : dict Assignment) k :
  k ∈ affected_by e d → k ∈ keys d.
Proof.
  unfold affected_by, keys.
  intros ([k' a] & -> & Hin%list_elem_of_filter)%list_elem_of_fmap.
  apply list_elem_of_fmap. exists (k', a). tauto.
Qed.

Lemma handle_absence_known e s :
  Inv s → e ∈ keys (employees s) →
  ∃ s', handle_absence e s = (Ok (affected_by e (assignments s)), s')
    ∧ Inv s' ∧ same_entities s s'
    ∧ absent_employees s' = absent_employees s ∪ {[e]}.
Proof.
  intros HI He. rewrite handle_absence_found by by apply contains_true.
  destruct (rebalance_each_spec (affected_by e (assignments s)) (mark_absent e s))
    as (s' & -> & HI' & Hsame & Hab).
  { by apply mark_absent_Inv. }
  { intros k Hk%affected_by_keys. simpl. by apply (wf_assigned_known _ (proj1 HI)). }
  exists s'. split_and!; try done.
Qed.

Lemma handle_absence_Inv e s : Inv s → Inv (handle_absence e s).2.
Proof.
  intros HI. destruct (contains e (employees s)) eqn:Hc.
  - apply contains_true in Hc.
    by destruct (handle_absence_known e s HI Hc) as (s' & -> & ? & _).
  - by rewrite handle_absence_unknown.
Qed.

Lemma init_Inv sts emps : Inv (init sts emps).
Proof.
  split; constructor; simpl; try apply keyed_by_of_list; try apply keyed_by_nil.
  all: try (by intros k ?%elem_of_nil).
  all: try done.
  intros e. by rewrite elem_of_list_to_set.
Qed.

Lemma set_logs_Inv logs s : Inv s → Inv (set_logs logs s).
Proof. intros [[] []]. by split; constructor. Qed.

(** Every reachable state satisfies the invariant. *)
Lemma reachable_Inv s : reachable s → Inv s.
Proof.
  induction 1 as [sts emps|s logs _ IH|s today w _ IH|s e _ IH|s sid _ IH].
  - apply init_Inv.
  - by apply set_logs_Inv.
  - destruct (generate_schedule_spec today w s) as (s' & -> & HI & _);
      [apply IH..|done].
  - by apply handle_absence_Inv.
  - by apply rebalance_Inv.
Qed.

(** ** The claims about the allocator *)

(** C1.  On every scheduler whose stations and employees are dictionaries
    keyed by id, [generate_schedule] returns, and for every station (of a
    required headcount that is not negative, as the data model has it) the
    assignment it stores holds at most [required_headcount] employees, has
    [unfilled_slots = required_headcount - len(assigned_employee_ids)],
    and is marked fully staffed exactly when [unfilled_slots] is 0. *)
Theorem generate_schedule_fills_within_headcount today w s k st :
  keyed_by s_id (stations s) → keyed_by e_id (employees s) →
  get k (stations s) = Some st →
  0 ≤ required_headcount st →
  ∃ s' a,
    generate_schedule today w s = (Ok (assignments s'), s')
    ∧ get k (assignments s') = Some a
    ∧ Z.of_nat (length (assigned_employee_ids a)) ≤ required_headcount st
    ∧ unfilled_slots a
      = required_headcount st - Z.of_nat (length (assigned_employee_ids a))
    ∧ (is_fully_staffed a = true ↔ unfilled_slots a = 0).
Proof.
  intros Hs He Hst Hpos.
  destruct (generate_schedule_spec today w s Hs He)
    as (s' & Hrun & _ & _ & _ & _ & _ & _ & _ & Hdone).
  destruct (Hdone st) as (a & Ha & Hid & Hun & Hfull & Hlen).
  { unfold values. apply list_elem_of_fmap. exists (k, st).
    split; [done|]. by apply get_Some_elem. }
  rewrite (keyed_by_id_of s_id _ _ _ Hs Hst) in Ha.
  exists s', a. split_and!; try done.
  - lia.
  - rewrite Hfull. apply Z.eqb_eq.
Qed.

(** C2.  In every reachable state no assigned list holds an employee id
    twice, and no employee id is in the lists of two stations. *)
Theorem no_employee_assigned_twice s :
  reachable s →
  (∀ k a, (k, a) ∈ assignments s → NoDup (assigned_employee_ids a))
  ∧ (∀ k1 a1 k2 a2 e,
       (k1, a1) ∈ assignments s → (k2, a2) ∈ assignments s →
       e ∈ assigned_employee_ids a1 → e ∈ assigned_employee_ids a2 →
       k1 = k2 ∧ a1 = a2).
Proof.
  intros [Hwf Hcs]%reachable_Inv.
  pose proof (proj1 (wf_assignments _ Hwf)) as Hnd.
  split.
  - intros k a Hin. apply (cs_nodup _ Hcs k). by apply elem_get.
  - intros k1 a1 k2 a2 e H1 H2 He1 He2.
    apply elem_get in H1, H2; try done.
    assert (k1 = k2) as -> by (by eapply (cs_disjoint _ Hcs)).
    split; [done|congruence].
Qed.

(** C3.  In every reachable state, so after every [generate_schedule] and
    every [rebalance_schedule], each assigned employee id names an
    employee whose certification level is at least the station's required
    certification and whose competency at the station (0 when not rated)
    is at least the station's required skill level. *)
Theorem assigned_employees_pass_the_gate s :
  reachable s →
  ∀ k a e, (k, a) ∈ assignments s → e ∈ assigned_employee_ids a →
    ∃ st emp,
      get k (stations s) = Some st ∧ get e (employees s) = Some emp
      ∧ required_certification st ≤ certification_level emp
      ∧ required_skill_level st ≤ get_competency emp k.
Proof.
  intros [Hwf Hcs]%reachable_Inv k a e Hin He.
  apply elem_get in Hin; [|apply (wf_assignments _ Hwf)].
  destruct (cs_qualified _ Hcs k a e Hin He) as (st & emp & Hst & Hemp & Hc & Hk).
  exists st, emp. split_and!; try done.
  by rewrite <- (keyed_by_id_of s_id _ _ _ (wf_stations _ Hwf) Hst).
Qed.

Lemma generate_schedule_fills_within_headcount_witness :
  keyed_by s_id (stations ex_state) ∧ keyed_by e_id (employees ex_state)
  ∧ get "critical" (stations ex_state) = Some ex_critical
  ∧ 0 ≤ required_headcount ex_critical
  ∧ ∃ s' a,
      generate_schedule 739924 None ex_state = (Ok (assignments s'), s')
      ∧ get "critical" (assignments s') = Some a
      ∧ Z.of_nat (length (assigned_employee_ids a)) ≤ required_headcount ex_critical
      ∧ unfilled_slots a
        = required_headcount ex_critical
          - Z.of_nat (length (assigned_employee_ids a))
      ∧ (is_fully_staffed a = true ↔ unfilled_slots a = 0).
Proof.
  assert (keyed_by s_id (stations ex_state)) as H1.
  { apply (bool_decide_unpack _). vm_compute. exact I. }
  assert (keyed_by e_id (employees ex_state)) as H2.
  { apply (bool_decide_unpack _). vm_compute. exact I. }
  assert (get "critical" (stations ex_state) = Some ex_critical) as H3.
  { vm_compute. reflexivity. }
  assert (0 ≤ required_headcount ex_critical) as H4.
  { simpl. lia. }
  split_and!; try assumption.
  exact (generate_schedule_fills_within_headcount 739924 None ex_state
           "critical" ex_critical H1 H2 H3 H4).
Defined.

(** The data model has [required_headcount >= 1]; [Station] does not
    enforce it.  A station that asks for -1 employees gets none, and its
    [unfilled_slots] is -1. *)
Example ex_negative_headcount :
  (generate_schedule 739924 None
     (init [mkStation "odd" "Odd" 0 (-1) 0] [ex_alice])).1
  = Ok [("odd", mkAssignment "odd" [] false (-1))].
Proof. vm_compute. reflexivity. Qed.

Lemma ex_scheduled_reachable : reachable ex_scheduled.
Proof. apply reach_generate, reach_init. Qed.

Lemma no_employee_assigned_twice_witness :
  reachable ex_scheduled
  ∧ (∀ k a, (k, a) ∈ assignments ex_scheduled →
       NoDup (assigned_employee_ids a))
  ∧ (∀ k1 a1 k2 a2 e,
       (k1, a1) ∈ assignments ex_scheduled →
       (k2, a2) ∈ assignments ex_scheduled →
       e ∈ assigned_employee_ids a1 → e ∈ assigned_employee_ids a2 →
       k1 = k2 ∧ a1 = a2).
Proof.
  assert (reachable ex_scheduled) as H.
  { unfold ex_scheduled, ex_state. apply reach_generate, reach_init. }
  split; [exact H|].
  exact (no_employee_assigned_twice ex_scheduled H).
Defined.

Lemma assigned_employees_pass_the_gate_witness :
  reachable (rebalance_schedule "critical" ex_scheduled).2
  ∧ ∀ k a e,
      (k, a) ∈ assignments (rebalance_schedule "critical" ex_scheduled).2 →
      e ∈ assigned_employee_ids a →
      ∃ st emp,
        get k (stations (rebalance_schedule "critical" ex_scheduled).2) = Some st
        ∧ get e (employees (rebalance_schedule "critical" ex_scheduled).2) = Some emp
        ∧ required_certification st ≤ certification_level emp
        ∧ required_skill_level st ≤ get_competency emp k.
Proof.
  assert (reachable (rebalance_schedule "critical" ex_scheduled).2) as H.
  { unfold ex_scheduled, ex_state.
    apply reach_rebalance, reach_generate, reach_init. }
  split; [exact H|].
  exact (assigned_employees_pass_the_gate _ H).
Defined.

(** ** The claims about unknown ids *)

Lemma is_qualified_total emp_id sid s : ∃ b, is_qualified emp_id sid s = Ok b.
Proof.
  unfold is_qualified.
  destruct (contains emp_id (employees s)) eqn:He; simpl; [|eauto].
  destruct (contains sid (stations s)) eqn:Hs; simpl; [|eauto].
  apply contains_true, get_is_Some in He as [e He], Hs as [st Hs].
  unfold getitem. rewrite He, Hs. simpl. eauto.
Qed.

(** C10.  [is_qualified] returns [False], and raises nothing, when the
    employee id or the station id is not in the scheduler. *)
Theorem is_qualified_unknown_is_False emp_id sid s :
  emp_id ∉ keys (employees s) ∨ sid ∉ keys (stations s) →
  is_qualified emp_id sid s = Ok false.
Proof.
  unfold is_qualified. intros [He%contains_false|Hs%contains_false].
  - by rewrite He.
  - rewrite Hs. by rewrite orb_true_r.
Qed.

Lemma is_qualified_unknown_is_False_witness :
  ("zed" ∉ keys (employees ex_state) ∨ "critical" ∉ keys (stations ex_state))
  ∧ is_qualified "zed" "critical" ex_state = Ok false.
Proof.
  assert ("zed" ∉ keys (employees ex_state)
          ∨ "critical" ∉ keys (stations ex_state)) as H.
  { left. apply (bool_decide_unpack _). vm_compute. exact I. }
  split; [exact H|].
  exact (is_qualified_unknown_is_False "zed" "critical" ex_state H).
Defined.

(** C9.  In a reachable state [handle_absence] raises exactly when the
    employee id is unknown and [rebalance_schedule] raises exactly when the
    station id is unknown; the exception is then the [ValueError] that
    names the id, and the scheduler is left as it was. *)
Theorem unknown_ids_raise_and_change_nothing s emp_id sid :
  reachable s →
  ((∃ e, (handle_absence emp_id s).1 = Raise e) ↔ emp_id ∉ keys (employees s))
  ∧ (emp_id ∉ keys (employees s) →
     handle_absence emp_id s
     = (Raise (ValueError ("Unknown employee: " +:+ emp_id)), s))
  ∧ ((∃ e, (rebalance_schedule sid s).1 = Raise e) ↔ sid ∉ keys (stations s))
  ∧ (sid ∉ keys (stations s) →
     rebalance_schedule sid s
     = (Raise (ValueError ("Unknown station: " +:+ sid)), s)).
Proof.
  intros HI%reachable_Inv. split_and!.
  - split.
    + intros [e He] Hin.
      destruct (handle_absence_known emp_id s HI Hin) as (s' & Heq & _).
      by rewrite Heq in He.
    + intros Hn%contains_false. rewrite handle_absence_unknown by done. eauto.
  - intros Hn%contains_false. by apply handle_absence_unknown.
  - split.
    + intros [e He] Hin%get_is_Some.
      destruct (rebalance_known sid s HI Hin) as (b & s' & Heq & _).
      by rewrite Heq in He.
    + intros Hn%get_None. rewrite rebalance_unknown by done. eauto.
  - intros Hn%get_None. by apply rebalance_unknown.
Qed.

Lemma unknown_ids_raise_and_change_nothing_witness :
  reachable ex_scheduled
  ∧ ((∃ e, (handle_absence "zed" ex_scheduled).1 = Raise e)
     ↔ "zed" ∉ keys (employees ex_scheduled))
  ∧ ("zed" ∉ keys (employees ex_scheduled) →
     handle_absence "zed" ex_scheduled
     = (Raise (ValueError ("Unknown employee: " +:+ "zed")), ex_scheduled))
  ∧ ((∃ e, (rebalance_schedule "attic" ex_scheduled).1 = Raise e)
     ↔ "attic" ∉ keys (stations ex_scheduled))
  ∧ ("attic" ∉ keys (stations ex_scheduled) →
     rebalance_schedule "attic" ex_scheduled
     = (Raise (ValueError ("Unknown station: " +:+ "attic")), ex_scheduled)).
Proof.
  assert (reachable ex_scheduled) as H.
  { unfold ex_scheduled, ex_state. apply reach_generate, reach_init. }
  split; [exact H|].
  exact (unknown_ids_raise_and_change_nothing ex_scheduled "zed" "attic" H).
Defined.

Example ex_absence_unknown :
  handle_absence "zed" ex_scheduled
  = (Raise (ValueError "Unknown employee: zed"), ex_scheduled).
Proof. vm_compute. reflexivity. Qed.

Example ex_absence_alice :
  let r := handle_absence "alice" ex_scheduled in
  r.1 = Ok ["critical"]
  ∧ assignments r.2
    = [("critical", mkAssignment "critical" [] false 2);
       ("general", mkAssignment "general" ["bob"] true 0)].
Proof. vm_compute. split; reflexivity. Qed.

(** ** The claim about malformed history entries *)

(** C5, counterexample.  On 2026-11-04 the one-entry history
    [("not-a-date", "alice", "critical", 8.0)] gives alice eight hours and
    one assignment at the station: the entry is not skipped. *)
Lemma unparseable_entry_is_counted :
  unparseable ex_bad_log
  ∧ (stats ← _build_rotation_stats 739924 30 [ex_bad_log];
     Ok (stats !! ("alice", "critical")))
    = Ok (Some (mkRotationStats "alice" "critical" 8%float 999 1))
  ∧ ¬ skipped_entirely 739924 [] ex_bad_log [].
Proof.
  split_and!.
  - eexists. vm_compute. reflexivity.
  - vm_compute. reflexivity.
  - unfold skipped_entirely. intros Heq.
    apply (f_equal (fun r => match r with
                             | Ok m => m !! ("alice", "critical")
                             | Raise _ => None
                             end)) in Heq.
    vm_compute in Heq. discriminate Heq.
Qed.

(** C5, as amended.  An entry whose date cannot be parsed never makes the
    computation fail and never changes [days_since_last].  It is skipped
    entirely only when its date string sorts before the cutoff string;
    otherwise its hours and its count are added to the aggregate of its
    (employee, station) pair, which is created if it does not exist. *)
Theorem unparseable_entry_adds_hours_and_count today cutoff_str stats bad :
  unparseable bad →
  let key := (employee_id bad, log_station_id bad) in
  let old := default (new_RotationStats (employee_id bad) (log_station_id bad))
                     (stats !! key) in
  ∃ stats',
    record_log today cutoff_str stats bad = Ok stats'
    ∧ (str_ltb (log_date bad) cutoff_str = true → stats' = stats)
    ∧ (str_ltb (log_date bad) cutoff_str = false →
       stats' = <[key := mkRotationStats (rs_employee_id old) (rs_station_id old)
                           (total_hours old + hours bad)%float
                           (days_since_last old)
                           (assignment_count old + 1)]> stats)
    ∧ ∀ window before after,
        ∃ result,
          _build_rotation_stats today window (before ++ bad :: after) = Ok result.
Proof.
  intros [e He]. simpl.
  destruct (strptime_raises_ValueError _ _ He) as [msg ->].
  unfold record_log. rewrite He.
  destruct (str_ltb (log_date bad) cutoff_str); eexists.
  all: split_and!; try done.
  all: intros; apply build_rotation_stats_total.
Qed.

Lemma unparseable_entry_adds_hours_and_count_witness :
  unparseable ex_bad_log
  ∧ ∃ stats',
      record_log 739924 "2026-10-05" ∅ ex_bad_log = Ok stats'
      ∧ (str_ltb (log_date ex_bad_log) "2026-10-05" = true → stats' = ∅)
      ∧ (str_ltb (log_date ex_bad_log) "2026-10-05" = false →
         stats' = <[("alice", "critical") :=
                      mkRotationStats "alice" "critical" (0 + 8)%float 999 (0 + 1)]> ∅)
      ∧ ∀ window before after,
          ∃ result,
            _build_rotation_stats 739924 window (before ++ ex_bad_log :: after)
            = Ok result.
Proof.
  assert (unparseable ex_bad_log) as H.
  { eexists. vm_compute. reflexivity. }
  split; [exact H|].
  exact (unparseable_entry_adds_hours_and_count 739924 "2026-10-05" ∅
           ex_bad_log H).
Defined.

(** ** The claim about the empty history *)

Lemma rank_None w st q : rank w None st q = legacy_rank st q.
Proof. reflexivity. Qed.

Lemma legacy_rank_sorted st q :
  ∃ q', legacy_rank st q = q'.*1.*1 ∧ q' ≡ₚ q ∧ StronglySorted cert_comp_ge q'.
Proof.
  eexists. split_and!.
  - unfold legacy_rank. by rewrite <- list_fmap_compose.
  - apply sort_desc_perm.
  - apply (sort_desc_descending _ (fun _ => True)).
    + intros a b _ _. apply pair_ltb_asym.
    + intros a b c _ _ _. apply pair_ltb_trans.
    + by apply Forall_forall.
Qed.

Lemma staff_station_scenario w st s :
  staff_station None st (set_scenario w s)
  = ((staff_station None st s).1, set_scenario w (staff_station None st s).2).
Proof.
  unfold staff_station, _get_qualified_employees. simpl.
  destruct (collect_qualified _ _ _) as [q|e]; simpl; [|done].
  by destruct (fill_slots _ _ _ _).
Qed.

Lemma staff_stations_scenario w l s :
  staff_stations None l (set_scenario w s)
  = ((staff_stations None l s).1, set_scenario w (staff_stations None l s).2).
Proof.
  revert s. induction l as [|st l IH]; intros s; simpl; [done|].
  rewrite staff_station_scenario.
  destruct (staff_station None st s) as [[[]|e] s1]; simpl; [|done].
  apply IH.
Qed.

Lemma reset_for_generate_scenario w s :
  reset_for_generate w s
  = set_scenario (default (scenario s) w) (reset_for_generate None s).
Proof. by destruct s, w. Qed.

Lemma generate_schedule_empty_log today w s :
  assignment_logs s = [] →
  generate_schedule today w s =
  let s0 := reset_for_generate w s in
  match staff_stations None (sorted_stations s0) s0 with
  | (Ok _, s') => (Ok (assignments s'), s')
  | (Raise e, s') => (Raise e, s')
  end.
Proof.
  intros Hlog. rewrite generate_schedule_unfold. cbv zeta.
  destruct (reset_for_generate_frame w s) as (_ & _ & _ & -> & _).
  by rewrite Hlog.
Qed.

(** C7.  With an empty assignment log [generate_schedule] builds no
    statistics and runs its loop without them; the candidates of a station
    are then ranked by [(certification_level, competency)] descending, and
    the outcome is the same whatever the scenario weights are: the scorer
    plays no part. *)
Theorem empty_log_ranks_by_certification_then_competency today w s :
  assignment_logs s = [] →
  generate_schedule today w s
  = (let s0 := reset_for_generate w s in
     match staff_stations None (sorted_stations s0) s0 with
     | (Ok _, s') => (Ok (assignments s'), s')
     | (Raise e, s') => (Raise e, s')
     end)
  ∧ (∀ s1 st,
       _get_qualified_employees s1 st None
       = (q ← collect_qualified (employees s1) st
                 (elements (available_employees s1));
          Ok (legacy_rank st q)))
  ∧ (∀ st q, ∃ q',
       legacy_rank st q = q'.*1.*1 ∧ q' ≡ₚ q ∧ StronglySorted cert_comp_ge q')
  ∧ (∀ w1 w2,
       (generate_schedule today w1 s).1 = (generate_schedule today w2 s).1
       ∧ available_employees (generate_schedule today w1 s).2
         = available_employees (generate_schedule today w2 s).2).
Proof.
  intros Hlog. split_and!.
  - by apply generate_schedule_empty_log.
  - done.
  - apply legacy_rank_sorted.
  - intros w1 w2. rewrite !generate_schedule_empty_log by done. cbv zeta.
    rewrite (reset_for_generate_scenario w1), (reset_for_generate_scenario w2).
    change (sorted_stations (set_scenario ?x ?y)) with (sorted_stations y).
    rewrite !staff_stations_scenario.
    by destruct (staff_stations None _ _) as [[[]|e] s'].
Qed.

Lemma empty_log_ranks_by_certification_then_competency_witness :
  assignment_logs ex_state = []
  ∧ (generate_schedule 739924 (Some Cross_Training) ex_state).1
    = (generate_schedule 739924 (Some Max_Competency) ex_state).1.
Proof.
  assert (assignment_logs ex_state = []) as H by reflexivity.
  split; [exact H|].
  exact (proj1 (proj2 (proj2 (proj2
    (empty_log_ranks_by_certification_then_competency 739924 None ex_state H)))
    (Some Cross_Training) (Some Max_Competency))).
Defined.

(** ** The claim about the priority score *)

(** *** The order of binary64 numbers *)

Lemma SFcompare_asym x y :
  SFcompare x y = Some Lt → SFcompare y x = Some Gt.
Proof.
  destruct x as [sx|sx| |sx mx ex], y as [sy|sy| |sy my ey]; simpl;
    try destruct sx; try destruct sy; simpl; try congruence.
  all: change (Pos.compare_cont Eq my mx) with (Pos.compare my mx).
  all: change (Pos.compare_cont Eq mx my) with (Pos.compare mx my).
  all: rewrite (Z.compare_antisym ex ey), (Pos.compare_antisym mx my).
  all: destruct (ex ?= ey); simpl; try congruence.
  all: destruct (mx ?= my)%positive; simpl; congruence.
Qed.

Lemma SFltb_ge_trans x y z :
  SF_not_nan y →
  SFltb x y = false → SFltb y z = false → SFltb x z = false.
Proof.
  unfold SFltb.
  destruct x as [sx|sx| |sx mx ex], y as [sy|sy| |sy my ey],
    z as [sz|sz| |sz mz ez]; simpl;
    try destruct sx; try destruct sy; try destruct sz; simpl;
    try congruence; try tauto.
  all: intros _.
  all: change (Pos.compare_cont Eq ?a ?b) with (Pos.compare a b).
  all: destruct (Z.compare_spec ex ey), (Z.compare_spec ey ez),
         (Z.compare_spec ex ez); simpl; try congruence; try lia.
  all: destruct (Pos.compare_spec mx my), (Pos.compare_spec my mz),
         (Pos.compare_spec mx mz); simpl; try congruence; try lia.
Qed.

Lemma float_ltb_asym (a b : float) :
  PrimFloat.ltb a b = true → PrimFloat.ltb b a = false.
Proof.
  rewrite !FloatAxioms.ltb_spec. unfold SFltb.
  destruct (SFcompare (Prim2SF a) (Prim2SF b)) as [[]|] eqn:H; try discriminate.
  intros _. by rewrite (SFcompare_asym _ _ H).
Qed.

Lemma is_nan_false_spec (a : float) :
  PrimFloat.is_nan a = false → SF_not_nan (Prim2SF a).
Proof.
  unfold PrimFloat.is_nan. rewrite FloatAxioms.eqb_spec. unfold SFeqb.
  by destruct (Prim2SF a).
Qed.

Lemma float_ge_trans (a b c : float) :
  PrimFloat.is_nan b = false →
  PrimFloat.ltb a b = false → PrimFloat.ltb b c = false →
  PrimFloat.ltb a c = false.
Proof.
  intros Hb%is_nan_false_spec. rewrite !FloatAxioms.ltb_spec. by apply SFltb_ge_trans.
Qed.

(** *** The scorer *)

Lemma priority_matches_spec w stats st i competency certification :
  priority w stats st (i, competency, certification)
  = Spec.priority w competency certification (stats !! (i, s_id st)).
Proof.
  unfold priority, Spec.priority, Spec.skill_score, Spec.recency_score,
    Spec.fatigue_score.
  by destruct (stats !! (i, s_id st)).
Qed.

(** C6.  With rotation statistics at hand, [_get_qualified_employees]
    scores exactly the available employees that pass the gate, gives each
    the priority of the specification's formula (skill, recency and
    fatigue scores weighted by the scenario), and returns the ids in
    descending order of that priority whenever the priorities can be
    compared, that is when none of them is a NaN. *)
Theorem candidates_scored_and_sorted_by_priority s st stats :
  (∀ e, e ∈ available_employees s → e ∈ keys (employees s)) →
  ∃ scored : list (string * float),
    _get_qualified_employees s st (Some stats) = Ok scored.*1
    ∧ NoDup scored.*1
    ∧ (∀ i p,
         (i, p) ∈ scored ↔
         i ∈ available_employees s
         ∧ ∃ e, get i (employees s) = Some e ∧ qualifies e st
                ∧ p = Spec.priority (scenario s)
                        (get_competency e (s_id st)) (certification_level e)
                        (stats !! (i, s_id st)))
    ∧ (Forall (fun x => PrimFloat.is_nan x.2 = false) scored →
       StronglySorted priority_ge scored).
Proof.
  intros Hk.
  set (q := omap (candidate (employees s) st) (elements (available_employees s))).
  set (f := fun c : string * Z * Z => (c.1.1, priority (scenario s) stats st c)).
  exists (sort_desc (fun a b => PrimFloat.ltb a.2 b.2) (f <$> q)).
  split_and!.
  - unfold _get_qualified_employees.
    rewrite collect_qualified_ok by (intros i; rewrite elem_of_elements; auto).
    done.
  - rewrite sort_desc_perm. rewrite <- list_fmap_compose.
    replace (fst ∘ f <$> q) with (q.*1.*1)
      by (rewrite <- list_fmap_compose; by apply list_fmap_ext).
    subst q. rewrite omap_candidate_ids. apply NoDup_filter, NoDup_elements.
  - intros i p. rewrite elem_of_sort_desc, list_elem_of_fmap. subst q f.
    split.
    + intros ([[i' comp] cert] & [= -> ->] & Hin).
      apply list_elem_of_omap in Hin as (i0 & Hi0 & Hc).
      apply candidate_Some in Hc as (e & He & Hq & [= -> -> ->]).
      split; [by apply elem_of_elements|].
      exists e. split_and!; try done. apply priority_matches_spec.
    + intros (Hi & e & He & Hq & ->).
      exists (i, get_competency e (s_id st), certification_level e).
      split; [by rewrite priority_matches_spec|].
      apply list_elem_of_omap. exists i.
      split; [by apply elem_of_elements|].
      apply candidate_Some. eauto.
  - intros Hnan.
    apply (sort_desc_descending _ (fun x => PrimFloat.is_nan x.2 = false)).
    + intros a b _ _. apply float_ltb_asym.
    + intros a b c _ Hb _. by apply float_ge_trans.
    + by rewrite sort_desc_perm in Hnan.
Qed.

Lemma candidates_scored_and_sorted_by_priority_witness :
  (∀ e, e ∈ available_employees ex_state → e ∈ keys (employees ex_state))
  ∧ ∃ scored : list (string * float),
      _get_qualified_employees ex_state ex_general (Some ∅) = Ok scored.*1
      ∧ NoDup scored.*1
      ∧ (∀ i p,
           (i, p) ∈ scored ↔
           i ∈ available_employees ex_state
           ∧ ∃ e, get i (employees ex_state) = Some e ∧ qualifies e ex_general
                  ∧ p = Spec.priority (scenario ex_state)
                          (get_competency e (s_id ex_general))
                          (certification_level e)
                          ((∅ : stats_map) !! (i, s_id ex_general)))
      ∧ (Forall (fun x => PrimFloat.is_nan x.2 = false) scored →
         StronglySorted priority_ge scored).
Proof.
  assert (∀ e, e ∈ available_employees ex_state → e ∈ keys (employees ex_state))
    as H.
  { exact (wf_available_known _ (proj1 (init_Inv _ _))). }
  split; [exact H|].
  exact (candidates_scored_and_sorted_by_priority ex_state ex_general ∅ H).
Defined.

(** A day of history at the station turns the ranking round: without
    statistics alice (competency 3) is ahead of bob (competency 2); with
    eight hours logged for alice the day before, bob is ahead. *)
Example ex_rank_without_history :
  _get_qualified_employees ex_state ex_general None = Ok ["alice"; "bob"].
Proof. vm_compute. reflexivity. Qed.

Example ex_rank_with_history :
  (stats ← _build_rotation_stats 739924 30 ex_history;
   _get_qualified_employees ex_state ex_general (Some stats))
  = Ok ["bob"; "alice"].
Proof. vm_compute. reflexivity. Qed.

(** ** The claim about the snapshot round trip *)

Lemma mapM_fmap {A B} (rd : B → result A) (wr : A → B) (l : list A) :
  (∀ x, rd (wr x) = Ok x) → mapM rd (wr <$> l) = Ok l.
Proof.
  intros Hinv. induction l as [|x l IH]; csimpl; [done|].
  by rewrite Hinv, IH.
Qed.

Lemma str_list_round_trip (l : list string) : str_list (JList (JStr <$> l)) = Ok l.
Proof. unfold str_list. simpl. by apply mapM_fmap. Qed.

Lemma Station_round_trip st : Station_from_dict (Station_to_dict st) = Ok st.
Proof. by destruct st. Qed.

Lemma competencies_round_trip (m : gmap string Z) :
  competencies_from_dict (competencies_to_dict m) = Ok m.
Proof.
  unfold competencies_from_dict, competencies_to_dict. simpl.
  rewrite (mapM_fmap (fun kv : string * json => n ← as_int kv.2; Ok (kv.1, n))
             (prod_map id JInt)) by (by intros []).
  simpl. by rewrite list_to_map_to_list.
Qed.

Lemma Employee_round_trip e : Employee_from_dict (Employee_to_dict e) = Ok e.
Proof.
  destruct e as [i n c l]. unfold Employee_from_dict, Employee_to_dict. simpl.
  unfold get_or, field, getitem. simpl.
  rewrite competencies_round_trip. done.
Qed.

Lemma Assignment_round_trip a : Assignment_from_dict (Assignment_to_dict a) = Ok a.
Proof.
  destruct a as [i l f u]. unfold Assignment_from_dict, Assignment_to_dict. simpl.
  unfold get_or, field, getitem. simpl.
  rewrite str_list_round_trip. done.
Qed.

Lemma AssignmentLog_round_trip l :
  AssignmentLog_from_dict (AssignmentLog_to_dict l) = Ok l.
Proof. by destruct l. Qed.

Lemma list_of_round_trip {A} (rd : json → result A) (wr : A → json) (l : list A) :
  (∀ x, rd (wr x) = Ok x) → list_of rd (JList (wr <$> l)) = Ok l.
Proof. intros H. unfold list_of. simpl. by apply mapM_fmap. Qed.

(** Restoring a snapshot gives back the scheduler, with the scenario, which
    the snapshot does not hold, set to Balanced as in a new scheduler. *)
Lemma from_json_to_json s :
  keyed_by s_id (stations s) → keyed_by e_id (employees s) →
  keyed_by station_id (assignments s) →
  from_json (to_json s) = Ok (set_scenario Balanced s).
Proof.
  intros Hs He Ha. unfold from_json, to_json. simpl.
  unfold field, get_or, getitem. simpl.
  rewrite (list_of_round_trip _ _ _ Station_round_trip). simpl.
  rewrite (list_of_round_trip _ _ _ Employee_round_trip). simpl.
  rewrite (list_of_round_trip _ _ _ Assignment_round_trip). simpl.
  rewrite !str_list_round_trip. simpl.
  rewrite (list_of_round_trip _ _ _ AssignmentLog_round_trip). simpl.
  rewrite !list_to_set_elements_L.
  change (fold_left _ (values (assignments s)) [])
    with (fold_left (fun d x => set (station_id x) x d) (values (assignments s)) []).
  rewrite (fold_set_values station_id [] (assignments s)) by done.
  unfold init. simpl. rewrite !of_list_values by done.
  by destruct s.
Qed.

(** C8.  For every reachable state, restoring its snapshot gives a
    scheduler with the same stations, the same employees with their
    competency maps, the same assignments, the same available and absent
    sets, and the same assignment log. *)
Theorem snapshot_round_trip s :
  reachable s →
  ∃ s', from_json (to_json s) = Ok s'
    ∧ stations s' = stations s
    ∧ employees s' = employees s
    ∧ assignments s' = assignments s
    ∧ available_employees s' = available_employees s
    ∧ absent_employees s' = absent_employees s
    ∧ assignment_logs s' = assignment_logs s.
Proof.
  intros [Hwf _]%reachable_Inv. exists (set_scenario Balanced s).
  split; [|done].
  apply from_json_to_json; apply Hwf.
Qed.

Lemma snapshot_round_trip_witness :
  reachable ex_after_absence
  ∧ ∃ s', from_json (to_json ex_after_absence) = Ok s'
      ∧ stations s' = stations ex_after_absence
      ∧ employees s' = employees ex_after_absence
      ∧ assignments s' = assignments ex_after_absence
      ∧ available_employees s' = available_employees ex_after_absence
      ∧ absent_employees s' = absent_employees ex_after_absence
      ∧ assignment_logs s' = assignment_logs ex_after_absence.
Proof.
  assert (reachable ex_after_absence) as H.
  { unfold ex_after_absence, ex_scheduled, ex_state.
    apply reach_absence, reach_logs, reach_generate, reach_init. }
  split; [exact H|].
  exact (snapshot_round_trip ex_after_absence H).
Defined.

Example ex_round_trip :
  from_json (to_json ex_after_absence) = Ok (set_scenario Balanced ex_after_absence)
  ∧ absent_employees ex_after_absence = {["alice"]}
  ∧ assignment_logs ex_after_absence = ex_history.
Proof.
  split_and!.
  - apply from_json_to_json; apply (bool_decide_unpack _); vm_compute; exact I.
  - vm_compute. reflexivity.
  - vm_compute. reflexivity.
Qed.

(** ** The claim about the order in which stations are filled *)

Lemma staff_stations_app rs l1 l2 s :
  staff_stations rs (l1 ++ l2) s =
  match staff_stations rs l1 s with
  | (Ok _, s1) => staff_stations rs l2 s1
  | (Raise e, s1) => (Raise e, s1)
  end.
Proof.
  revert s. induction l1 as [|st l1 IH]; intros s; simpl; [done|].
  destruct (staff_station rs st s) as [[[]|e] s1]; [apply IH|done].
Qed.

(** The assignment one station receives: the first [required_headcount]
    of its candidates, which leave the available set. *)
Lemma staff_station_result rs st s :
  Inv s → st ∈ values (stations s) →
  ∃ q,
    let chosen := take (Z.to_nat (required_headcount st)) q in
    let unfilled := required_headcount st - Z.of_nat (length chosen) in
    NoDup q
    ∧ (∀ i, i ∈ q ↔ i ∈ available_employees s
                     ∧ ∃ e, get i (employees s) = Some e ∧ qualifies e st)
    ∧ get (s_id st) (assignments (staff_station rs st s).2)
      = Some (mkAssignment (s_id st) chosen (unfilled =? 0) unfilled)
    ∧ available_employees (staff_station rs st s).2
      = available_employees s ∖ list_to_set chosen.
Proof.
  intros HI Hst.
  destruct (get_qualified_ok s st rs) as (q & Hq & Hnd & Hmem); [apply HI|].
  destruct (staff_station_spec rs st s HI Hst) as (q' & av' & Hq' & Heq & Hav & _).
  simpl in *. assert (q' = q) as -> by congruence.
  exists q. simpl. split_and!; try done.
  - rewrite Heq. simpl. by rewrite get_set_eq.
  - rewrite Heq. simpl. done.
Qed.

Lemma staff_stations_avail rs l s x :
  Inv s → l ⊆ values (stations s) → NoDup (s_id <$> l) →
  available_employees (staff_stations rs l s).2 ⊆ available_employees s
  ∧ (x ∈ available_employees s →
     (∀ st e, st ∈ l → get x (employees s) = Some e → ¬ qualifies e st) →
     x ∈ available_employees (staff_stations rs l s).2).
Proof.
  revert s. induction l as [|st l IH]; intros s HI Hsub Hnd; simpl; [done|].
  rewrite fmap_cons in Hnd. apply NoDup_cons in Hnd as [_ Hnd].
  assert (st ∈ values (stations s)) as Hst by (apply Hsub; left).
  destruct (staff_station_result rs st s HI Hst) as (q & _ & Hmem & _ & Hav).
  destruct (staff_station_spec rs st s HI Hst) as (q' & av' & _ & Heq & _ & HI1).
  pose proof (staff_station_frame rs st s) as (Hs1 & He1 & _).
  simpl in *. rewrite Heq in *. simpl in *.
  match type of HI1 with Inv ?t => set (s1 := t) in * end.
  destruct (IH s1 HI1) as [Hsub' Hkeep].
  { intros y Hy. simpl. apply Hsub. by right. }
  { done. }
  split.
  - etrans; [exact Hsub'|]. simpl. rewrite Hav. set_solver.
  - intros Hx Hunq. apply Hkeep.
    + simpl. rewrite Hav. apply elem_of_difference. split; [done|].
      rewrite elem_of_list_to_set. intros Hin%subseteq_take.
      apply Hmem in Hin as (_ & e & He & Hq). apply (Hunq st e); [left|done|done].
    + intros st' e Hin He. apply (Hunq st' e); [by right|done].
Qed.

(** The assignment of a station depends only on the state in which its
    turn comes: the stations after it do not touch it. *)
Lemma staff_stations_at rs l1 st l2 s :
  Inv s → l1 ++ st :: l2 ⊆ values (stations s) →
  NoDup (s_id <$> l1 ++ st :: l2) →
  let s1 := (staff_stations rs l1 s).2 in
  Inv s1 ∧ stations s1 = stations s ∧ employees s1 = employees s
  ∧ (staff_stations rs (l1 ++ st :: l2) s).1 = Ok ()
  ∧ get (s_id st) (assignments (staff_stations rs (l1 ++ st :: l2) s).2)
    = get (s_id st) (assignments (staff_station rs st s1).2).
Proof.
  intros HI Hsub Hnd. simpl.
  rewrite fmap_app, fmap_cons in Hnd.
  apply NoDup_app in Hnd as (Hnd1 & _ & [Hfresh Hnd2]%NoDup_cons).
  destruct (staff_stations_spec rs l1 s HI) as (s1 & Hrun1 & HI1 & Hs1 & He1 & _).
  { intros x Hx. apply Hsub, elem_of_app. by left. }
  { done. }
  rewrite staff_stations_app, Hrun1. simpl.
  assert (st ∈ values (stations s1)) as Hst.
  { rewrite Hs1. apply Hsub, elem_of_app. right. left. }
  destruct (staff_station_spec rs st s1 HI1 Hst) as (q & av' & _ & Heq & _ & HI2).
  pose proof (staff_station_frame rs st s1) as (Hs2 & _).
  simpl in *. rewrite Heq in *. simpl in *.
  match type of HI2 with Inv ?t => set (s2 := t) in * end.
  destruct (staff_stations_spec rs l2 s2 HI2)
    as (s3 & Hrun3 & _ & _ & _ & _ & _ & _ & Hframe & _).
  { intros x Hx. simpl. rewrite Hs1. apply Hsub, elem_of_app. right. by right. }
  { done. }
  rewrite Hrun3. simpl. split_and!; try done.
  by apply Hframe.
Qed.

Lemma NoDup_all_eq_singleton {A} (l : list A) x :
  NoDup l → x ∈ l → (∀ y, y ∈ l → y = x) → l = [x].
Proof.
  intros Hnd Hx Hall. destruct l as [|a l]; [by apply elem_of_nil in Hx|].
  assert (a = x) as -> by (apply Hall; left).
  destruct l as [|b l]; [done|].
  assert (b = x) as -> by (apply Hall; right; left).
  apply NoDup_cons in Hnd as [Hnin _]. destruct Hnin. left.
Qed.

Lemma reset_for_generate_available w s :
  available_employees (reset_for_generate w s)
  = list_to_set (keys (employees s)) ∖ absent_employees s.
Proof. by destruct w. Qed.

(** C4.  Station A requires skill 3, station B skill 1, both one employee;
    one employee who is not absent passes the gate of both, and nobody
    else who is not absent passes either gate.  Then [generate_schedule]
    gives the employee to A and leaves B with an empty list, one unfilled
    slot and not fully staffed.  (Other stations may exist, provided none
    that is at least as demanding as A wants the same employee.) *)
Theorem critical_station_takes_the_shared_employee today w s A B emp e :
  keyed_by s_id (stations s) → keyed_by e_id (employees s) →
  A ∈ values (stations s) → B ∈ values (stations s) →
  required_skill_level A = 3 → required_skill_level B = 1 →
  required_headcount A = 1 → required_headcount B = 1 →
  get emp (employees s) = Some e → emp ∉ absent_employees s →
  qualifies e A → qualifies e B →
  (∀ x e', x ≠ emp → x ∉ absent_employees s →
     get x (employees s) = Some e' → ¬ qualifies e' A ∧ ¬ qualifies e' B) →
  (∀ C, C ∈ values (stations s) → C ≠ A → 3 ≤ required_skill_level C →
     ¬ qualifies e C) →
  ∃ s' a b,
    generate_schedule today w s = (Ok (assignments s'), s')
    ∧ get (s_id A) (assignments s') = Some a
    ∧ assigned_employee_ids a = [emp]
    ∧ get (s_id B) (assignments s') = Some b
    ∧ assigned_employee_ids b = []
    ∧ unfilled_slots b = 1
    ∧ is_fully_staffed b = false.
Proof.
  intros Hs He HA HB HskA HskB HhA HhB Hemp Hpresent HqA HqB Hothers Hrivals.
  rewrite generate_schedule_unfold. cbv zeta.
  set (s0 := reset_for_generate w s).
  pose proof (reset_for_generate_Inv w s Hs He) as HI0. fold s0 in HI0.
  pose proof (reset_for_generate_frame w s) as (Es & Ee & _). fold s0 in Es, Ee.
  pose proof (reset_for_generate_available w s) as Eav. fold s0 in Eav.
  destruct (stats_for_total today (assignment_logs s0)) as [rs ->].
  set (lt := fun a b : Station => required_skill_level a <? required_skill_level b).
  set (l := sorted_stations s0).
  assert (descending lt l) as Hsorted by apply stations_sorted.
  assert (l ≡ₚ values (stations s)) as Hperm.
  { unfold l, sorted_stations. by rewrite sort_desc_perm, Es. }
  assert (NoDup (s_id <$> l)) as HndL.
  { rewrite Hperm, (keyed_by_values_ids s_id) by done. apply Hs. }
  assert (l ⊆ values (stations s0)) as HsubL.
  { intros x. rewrite Hperm, Es. done. }
  assert (A ≠ B) as HAB by (intros ->; lia).
  (* where B and A stand in the sorted list *)
  assert (B ∈ l) as HBl by (by rewrite Hperm).
  apply list_elem_of_split in HBl as (lB1 & lB2 & El).
  assert (A ∈ lB1) as HAl.
  { assert (A ∈ l) as HA' by (by rewrite Hperm).
    rewrite El in HA'. apply elem_of_app in HA' as [?|HA']; [done|].
    apply elem_of_cons in HA' as [?|HA']; [done|].
    rewrite El, cons_middle, app_assoc in Hsorted.
    assert (lt B A = false) as Hge.
    { apply (StronglySorted_app_1_elem_of _ _ _ _ _ Hsorted); [|done].
      apply elem_of_app. right. left. }
    unfold lt in Hge. apply Z.ltb_ge in Hge. lia. }
  apply list_elem_of_split in HAl as (la & lb & ElB).
  assert (l = la ++ A :: (lb ++ B :: lB2)) as El'.
  { rewrite El, ElB. by rewrite <- app_assoc. }
  (* the state in which A's turn comes *)
  set (sA := (staff_stations rs la s0).2).
  destruct (staff_stations_at rs la A (lb ++ B :: lB2) s0 HI0)
    as (HIA & EsA & EeA & HokA & HgetA); [by rewrite <- El'..|].
  fold sA in HIA, EsA, EeA, HgetA.
  destruct (staff_stations_avail rs la s0 emp HI0) as [HsubA HkeepA].
  { intros x Hx. apply HsubL. rewrite El'. apply elem_of_app. by left. }
  { rewrite El', fmap_app in HndL. by apply NoDup_app in HndL as (? & _). }
  fold sA in HsubA, HkeepA.
  assert (emp ∈ available_employees sA) as HempA.
  { apply HkeepA.
    - rewrite Eav. apply elem_of_difference. split; [|done].
      apply elem_of_list_to_set, get_is_Some. eauto.
    - intros C e0 HC He0. rewrite Ee, Hemp in He0. injection He0 as <-.
      apply Hrivals.
      + rewrite <- Hperm, El'. apply elem_of_app. by left.
      + intros ->. rewrite El', fmap_app, fmap_cons in HndL.
        apply NoDup_app in HndL as (_ & Hdis & _).
        apply (Hdis (s_id A)); [by apply list_elem_of_fmap_2|left].
      + rewrite El' in Hsorted.
        assert (lt C A = false) as Hge.
        { apply (StronglySorted_app_1_elem_of _ _ _ _ _ Hsorted); [done|left]. }
        unfold lt in Hge. apply Z.ltb_ge in Hge. lia. }
  assert (∀ x, x ∈ available_employees s0 → x ∉ absent_employees s) as Hav0.
  { intros x. rewrite Eav. set_solver. }
  destruct (staff_station_result rs A sA HIA) as (qA & HndA & HmemA & HresA & _).
  { by rewrite EsA, Es. }
  assert (qA = [emp]) as ->.
  { apply NoDup_all_eq_singleton; [done| |].
    - apply HmemA. split; [done|]. exists e. by rewrite EeA, Ee.
    - intros y (Hy & e' & He' & Hq')%HmemA.
      destruct (decide (y = emp)) as [|Hne]; [done|].
      rewrite EeA, Ee in He'.
      destruct (Hothers y e' Hne (Hav0 _ (HsubA _ Hy)) He') as [HnA _]. done. }
  rewrite HhA in HresA. simpl in HresA.
  (* the state in which B's turn comes *)
  set (sB := (staff_stations rs (la ++ A :: lb) s0).2).
  assert (l = (la ++ A :: lb) ++ B :: lB2) as El'' by (by rewrite El, ElB).
  destruct (staff_stations_at rs (la ++ A :: lb) B lB2 s0 HI0)
    as (HIB & EsB & EeB & HokB & HgetB); [by rewrite <- El''..|].
  fold sB in HIB, EsB, EeB, HgetB.
  destruct (staff_stations_at rs la A lb s0 HI0) as (_ & _ & _ & _ & HgetAB).
  { intros x Hx. apply HsubL. rewrite El''. apply elem_of_app. by left. }
  { rewrite El'', fmap_app in HndL. by apply NoDup_app in HndL as (? & _). }
  fold sA sB in HgetAB. rewrite HresA in HgetAB.
  assert (emp ∉ available_employees sB) as HempB.
  { apply (cs_unavailable _ (proj2 HIB) _ _ _ HgetAB). simpl. left. }
  destruct (staff_stations_avail rs (la ++ A :: lb) s0 emp HI0) as [HsubB _].
  { intros x Hx. apply HsubL. rewrite El''. apply elem_of_app. by left. }
  { rewrite El'', fmap_app in HndL. by apply NoDup_app in HndL as (? & _). }
  fold sB in HsubB.
  destruct (staff_station_result rs B sB HIB) as (qB & _ & HmemB & HresB & _).
  { by rewrite EsB, Es. }
  assert (qB = []) as ->.
  { destruct qB as [|y qB]; [done|]. exfalso.
    destruct (proj1 (HmemB y)) as (Hy & e' & He' & Hq'); [left|].
    destruct (decide (y = emp)) as [->|Hne]; [done|].
    rewrite EeB, Ee in He'.
    destruct (Hothers y e' Hne (Hav0 _ (HsubB _ Hy)) He') as [_ HnB]. done. }
  rewrite HhB in HresB. simpl in HresB.
  (* the whole run *)
  rewrite <- El'' in HgetB, HokB. rewrite <- El' in HgetA.
  destruct (staff_stations rs l s0) as [r s'] eqn:Hrun. simpl in *. subst r.
  eexists s', _, _. split; [done|].
  rewrite HgetA, HresA, HgetB, HresB. simpl. split_and!; done.
Qed.

Lemma critical_station_takes_the_shared_employee_witness :
  ∃ s' a b,
    generate_schedule 739924 None ex_contested = (Ok (assignments s'), s')
    ∧ get "high" (assignments s') = Some a
    ∧ assigned_employee_ids a = ["carol"]
    ∧ get "low" (assignments s') = Some b
    ∧ assigned_employee_ids b = []
    ∧ unfilled_slots b = 1
    ∧ is_fully_staffed b = false.
Proof.
  apply (critical_station_takes_the_shared_employee 739924 None ex_contested
           ex_high ex_low "carol" ex_carol).
  - apply (bool_decide_unpack _). vm_compute. exact I.
  - apply (bool_decide_unpack _). vm_compute. exact I.
  - simpl. set_solver.
  - simpl. set_solver.
  - reflexivity.
  - reflexivity.
  - reflexivity.
  - reflexivity.
  - reflexivity.
  - simpl. set_solver.
  - apply (bool_decide_unpack _). vm_compute. exact I.
  - apply (bool_decide_unpack _). vm_compute. exact I.
  - intros x e' Hne _ Hget. simpl in Hget.
    destruct (decide (x = "carol")) as [->|_]; [done|].
    destruct (decide (x = "dave")) as [->|_]; [|done].
    injection Hget as <-.
    apply (bool_decide_unpack _). vm_compute. exact I.
  - intros C HC HCA Hskill. simpl in HC.
    apply elem_of_cons in HC as [->|HC]; [simpl in Hskill; lia|].
    apply elem_of_cons in HC as [->|HC]; [done|].
    by apply elem_of_nil in HC.
Defined.

Example ex_contested_run :
  (generate_schedule 739924 None ex_contested).1
  = Ok [("high", mkAssignment "high" ["carol"] true 0);
        ("low", mkAssignment "low" [] false 1)].
Proof. vm_compute. reflexivity. Qed.

(** * Further properties of the engine *)

(** ** Bookkeeping of the roster and of the slots *)

Lemma accounted_assign s sid a' (new : list string) av' :
  accounted s →
  (∀ e, e ∈ new → e ∈ available_employees s) →
  av' = available_employees s ∖ list_to_set new →
  (∀ e, e ∈ assigned_employee_ids a' ↔
        (∃ a, get sid (assignments s) = Some a ∧ e ∈ assigned_employee_ids a)
        ∨ e ∈ new) →
  (∀ st, get sid (stations s) = Some st →
     unfilled_slots a' + Z.of_nat (length (assigned_employee_ids a'))
     = required_headcount st
     ∨ (unfilled_slots a' = 0 ∧ assigned_employee_ids a' = [])) →
  (0 ≤ unfilled_slots a' ∨ assigned_employee_ids a' = []) →
  accounted (set_available av' (update_assignment sid a' s)).
Proof.
  intros [Hk Hap Hasp Hcov Hsl Hnn] Hnew -> Hids Hslots Hnonneg.
  constructor; simpl.
  - done.
  - intros e He. apply Hap. set_solver.
  - intros k a e. destruct (decide (sid = k)) as [<-|Hne].
    + rewrite get_set_eq. intros [= <-] [(a0 & Ha & He)|He]%Hids; eauto.
    + rewrite get_set_ne by done. eauto.
  - intros e He. destruct (Hcov e He) as [Hav|[Hab|(k & a & Ha & Hin)]].
    + destruct (decide (e ∈ new)) as [Hin|Hnin].
      * right. right. exists sid, a'. rewrite get_set_eq. split; [done|].
        apply Hids. by right.
      * left. set_solver.
    + by right; left.
    + right. right. destruct (decide (sid = k)) as [<-|Hne].
      * exists sid, a'. rewrite get_set_eq. split; [done|]. apply Hids. eauto.
      * exists k, a. by rewrite get_set_ne.
  - intros k a st. destruct (decide (sid = k)) as [<-|Hne].
    + rewrite get_set_eq. intros [= <-]. apply Hslots.
    + rewrite get_set_ne by done. apply Hsl.
  - intros k a. destruct (decide (sid = k)) as [<-|Hne].
    + rewrite get_set_eq. by intros [= <-].
    + rewrite get_set_ne by done. apply Hnn.
Qed.

(** One station of [generate_schedule], with the state it leaves. *)
Lemma staff_station_eq rs st s :
  Inv s → st ∈ values (stations s) →
  ∃ q,
    let chosen := take (Z.to_nat (required_headcount st)) q in
    let unfilled := required_headcount st - Z.of_nat (length chosen) in
    NoDup q
    ∧ (∀ i, i ∈ q ↔ i ∈ available_employees s
                     ∧ ∃ e, get i (employees s) = Some e ∧ qualifies e st)
    ∧ staff_station rs st s
      = (Ok (),
         set_available (available_employees s ∖ list_to_set chosen)
           (update_assignment (s_id st)
              (mkAssignment (s_id st) chosen (unfilled =? 0) unfilled) s)).
Proof.
  intros HI Hst.
  destruct (get_qualified_ok s st rs) as (q & Hq & Hnd & Hmem); [apply HI|].
  exists q. simpl. split_and!; try done.
  unfold staff_station. rewrite Hq, fill_slots_take. done.
Qed.

Lemma saturated_at_frame k s s' :
  get k (assignments s') = get k (assignments s) →
  stations s' = stations s → employees s' = employees s →
  available_employees s' ⊆ available_employees s →
  saturated_at k s → saturated_at k s'.
Proof.
  intros Ha Hs He Hav Hsat a st e emp. rewrite Ha, Hs, He.
  intros H1 H2 H3 Hin H5. eapply Hsat; eauto.
Qed.

Lemma staff_station_accounted rs st s :
  Inv s → accounted s → flagged s →
  st ∈ values (stations s) → get (s_id st) (assignments s) = None →
  let s' := (staff_station rs st s).2 in
  accounted s' ∧ flagged s' ∧ saturated_at (s_id st) s'
  ∧ available_employees s' ⊆ available_employees s
  ∧ (∀ k, k ≠ s_id st → get k (assignments s') = get k (assignments s)).
Proof.
  intros HI Hac Hfl Hst Hfresh.
  destruct (staff_station_eq rs st s HI Hst) as (q & Hnd & Hmem & Heq).
  simpl in Heq. rewrite Heq. simpl.
  set (chosen := take (Z.to_nat (required_headcount st)) q) in *.
  assert (length chosen = Nat.min (Z.to_nat (required_headcount st)) (length q))
    as Hlen by apply length_take.
  pose proof (keyed_by_get_value s_id _ _ (wf_stations _ (proj1 HI)) Hst) as Hget.
  split_and!.
  - eapply (accounted_assign s (s_id st) _ chosen); simpl; try done.
    + intros e He%subseteq_take. by apply Hmem.
    + intros e. rewrite Hfresh. naive_solver.
    + intros st0. rewrite Hget. intros [= <-]. left. lia.
    + destruct (decide (0 ≤ required_headcount st)); [left; lia|].
      right. destruct chosen; [done|]. simpl in Hlen. lia.
  - intros k a. simpl. destruct (decide (s_id st = k)) as [<-|Hne].
    + rewrite get_set_eq. by intros [= <-].
    + rewrite get_set_ne by done. apply Hfl.
  - intros a st0 e emp. simpl. rewrite get_set_eq, Hget.
    intros [= <-] [= <-]. simpl. intros Hopen He Hemp Hq.
    assert (chosen = q) as Hall.
    { unfold chosen. apply take_ge. lia. }
    rewrite Hall in He. apply elem_of_difference in He as [He Hnot].
    apply Hnot, elem_of_list_to_set, Hmem. eauto.
  - set_solver.
  - intros k Hne. by rewrite get_set_ne.
Qed.

Lemma staff_stations_accounted rs l s :
  Inv s → accounted s → flagged s →
  l ⊆ values (stations s) → NoDup (s_id <$> l) →
  (∀ st, st ∈ l → get (s_id st) (assignments s) = None) →
  let s' := (staff_stations rs l s).2 in
  accounted s' ∧ flagged s'
  ∧ (∀ k, saturated_at k s ∨ k ∈ s_id <$> l → saturated_at k s').
Proof.
  revert s. induction l as [|st l IH]; intros s HI Hac Hfl Hsub Hnd Hfresh; simpl.
  - split_and!; try done. intros k [?|Hk]; [done|]. by apply elem_of_nil in Hk.
  - rewrite fmap_cons in Hnd. apply NoDup_cons in Hnd as [Hnew Hnd].
    assert (st ∈ values (stations s)) as Hst by (apply Hsub; left).
    destruct (staff_station_accounted rs st s HI Hac Hfl Hst)
      as (Hac1 & Hfl1 & Hsat1 & Hav1 & Hfr1); [apply Hfresh; left|].
    destruct (staff_station_spec rs st s HI Hst) as (q & av' & _ & Heq & _ & HI1).
    pose proof (staff_station_frame rs st s) as (Hs1 & He1 & _).
    simpl in *. rewrite Heq in *. simpl in *.
    match type of HI1 with Inv ?t => set (s1 := t) in * end.
    destruct (IH s1 HI1 Hac1 Hfl1) as (Hac' & Hfl' & Hsat').
    { intros x Hx. simpl. apply Hsub. by right. }
    { done. }
    { intros st' Hin. simpl. rewrite get_set_ne; [apply Hfresh; by right|].
      intros Heq'. apply Hnew. rewrite Heq'. by apply list_elem_of_fmap_2. }
    split_and!; try done.
    intros k [Hk|Hk]; apply Hsat'.
    + left. destruct (decide (k = s_id st)) as [->|Hne]; [done|].
      apply (saturated_at_frame k s); try done. simpl. by rewrite get_set_ne.
    + apply elem_of_cons in Hk as [->|Hk]; [by left|by right].
Qed.

Lemma reset_for_generate_accounted w s :
  (∀ e, e ∈ absent_employees s → e ∈ keys (employees s)) →
  accounted (reset_for_generate w s) ∧ flagged (reset_for_generate w s)
  ∧ ∀ k, saturated_at k (reset_for_generate w s).
Proof.
  intros Hab.
  pose proof (reset_for_generate_frame w s) as (Es & Ee & Eab & _ & _ & Eas).
  pose proof (reset_for_generate_available w s) as Eav.
  split_and!.
  - constructor; rewrite ?Eas, ?Eab, ?Ee, ?Eav; simpl; try done.
    + set_solver.
    + intros e He. destruct (decide (e ∈ absent_employees s)); [by right; left|].
      left. set_solver.
  - intros k a. by rewrite Eas.
  - intros k a st e emp. by rewrite Eas.
Qed.

Lemma generate_schedule_state today w s :
  (generate_schedule today w s).2
  = match stats_for today (assignment_logs (reset_for_generate w s)) with
    | Raise _ => reset_for_generate w s
    | Ok rs =>
        (staff_stations rs (sorted_stations (reset_for_generate w s))
           (reset_for_generate w s)).2
    end.
Proof.
  rewrite generate_schedule_unfold. cbv zeta.
  destruct (stats_for _ _) as [rs|e]; [|done].
  by destruct (staff_stations _ _ _) as [[[]|e] s'].
Qed.

Lemma generate_schedule_accounted today w s :
  keyed_by s_id (stations s) → keyed_by e_id (employees s) →
  (∀ e, e ∈ absent_employees s → e ∈ keys (employees s)) →
  let s' := (generate_schedule today w s).2 in
  accounted s' ∧ flagged s' ∧ ∀ k, saturated_at k s'.
Proof.
  intros Hs He Hab. simpl. rewrite generate_schedule_state.
  destruct (reset_for_generate_accounted w s Hab) as (Hac0 & Hfl0 & Hsat0).
  destruct (stats_for _ _) as [rs|e]; [|done].
  pose proof (reset_for_generate_Inv w s Hs He) as HI0.
  pose proof (reset_for_generate_frame w s) as (Es & _ & _ & _ & _ & Eas).
  destruct (staff_stations_accounted rs (sorted_stations (reset_for_generate w s))
              (reset_for_generate w s) HI0 Hac0 Hfl0) as (Hac & Hfl & Hsat).
  - intros x. unfold sorted_stations. by rewrite elem_of_sort_desc.
  - unfold sorted_stations. rewrite sort_desc_perm.
    rewrite Es, (keyed_by_values_ids s_id) by done. apply Hs.
  - intros st _. by rewrite Eas.
  - split_and!; try done. intros k. apply Hsat. by left.
Qed.

(** One turn of the loop of [rebalance_schedule] that assigns [emp]. *)
Lemma fill_step sid st s a emp q :
  Inv s → accounted s →
  get sid (stations s) = Some st → get sid (assignments s) = Some a →
  0 < unfilled_slots a →
  _get_qualified_employees s st None = Ok (emp :: q) →
  let s1 :=
    set_available (available_employees s ∖ {[emp]})
      (update_assignment sid
         (mkAssignment (station_id a) (assigned_employee_ids a ++ [emp])
            (is_fully_staffed a) (unfilled_slots a - 1)) s) in
  Inv s1 ∧ accounted s1.
Proof.
  intros HI Hac Hst Ha Hpos Hq. simpl.
  destruct (get_qualified_ok s st None) as (q' & Hq' & Hnd & Hmem); [apply HI|].
  rewrite Hq in Hq'. injection Hq' as <-.
  assert (emp ∈ available_employees s
          ∧ ∃ e, get emp (employees s) = Some e ∧ qualifies e st) as [Hav Hqual].
  { apply Hmem. left. }
  assert (emp ∉ assigned_employee_ids a) as Hfresh.
  { intros Hin. by destruct (cs_unavailable _ (proj2 HI) _ _ _ Ha Hin). }
  split.
  - apply (Inv_assign s sid st); simpl; try done.
    + apply (keyed_by_id_of station_id _ _ _ (wf_assignments _ (proj1 HI)) Ha).
    + apply NoDup_app. split_and!; [by apply (cs_nodup _ (proj2 HI) _ _ Ha)| |].
      * intros x Hx ->%list_elem_of_singleton. done.
      * apply NoDup_singleton.
    + set_solver.
    + intros e [He| ->%list_elem_of_singleton]%elem_of_app; [|set_solver].
      intros Hin. apply (cs_unavailable _ (proj2 HI) _ _ _ Ha He). set_solver.
    + intros e [He| ->%list_elem_of_singleton]%elem_of_app; [left; eauto|].
      right. done.
  - apply (accounted_assign s sid _ [emp]); simpl; try done.
    + intros e ->%list_elem_of_singleton. done.
    + set_solver.
    + intros e. rewrite Ha, elem_of_app. naive_solver.
    + intros st0 Hst0. left. rewrite length_app. simpl.
      destruct (ac_slots _ Hac _ _ _ Ha Hst0) as [?|[? _]]; lia.
    + left. lia.
Qed.

Lemma fill_gaps_accounted fuel st sid s :
  Inv s → accounted s →
  get sid (stations s) = Some st → is_Some (get sid (assignments s)) →
  let s' := (fill_gaps fuel st sid s).2 in
  accounted s'
  ∧ available_employees s' ⊆ available_employees s
  ∧ (∀ k, k ≠ sid → get k (assignments s') = get k (assignments s)).
Proof.
  revert s. induction fuel as [|fuel IH]; intros s HI Hac Hst [a Ha]; simpl.
  - done.
  - rewrite (the_assignment_get _ _ _ Ha).
    destruct (Z.ltb_spec 0 (unfilled_slots a)) as [Hpos|Hle]; [|done].
    destruct (_get_qualified_employees s st None) as [[|emp q]|e] eqn:Hq;
      [done| |done].
    destruct (fill_step sid st s a emp q HI Hac Hst Ha Hpos Hq) as [HI1 Hac1].
    simpl in HI1, Hac1.
    match type of HI1 with Inv ?t => set (s1 := t) in * end.
    destruct (IH s1 HI1 Hac1) as (Hac' & Hav' & Hfr').
    { done. }
    { subst s1. simpl. rewrite get_set_eq. eauto. }
    split_and!; try done.
    + etrans; [exact Hav'|]. subst s1. simpl. set_solver.
    + intros k Hne. rewrite Hfr' by done. subst s1. simpl.
      by rewrite get_set_ne.
Qed.

Lemma accounted_update s sid a' :
  accounted s →
  (∀ e, e ∈ assigned_employee_ids a' ↔
        ∃ a, get sid (assignments s) = Some a ∧ e ∈ assigned_employee_ids a) →
  (∀ st, get sid (stations s) = Some st →
     unfilled_slots a' + Z.of_nat (length (assigned_employee_ids a'))
     = required_headcount st
     ∨ (unfilled_slots a' = 0 ∧ assigned_employee_ids a' = [])) →
  (0 ≤ unfilled_slots a' ∨ assigned_employee_ids a' = []) →
  accounted (update_assignment sid a' s).
Proof.
  intros Hac Hids Hsl Hnn.
  replace (update_assignment sid a' s)
    with (set_available (available_employees s) (update_assignment sid a' s))
    by (by destruct s).
  apply (accounted_assign s sid a' []); try done.
  - by intros e ?%elem_of_nil.
  - set_solver.
  - intros e. rewrite Hids. split; [by left|]. intros [?|?%elem_of_nil]; done.
Qed.

Lemma rebalance_accounted sid s :
  Inv s → accounted s → flagged s → is_Some (get sid (stations s)) →
  let s' := (rebalance_schedule sid s).2 in
  accounted s' ∧ flagged s' ∧ saturated_at sid s'
  ∧ available_employees s' ⊆ available_employees s
  ∧ (∀ k, k ≠ sid → get k (assignments s') = get k (assignments s)).
Proof.
  intros HI Hac Hfl [st Hst]. unfold rebalance_schedule. rewrite Hst.
  set (s0 := match get sid (assignments s) with
             | Some _ => s
             | None => update_assignment sid (new_Assignment sid) s
             end).
  assert (Inv s0 ∧ accounted s0
          ∧ stations s0 = stations s ∧ employees s0 = employees s
          ∧ available_employees s0 = available_employees s
          ∧ is_Some (get sid (assignments s0))
          ∧ (∀ k, k ≠ sid → get k (assignments s0) = get k (assignments s)))
    as (HI0 & Hac0 & Es0 & Ee0 & Ev0 & Hsome0 & Hfr0).
  { subst s0. destruct (get sid (assignments s)) as [a|] eqn:Ha.
    - split_and!; eauto.
    - split_and!; try done.
      + apply Inv_new_assignment; eauto.
      + apply accounted_update; simpl; try done.
        * intros e. rewrite Ha. split; [by intros ?%elem_of_nil|].
          by intros (? & ? & _).
        * intros st0 _. by right.
        * by right.
      + simpl. rewrite get_set_eq. eauto.
      + intros k Hne. simpl. by rewrite get_set_ne. }
  assert (get sid (stations s0) = Some st) as Hst0 by (by rewrite Es0).
  destruct (fill_gaps_spec (Z.to_nat (unfilled_slots (the_assignment sid s0)))
              st sid s0 HI0 Hst0 Hsome0)
    as (s1 & Hrun & HI1 & (Es1 & Ee1 & _) & _ & [a1 Ha1] & Hexit).
  destruct (fill_gaps_accounted (Z.to_nat (unfilled_slots (the_assignment sid s0)))
              st sid s0 HI0 Hac0 Hst0 Hsome0) as (Hac1 & Hav1 & Hfr1).
  rewrite Hrun in *. simpl in Hac1, Hav1, Hfr1 |- *.
  rewrite (the_assignment_get _ _ _ Ha1) in *.
  split_and!.
  - apply accounted_update; simpl; try done.
    + intros e. rewrite Ha1. naive_solver.
    + intros st0 Hst0'. by apply (ac_slots _ Hac1 sid).
    + by apply (ac_nonneg _ Hac1 sid).
  - intros k a. simpl. destruct (decide (sid = k)) as [<-|Hne].
    + rewrite get_set_eq. by intros [= <-].
    + rewrite get_set_ne, Hfr1, Hfr0 by done. apply Hfl.
  - intros a st0 e emp. simpl. rewrite get_set_eq, Es1, Es0, Hst.
    intros [= <-] [= <-]. simpl. intros Hopen He Hemp Hq.
    destruct Hexit as [Hle|Hnone]; [lia|lia|].
    destruct (get_qualified_ok s1 st None) as (q & Hq' & _ & Hmem); [apply HI1|].
    rewrite Hnone in Hq'. injection Hq' as <-.
    apply (elem_of_nil e), Hmem. eauto.
  - simpl. by rewrite <- Ev0.
  - intros k Hne. simpl. by rewrite get_set_ne, Hfr1, Hfr0.
Qed.

Lemma remove_first_other x y l : x ≠ y → y ∈ l → y ∈ remove_first x l.
Proof.
  intros Hne. induction l as [|z l IH]; simpl; [done|].
  intros [->|Hin]%elem_of_cons.
  - rewrite decide_False by done. left.
  - destruct (decide (x = z)); [done|]. right. auto.
Qed.

Lemma remove_first_gone x l : NoDup l → x ∉ remove_first x l.
Proof.
  induction l as [|z l IH]; simpl; [by intros _ ?%elem_of_nil|].
  intros [Hz Hnd]%NoDup_cons. destruct (decide (x = z)) as [->|Hne]; [done|].
  rewrite not_elem_of_cons. auto.
Qed.

Lemma remove_first_length x l :
  x ∈ l → S (length (remove_first x l)) = length l.
Proof.
  induction l as [|z l IH]; simpl; [by intros ?%elem_of_nil|].
  destruct (decide (x = z)) as [->|Hne]; [done|].
  intros [?|Hin]%elem_of_cons; [done|]. simpl. by rewrite IH.
Qed.

Lemma unassign_absent e a :
  e ∉ assigned_employee_ids a → unassign e a = a.
Proof. intros Hn. unfold unassign. by rewrite bool_decide_eq_false_2. Qed.

Lemma affected_by_elem e (d : dict Assignment) k a :
  get k d = Some a → e ∈ assigned_employee_ids a → k ∈ affected_by e d.
Proof.
  intros Hg He. unfold affected_by, keys.
  apply list_elem_of_fmap. exists (k, a). split; [done|].
  apply list_elem_of_filter. split; [done|]. by apply get_Some_elem.
Qed.

Lemma mark_absent_accounted e s :
  Inv s → accounted s → flagged s → e ∈ keys (employees s) →
  accounted (mark_absent e s) ∧ flagged (mark_absent e s)
  ∧ (∀ k, saturated_at k s → k ∉ affected_by e (assignments s) →
          saturated_at k (mark_absent e s)).
Proof.
  intros HI [Hk Hap Hasp Hcov Hsl Hnn] Hfl He.
  split_and!.
  - constructor; simpl.
    + intros x [Hx| ->%elem_of_singleton]%elem_of_union; auto.
    + intros x Hx. apply elem_of_difference in Hx as [Hx Hne].
      rewrite not_elem_of_union. split; [by apply Hap|done].
    + intros k a x. rewrite get_fmap_values.
      intros (b & Hb & ->)%fmap_Some Hx.
      assert (x ∈ assigned_employee_ids b) as Hxb
        by exact (elem_of_sublist _ _ _ Hx (unassign_sublist _ _)).
      rewrite not_elem_of_union. split; [by eapply Hasp|].
      intros ->%elem_of_singleton. revert Hx. unfold unassign.
      rewrite bool_decide_eq_true_2 by done. simpl.
      apply remove_first_gone, (cs_nodup _ (proj2 HI) _ _ Hb).
    + intros x Hx. destruct (decide (x = e)) as [->|Hne].
      { right. left. set_solver. }
      destruct (Hcov x Hx) as [Hav|[Hab|(k & a & Ha & Hin)]].
      * left. set_solver.
      * right. left. set_solver.
      * right. right. exists k, (unassign e a).
        rewrite get_fmap_values, Ha. split; [done|].
        unfold unassign. case_bool_decide; simpl; [|done].
        by apply remove_first_other.
    + intros k a st. rewrite get_fmap_values.
      intros (b & Hb & ->)%fmap_Some Hst.
      unfold unassign. case_bool_decide as Hin; simpl; [|by eapply Hsl].
      pose proof (remove_first_length _ _ Hin) as Hlen.
      destruct (Hsl k b st Hb Hst) as [?|[_ Hnil]]; [left; lia|].
      rewrite Hnil in Hin. by apply elem_of_nil in Hin.
    + intros k a. rewrite get_fmap_values.
      intros (b & Hb & ->)%fmap_Some.
      unfold unassign. case_bool_decide as Hin; simpl; [|by eapply Hnn].
      destruct (Hnn k b Hb) as [?|Hnil]; [left; lia|].
      rewrite Hnil in Hin. by apply elem_of_nil in Hin.
  - intros k a. simpl. rewrite get_fmap_values.
    intros (b & Hb & ->)%fmap_Some.
    unfold unassign. case_bool_decide as Hin; simpl; [|by eapply Hfl].
    destruct (Hnn k b Hb) as [?|Hnil].
    + symmetry. apply Z.eqb_neq. lia.
    + rewrite Hnil in Hin. by apply elem_of_nil in Hin.
  - intros k Hsat Hna a st x emp. simpl. rewrite get_fmap_values.
    intros (b & Hb & ->)%fmap_Some Hst.
    rewrite unassign_absent.
    + intros Hopen Hx. eapply Hsat; eauto. set_solver.
    + intros Hin. apply Hna. by eapply affected_by_elem.
Qed.

Lemma rebalance_each_accounted sids s :
  Inv s → accounted s → flagged s →
  (∀ k, k ∈ sids → k ∈ keys (stations s)) →
  (∀ k, k ∉ sids → saturated_at k s) →
  let s' := (rebalance_each sids s).2 in
  accounted s' ∧ flagged s' ∧ ∀ k, saturated_at k s'.
Proof.
  revert s. induction sids as [|sid sids IH]; intros s HI Hac Hfl Hk Hsat; simpl.
  - split_and!; try done. intros k. apply Hsat, not_elem_of_nil.
  - assert (is_Some (get sid (stations s))) as Hsid.
    { apply get_is_Some, Hk. left. }
    destruct (rebalance_known sid s HI Hsid)
      as (b & s1 & Hrun & HI1 & (Es1 & Ee1 & _) & _).
    destruct (rebalance_accounted sid s HI Hac Hfl Hsid)
      as (Hac1 & Hfl1 & Hsat1 & Hav1 & Hfr1).
    rewrite Hrun in *. simpl in Hac1, Hfl1, Hsat1, Hav1, Hfr1.
    apply (IH s1 HI1 Hac1 Hfl1).
    + intros k Hin. rewrite Es1. apply Hk. by right.
    + intros k Hnin. destruct (decide (k = sid)) as [->|Hne]; [done|].
      apply (saturated_at_frame k s); auto.
      apply Hsat. rewrite not_elem_of_cons. done.
Qed.

Lemma handle_absence_state e s :
  e ∈ keys (employees s) →
  (handle_absence e s).2
  = (rebalance_each (affected_by e (assignments s)) (mark_absent e s)).2.
Proof.
  intros He. rewrite handle_absence_found by by apply contains_true.
  by destruct (rebalance_each _ _) as [[[]|x] s'].
Qed.

Lemma handle_absence_Kept e s : Inv s → Kept s → Kept (handle_absence e s).2.
Proof.
  intros HI (Hac & Hfl & Hsat).
  destruct (contains e (employees s)) eqn:Hc.
  - apply contains_true in Hc. rewrite handle_absence_state by done.
    destruct (mark_absent_accounted e s HI Hac Hfl Hc) as (Hac1 & Hfl1 & Hsat1).
    apply rebalance_each_accounted; auto.
    + by apply mark_absent_Inv.
    + intros k Hin%affected_by_keys. simpl.
      by apply (wf_assigned_known _ (proj1 HI)).
  - by rewrite handle_absence_unknown.
Qed.

Lemma rebalance_Kept sid s : Inv s → Kept s → Kept (rebalance_schedule sid s).2.
Proof.
  intros HI (Hac & Hfl & Hsat).
  destruct (get sid (stations s)) as [st|] eqn:Hst.
  - assert (is_Some (get sid (stations s))) as Hsid by eauto.
    destruct (rebalance_known sid s HI Hsid)
      as (b & s1 & Hrun & HI1 & (Es1 & Ee1 & _) & _).
    destruct (rebalance_accounted sid s HI Hac Hfl Hsid)
      as (Hac1 & Hfl1 & Hsat1 & Hav1 & Hfr1).
    rewrite Hrun in *. simpl in *. split_and!; try done.
    intros k. destruct (decide (k = sid)) as [->|Hne]; [done|].
    apply (saturated_at_frame k s); auto.
  - by rewrite rebalance_unknown.
Qed.

Lemma init_Kept sts emps : Kept (init sts emps).
Proof.
  split_and!.
  - constructor; simpl; try done.
    intros e He. left. by apply elem_of_list_to_set.
  - by intros k a.
  - by intros k a st e emp.
Qed.

Lemma set_logs_Kept logs s : Kept s → Kept (set_logs logs s).
Proof. intros ([] & Hfl & Hsat). split_and!; [by constructor|done..]. Qed.

Lemma reachable_Kept s : reachable s → Kept s.
Proof.
  induction 1 as [sts emps|s logs Hr IH|s today w Hr IH|s e Hr IH|s sid Hr IH].
  - apply init_Kept.
  - by apply set_logs_Kept.
  - apply reachable_Inv in Hr as [Hwf _].
    apply generate_schedule_accounted; [apply Hwf..|]. apply IH.
  - apply handle_absence_Kept; [by apply reachable_Inv|done].
  - apply rebalance_Kept; [by apply reachable_Inv|done].
Qed.

Lemma reachable_get s k a :
  reachable s → (k, a) ∈ assignments s → get k (assignments s) = Some a.
Proof.
  intros [Hwf _]%reachable_Inv Hin. apply elem_get; [|done].
  apply (wf_assignments _ Hwf).
Qed.

Lemma absent_employees_are_not_scheduled_aux s :
  reachable s →
  ∀ e, e ∈ absent_employees s →
    e ∈ keys (employees s)
    ∧ (e ∉ available_employees s)
    ∧ (∀ k a, (k, a) ∈ assignments s → e ∉ assigned_employee_ids a).
Proof.
  intros Hr e He. destruct (reachable_Kept s Hr) as (Hac & _).
  split_and!.
  - by apply (ac_absent_known _ Hac).
  - intros Hav. by apply (ac_available_present _ Hac e).
  - intros k a Hin Hasg.
    apply (ac_assigned_present _ Hac k a e); [(by apply reachable_get)|done..].
Qed.

(** X1.  In every reachable state an absent employee is a known employee
    who is neither available nor assigned to any station. *)
Theorem absent_employees_are_not_scheduled s :
  reachable s →
  ∀ e, e ∈ absent_employees s →
    e ∈ keys (employees s)
    ∧ (e ∉ available_employees s)
    ∧ (∀ k a, (k, a) ∈ assignments s → e ∉ assigned_employee_ids a).
Proof. exact (absent_employees_are_not_scheduled_aux s). Qed.

(** X2.  In every reachable state the ids that are available, absent or
    assigned are exactly the ids of the employees, and an available
    employee is not assigned. *)
Theorem every_employee_is_accounted_for s :
  reachable s →
  (∀ e, e ∈ keys (employees s) ↔
        e ∈ available_employees s ∨ e ∈ absent_employees s
        ∨ ∃ k a, (k, a) ∈ assignments s ∧ e ∈ assigned_employee_ids a)
  ∧ (∀ e k a, e ∈ available_employees s → (k, a) ∈ assignments s →
       e ∉ assigned_employee_ids a).
Proof.
  intros Hr. destruct (reachable_Kept s Hr) as (Hac & _).
  destruct (reachable_Inv s Hr) as [Hwf Hcs]. split.
  - intros e. split.
    + intros He. destruct (ac_covered _ Hac e He) as [?|[?|(k & a & Ha & Hin)]];
        [by left|right; by left|].
      right. right. exists k, a. split; [by apply get_Some_elem|done].
    + intros [Hav|[Hab|(k & a & Ha & Hin)]].
      * by apply (wf_available_known _ Hwf).
      * by apply (ac_absent_known _ Hac).
      * apply (reachable_get s k a Hr) in Ha.
        destruct (cs_qualified _ Hcs k a e Ha Hin) as (st & emp & _ & Hemp & _).
        apply get_is_Some. eauto.
  - intros e k a Hav Ha Hin. apply (reachable_get s k a Hr) in Ha.
    by apply (cs_unavailable _ Hcs k a e Ha Hin).
Qed.

(** X3.  In every reachable state [is_fully_staffed] is true exactly for
    the assignments whose [unfilled_slots] is 0. *)
Theorem fully_staffed_flag_matches_slot_count s :
  reachable s →
  ∀ k a, (k, a) ∈ assignments s →
    (is_fully_staffed a = true ↔ unfilled_slots a = 0).
Proof.
  intros Hr k a Hin. destruct (reachable_Kept s Hr) as (_ & Hfl & _).
  rewrite (Hfl k a (reachable_get s k a Hr Hin)). apply Z.eqb_eq.
Qed.

(** X4.  In every reachable state the unfilled slots and the assigned
    employees of a station add up to its required headcount, unless the
    assignment is empty with no unfilled slot; when the headcount is not
    negative, neither is [unfilled_slots], and the station holds at most
    its headcount. *)
Theorem slots_add_up_to_headcount s :
  reachable s →
  ∀ k a, (k, a) ∈ assignments s →
    ∃ st, get k (stations s) = Some st
      ∧ (unfilled_slots a + Z.of_nat (length (assigned_employee_ids a))
         = required_headcount st
         ∨ (unfilled_slots a = 0 ∧ assigned_employee_ids a = []))
      ∧ (0 ≤ required_headcount st →
         0 ≤ unfilled_slots a
         ∧ Z.of_nat (length (assigned_employee_ids a)) ≤ required_headcount st).
Proof.
  intros Hr k a Hin. destruct (reachable_Kept s Hr) as (Hac & _).
  destruct (reachable_Inv s Hr) as [Hwf _].
  assert (is_Some (get k (stations s))) as [st Hst].
  { apply get_is_Some, (wf_assigned_known _ Hwf).
    unfold keys. apply list_elem_of_fmap. by exists (k, a). }
  apply (reachable_get s k a Hr) in Hin.
  exists st. split; [done|].
  pose proof (ac_slots _ Hac k a st Hin Hst) as Hsl.
  pose proof (ac_nonneg _ Hac k a Hin) as Hnn.
  split; [done|]. intros Hh.
  destruct Hsl as [?|[? Hnil]], Hnn as [?|Hnil']; rewrite ?Hnil, ?Hnil' in *;
    simpl in *; lia.
Qed.

(** [is_qualified] reads the competency at the key it was called with. *)
Lemma is_qualified_true_iff emp_id sid s :
  is_qualified emp_id sid s = Ok true ↔
  ∃ emp st, get emp_id (employees s) = Some emp ∧ get sid (stations s) = Some st
            ∧ required_certification st ≤ certification_level emp
            ∧ required_skill_level st ≤ get_competency emp sid.
Proof.
  unfold is_qualified.
  destruct (get emp_id (employees s)) as [emp|] eqn:Hemp.
  2:{ assert (contains emp_id (employees s) = false) as ->.
      { by apply contains_false, get_None. }
      simpl. split; [done|]. by intros (? & ? & ? & _). }
  assert (contains emp_id (employees s) = true) as ->.
  { apply contains_true, get_is_Some. eauto. }
  destruct (get sid (stations s)) as [st|] eqn:Hst.
  2:{ assert (contains sid (stations s) = false) as ->.
      { by apply contains_false, get_None. }
      simpl. split; [done|]. by intros (? & ? & _ & ? & _). }
  assert (contains sid (stations s) = true) as ->.
  { apply contains_true, get_is_Some. eauto. }
  simpl. unfold getitem. rewrite Hemp, Hst. simpl.
  split.
  - intros [= [H1%Z.leb_le H2%Z.leb_le]%andb_true_iff]. eauto 10.
  - intros (emp' & st' & [= <-] & [= <-] & H1%Z.leb_le & H2%Z.leb_le).
    by rewrite H1, H2.
Qed.

(** X5.  Over stations keyed by their id, [is_qualified] answers [True]
    exactly when both ids are known and the employee passes the gate that
    [_get_qualified_employees] applies to that station, which reads the
    competency at [station.id] where [is_qualified] reads it at the key
    it was given. *)
Theorem is_qualified_iff_passes_the_gate emp_id sid s :
  keyed_by s_id (stations s) →
  is_qualified emp_id sid s = Ok true ↔
  ∃ emp st, get emp_id (employees s) = Some emp ∧ get sid (stations s) = Some st
            ∧ qualifies emp st.
Proof.
  intros Hs. rewrite is_qualified_true_iff. unfold qualifies.
  split.
  - intros (emp & st & Hemp & Hst & H1 & H2). exists emp, st.
    rewrite (keyed_by_id_of _ _ _ _ Hs Hst). done.
  - intros (emp & st & Hemp & Hst & H1 & H2). exists emp, st.
    rewrite (keyed_by_id_of _ _ _ _ Hs Hst) in H2. done.
Qed.

(** X6.  In every reachable state a station with an open slot has no
    available employee that [is_qualified] for it: the engine leaves a
    slot open only when nobody available can take it. *)
Theorem open_slot_has_no_available_candidate s :
  reachable s →
  ∀ k a e, (k, a) ∈ assignments s → 0 < unfilled_slots a →
    e ∈ available_employees s → is_qualified e k s = Ok false.
Proof.
  intros Hr k a e Hin Hopen Hav.
  destruct (reachable_Kept s Hr) as (_ & _ & Hsat).
  destruct (reachable_Inv s Hr) as [Hwf _].
  destruct (is_qualified_total e k s) as [[] Hb]; [|done].
  apply is_qualified_true_iff in Hb as (emp & st & Hemp & Hst & Hc & Hk).
  destruct (Hsat k a st e emp); try done.
  - by apply reachable_get.
  - split; [done|].
    by rewrite (keyed_by_id_of s_id _ _ _ (wf_stations _ Hwf) Hst).
Qed.

Lemma affected_by_none e (d : dict Assignment) :
  (∀ k a, (k, a) ∈ d → e ∉ assigned_employee_ids a) → affected_by e d = [].
Proof.
  intros Hn. unfold affected_by, keys, dict in *.
  induction d as [|[k a] d IH]; [done|].
  rewrite filter_cons. simpl. rewrite decide_False.
  - apply IH. intros k' a' Hin. apply (Hn k'). by right.
  - apply (Hn k). left.
Qed.

Lemma unassign_none e (d : dict Assignment) :
  (∀ k a, (k, a) ∈ d → e ∉ assigned_employee_ids a) →
  prod_map id (unassign e) <$> d = d.
Proof.
  intros Hn. induction d as [|[k a] d IH]; csimpl; [done|].
  rewrite unassign_absent by (apply (Hn k); left).
  f_equal. apply IH. intros k' a' Hin. apply (Hn k'). by right.
Qed.

(** X7.  In every reachable state, reporting absent an employee who is
    absent already affects no station and changes nothing. *)
Theorem repeated_absence_changes_nothing s e :
  reachable s → e ∈ absent_employees s →
  handle_absence e s = (Ok [], s).
Proof.
  intros Hr He.
  destruct (absent_employees_are_not_scheduled_aux s Hr e He) as (Hk & Hav & Hasg).
  rewrite handle_absence_found by by apply contains_true.
  rewrite (affected_by_none e _ Hasg). simpl.
  unfold mark_absent. simpl. rewrite (unassign_none e _ Hasg).
  replace (absent_employees s ∪ {[e]}) with (absent_employees s) by set_solver.
  replace (available_employees s ∖ {[e]}) with (available_employees s)
    by set_solver.
  by destruct s.
Qed.

Lemma set_set {V} k (v v' : V) (d : dict V) : set k v (set k v' d) = set k v d.
Proof.
  induction d as [|[k0 v0] d IH]; simpl.
  - by rewrite decide_True.
  - destruct (decide (k = k0)) as [->|Hne]; simpl.
    + by rewrite decide_True.
    + rewrite decide_False by done. by rewrite IH.
Qed.

(** X8.  [rebalance_schedule] on a known station that has no assignment
    yet assigns nobody: it stores an empty assignment with no unfilled
    slot and reports the station fully staffed, whatever its headcount. *)
Theorem rebalance_of_unscheduled_station_assigns_nobody sid s st :
  get sid (stations s) = Some st → get sid (assignments s) = None →
  rebalance_schedule sid s
  = (Ok true, update_assignment sid (mkAssignment sid [] true 0) s).
Proof.
  intros Hst Ha. unfold rebalance_schedule. rewrite Hst, Ha.
  unfold the_assignment. simpl. rewrite get_set_eq. simpl.
  unfold the_assignment, update_assignment. simpl.
  rewrite get_set_eq. simpl. by rewrite set_set.
Qed.

Lemma reset_for_generate_ext w s1 s2 :
  stations s1 = stations s2 → employees s1 = employees s2 →
  absent_employees s1 = absent_employees s2 →
  assignment_logs s1 = assignment_logs s2 →
  default (scenario s1) w = default (scenario s2) w →
  reset_for_generate w s1 = reset_for_generate w s2.
Proof.
  destruct s1, s2, w; simpl; intros; subst; reflexivity.
Qed.

(** [generate_schedule] looks at the stations, the employees, the absent
    set, the history and the scenario only. *)
Lemma generate_schedule_ext today w s1 s2 :
  stations s1 = stations s2 → employees s1 = employees s2 →
  absent_employees s1 = absent_employees s2 →
  assignment_logs s1 = assignment_logs s2 →
  default (scenario s1) w = default (scenario s2) w →
  generate_schedule today w s1 = generate_schedule today w s2.
Proof.
  intros. rewrite !generate_schedule_unfold. cbv zeta.
  by rewrite (reset_for_generate_ext w s1 s2).
Qed.

(** X9.  [generate_schedule] starts from scratch: run again on the state
    it left, with the same scenario on the same day, it returns the same
    assignments and leaves the same state. *)
Theorem regenerating_gives_the_same_schedule today w s :
  keyed_by s_id (stations s) → keyed_by e_id (employees s) →
  generate_schedule today w (generate_schedule today w s).2
  = generate_schedule today w s.
Proof.
  intros Hs He.
  destruct (generate_schedule_spec today w s Hs He)
    as (s' & Hrun & _ & Es & Ee & Eab & Elg & Esc & _).
  rewrite Hrun. simpl. rewrite <- Hrun.
  apply generate_schedule_ext; try done.
  rewrite Esc. by destruct w.
Qed.

Lemma affected_by_iff e (d : dict Assignment) k :
  k ∈ affected_by e d ↔ ∃ a, (k, a) ∈ d ∧ e ∈ assigned_employee_ids a.
Proof.
  unfold affected_by, keys. rewrite list_elem_of_fmap. split.
  - intros ([k' a] & -> & [He Hin]%list_elem_of_filter). eauto.
  - intros (a & Hin & He). exists (k, a). split; [done|].
    by apply list_elem_of_filter.
Qed.

Lemma affected_by_NoDup e (d : dict Assignment) :
  NoDup (keys d) → NoDup (affected_by e d).
Proof.
  unfold affected_by, keys, dict in *.
  induction d as [|[k a] d IH]; csimpl; [done|].
  intros [Hk Hnd]%NoDup_cons. rewrite filter_cons. simpl.
  destruct (decide (e ∈ assigned_employee_ids a)); csimpl; [|by apply IH].
  apply NoDup_cons. split; [|by apply IH].
  intros ([k' a'] & -> & [_ Hin]%list_elem_of_filter)%list_elem_of_fmap.
  apply Hk. apply list_elem_of_fmap. by exists (k', a').
Qed.

Lemma NoDup_all_eq_length {A} (l : list A) :
  NoDup l → (∀ x y, x ∈ l → y ∈ l → x = y) → (length l ≤ 1)%nat.
Proof.
  intros Hnd Heq. destruct l as [|a [|b l]]; simpl; [lia..|].
  apply NoDup_cons in Hnd as [Hn _]. destruct Hn.
  rewrite (Heq a b); [left|left|right; left].
Qed.

(** X10.  In a reachable state [handle_absence] of a known employee
    returns the stations that held the employee, at most one, adds the
    employee to the absent set, and changes neither stations nor
    employees. *)
Theorem handle_absence_reports_the_station_left s e :
  reachable s → e ∈ keys (employees s) →
  ∃ affected s',
    handle_absence e s = (Ok affected, s')
    ∧ (length affected ≤ 1)%nat
    ∧ (∀ k, k ∈ affected ↔
            ∃ a, (k, a) ∈ assignments s ∧ e ∈ assigned_employee_ids a)
    ∧ absent_employees s' = absent_employees s ∪ {[e]}
    ∧ stations s' = stations s ∧ employees s' = employees s.
Proof.
  intros Hr He. pose proof (reachable_Inv s Hr) as HI.
  destruct (handle_absence_known e s HI He) as (s' & Hrun & _ & (Es & Ee & _) & Eab).
  exists (affected_by e (assignments s)), s'. split_and!; try done.
  - apply NoDup_all_eq_length.
    + apply affected_by_NoDup, (wf_assignments _ (proj1 HI)).
    + intros k1 k2 (a1 & H1 & He1)%affected_by_iff (a2 & H2 & He2)%affected_by_iff.
      apply (reachable_get s _ _ Hr) in H1, H2.
      by eapply (cs_disjoint _ (proj2 HI)).
  - apply affected_by_iff.
Qed.

(** ** The properties above on the example rosters *)

Lemma absent_employees_are_not_scheduled_witness :
  reachable ex_after_absence
  ∧ ∀ e, e ∈ absent_employees ex_after_absence →
      e ∈ keys (employees ex_after_absence)
      ∧ (e ∉ available_employees ex_after_absence)
      ∧ (∀ k a, (k, a) ∈ assignments ex_after_absence →
                e ∉ assigned_employee_ids a).
Proof.
  assert (reachable ex_after_absence) as H.
  { unfold ex_after_absence, ex_scheduled, ex_state.
    apply reach_absence, reach_logs, reach_generate, reach_init. }
  split; [exact H|].
  exact (absent_employees_are_not_scheduled ex_after_absence H).
Defined.

Lemma every_employee_is_accounted_for_witness :
  reachable ex_after_absence
  ∧ (∀ e, e ∈ keys (employees ex_after_absence) ↔
          e ∈ available_employees ex_after_absence
          ∨ e ∈ absent_employees ex_after_absence
          ∨ ∃ k a, (k, a) ∈ assignments ex_after_absence
                   ∧ e ∈ assigned_employee_ids a)
  ∧ (∀ e k a, e ∈ available_employees ex_after_absence →
       (k, a) ∈ assignments ex_after_absence → e ∉ assigned_employee_ids a).
Proof.
  assert (reachable ex_after_absence) as H.
  { unfold ex_after_absence, ex_scheduled, ex_state.
    apply reach_absence, reach_logs, reach_generate, reach_init. }
  split; [exact H|].
  exact (every_employee_is_accounted_for ex_after_absence H).
Defined.

Lemma fully_staffed_flag_matches_slot_count_witness :
  reachable ex_after_absence
  ∧ ∀ k a, (k, a) ∈ assignments ex_after_absence →
      (is_fully_staffed a = true ↔ unfilled_slots a = 0).
Proof.
  assert (reachable ex_after_absence) as H.
  { unfold ex_after_absence, ex_scheduled, ex_state.
    apply reach_absence, reach_logs, reach_generate, reach_init. }
  split; [exact H|].
  exact (fully_staffed_flag_matches_slot_count ex_after_absence H).
Defined.

Lemma slots_add_up_to_headcount_witness :
  reachable ex_after_absence
  ∧ ∀ k a, (k, a) ∈ assignments ex_after_absence →
      ∃ st, get k (stations ex_after_absence) = Some st
        ∧ (unfilled_slots a + Z.of_nat (length (assigned_employee_ids a))
           = required_headcount st
           ∨ (unfilled_slots a = 0 ∧ assigned_employee_ids a = []))
        ∧ (0 ≤ required_headcount st →
           0 ≤ unfilled_slots a
           ∧ Z.of_nat (length (assigned_employee_ids a)) ≤ required_headcount st).
Proof.
  assert (reachable ex_after_absence) as H.
  { unfold ex_after_absence, ex_scheduled, ex_state.
    apply reach_absence, reach_logs, reach_generate, reach_init. }
  split; [exact H|].
  exact (slots_add_up_to_headcount ex_after_absence H).
Defined.

Lemma is_qualified_iff_passes_the_gate_witness :
  keyed_by s_id (stations ex_state)
  ∧ (is_qualified "bob" "general" ex_state = Ok true ↔
     ∃ emp st, get "bob" (employees ex_state) = Some emp
               ∧ get "general" (stations ex_state) = Some st
               ∧ qualifies emp st).
Proof.
  assert (keyed_by s_id (stations ex_state)) as H.
  { apply (bool_decide_unpack _). vm_compute. exact I. }
  split; [exact H|].
  exact (is_qualified_iff_passes_the_gate "bob" "general" ex_state H).
Defined.

Lemma open_slot_has_no_available_candidate_witness :
  reachable ex_contested_scheduled
  ∧ ("low", mkAssignment "low" [] false 1) ∈ assignments ex_contested_scheduled
  ∧ 0 < unfilled_slots (mkAssignment "low" [] false 1)
  ∧ "dave" ∈ available_employees ex_contested_scheduled
  ∧ is_qualified "dave" "low" ex_contested_scheduled = Ok false.
Proof.
  assert (reachable ex_contested_scheduled) as H.
  { unfold ex_contested_scheduled, ex_contested.
    apply reach_generate, reach_init. }
  assert (("low", mkAssignment "low" [] false 1)
          ∈ assignments ex_contested_scheduled) as H1.
  { apply (list_elem_of_lookup_2 _ 1%nat). vm_compute. reflexivity. }
  assert (0 < unfilled_slots (mkAssignment "low" [] false 1)) as H2.
  { reflexivity. }
  assert ("dave" ∈ available_employees ex_contested_scheduled) as H3.
  { apply (bool_decide_unpack _). vm_compute. exact I. }
  split; [exact H|]. split; [exact H1|]. split; [exact H2|].
  split; [exact H3|].
  exact (open_slot_has_no_available_candidate ex_contested_scheduled H
           "low" _ "dave" H1 H2 H3).
Defined.

Lemma repeated_absence_changes_nothing_witness :
  reachable ex_after_absence ∧ "alice" ∈ absent_employees ex_after_absence
  ∧ handle_absence "alice" ex_after_absence = (Ok [], ex_after_absence).
Proof.
  assert (reachable ex_after_absence) as H.
  { unfold ex_after_absence, ex_scheduled, ex_state.
    apply reach_absence, reach_logs, reach_generate, reach_init. }
  assert ("alice" ∈ absent_employees ex_after_absence) as H2.
  { apply (bool_decide_unpack _). vm_compute. exact I. }
  split; [exact H|]. split; [exact H2|].
  exact (repeated_absence_changes_nothing ex_after_absence "alice" H H2).
Defined.

Lemma rebalance_of_unscheduled_station_assigns_nobody_witness :
  get "critical" (stations ex_state) = Some ex_critical
  ∧ get "critical" (assignments ex_state) = None
  ∧ rebalance_schedule "critical" ex_state
    = (Ok true,
       update_assignment "critical" (mkAssignment "critical" [] true 0) ex_state).
Proof.
  assert (get "critical" (stations ex_state) = Some ex_critical) as H1.
  { vm_compute. reflexivity. }
  assert (get "critical" (assignments ex_state) = None) as H2.
  { reflexivity. }
  split; [exact H1|]. split; [exact H2|].
  exact (rebalance_of_unscheduled_station_assigns_nobody "critical" ex_state
           ex_critical H1 H2).
Defined.

Lemma regenerating_gives_the_same_schedule_witness :
  keyed_by s_id (stations ex_state) ∧ keyed_by e_id (employees ex_state)
  ∧ generate_schedule 739924 None (generate_schedule 739924 None ex_state).2
    = generate_schedule 739924 None ex_state.
Proof.
  assert (keyed_by s_id (stations ex_state)) as H1.
  { apply (bool_decide_unpack _). vm_compute. exact I. }
  assert (keyed_by e_id (employees ex_state)) as H2.
  { apply (bool_decide_unpack _). vm_compute. exact I. }
  split; [exact H1|]. split; [exact H2|].
  exact (regenerating_gives_the_same_schedule 739924 None ex_state H1 H2).
Defined.

Lemma handle_absence_reports_the_station_left_witness :
  reachable ex_scheduled ∧ "alice" ∈ keys (employees ex_scheduled)
  ∧ ∃ affected s',
      handle_absence "alice" ex_scheduled = (Ok affected, s')
      ∧ (length affected ≤ 1)%nat
      ∧ (∀ k, k ∈ affected ↔
              ∃ a, (k, a) ∈ assignments ex_scheduled
                   ∧ "alice" ∈ assigned_employee_ids a)
      ∧ absent_employees s' = absent_employees ex_scheduled ∪ {["alice"]}
      ∧ stations s' = stations ex_scheduled
      ∧ employees s' = employees ex_scheduled.
Proof.
  assert (reachable ex_scheduled) as H.
  { unfold ex_scheduled, ex_state. apply reach_generate, reach_init. }
  assert ("alice" ∈ keys (employees ex_scheduled)) as H2.
  { apply (bool_decide_unpack _). vm_compute. exact I. }
  split; [exact H|]. split; [exact H2|].
  exact (handle_absence_reports_the_station_left ex_scheduled "alice" H H2).
Defined.

(** ** Rebalancing a station that is already scheduled *)

Lemma set_same {V} k (v : V) (d : dict V) : get k d = Some v → set k v d = d.
Proof.
  induction d as [|[k' v'] d IH]; simpl; [done|].
  destruct (decide (k = k')) as [->|Hne]; [by intros [= ->]|].
  intros Hg. by rewrite IH.
Qed.

Lemma update_assignment_same sid a s :
  get sid (assignments s) = Some a → update_assignment sid a s = s.
Proof.
  intros Hg. unfold update_assignment. rewrite (set_same _ _ _ Hg).
  by destruct s.
Qed.

Lemma get_qualified_none s st rs :
  (∀ e, e ∈ available_employees s → e ∈ keys (employees s)) →
  (∀ e emp, e ∈ available_employees s → get e (employees s) = Some emp →
            ¬ qualifies emp st) →
  _get_qualified_employees s st rs = Ok [].
Proof.
  intros Hk Hn. destruct (get_qualified_ok s st rs Hk) as (q & -> & _ & Hq).
  destruct q as [|i q]; [done|].
  destruct (proj1 (Hq i)) as (Hav & emp & Hemp & Hqual); [left|].
  by destruct (Hn i emp).
Qed.

Lemma rebalance_saturated sid s st a :
  (∀ e, e ∈ available_employees s → e ∈ keys (employees s)) →
  get sid (stations s) = Some st → get sid (assignments s) = Some a →
  is_fully_staffed a = (unfilled_slots a =? 0) →
  (0 < unfilled_slots a →
   ∀ e emp, e ∈ available_employees s → get e (employees s) = Some emp →
            ¬ qualifies emp st) →
  rebalance_schedule sid s = (Ok (is_fully_staffed a), s).
Proof.
  intros Hk Hst Ha Hflag Hsat. unfold rebalance_schedule.
  rewrite Hst, Ha. rewrite (the_assignment_get _ _ _ Ha).
  assert (fill_gaps (Z.to_nat (unfilled_slots a)) st sid s = (Ok (), s)) as ->.
  { destruct (Z.to_nat (unfilled_slots a)) as [|n] eqn:En; [done|].
    simpl. rewrite (the_assignment_get _ _ _ Ha).
    assert (0 < unfilled_slots a) as Hpos by lia.
    rewrite (proj2 (Z.ltb_lt _ _) Hpos).
    by rewrite (get_qualified_none s st None Hk (Hsat Hpos)). }
  rewrite (the_assignment_get _ _ _ Ha), <- Hflag.
  f_equal. apply update_assignment_same. rewrite Ha. by destruct a.
Qed.

(** X11.  In every reachable state [rebalance_schedule] on a station that
    has an assignment changes nothing and returns the station's
    [is_fully_staffed] flag: the engine never leaves a slot open that a
    later rebalance could fill. *)
Theorem rebalance_of_scheduled_station_changes_nothing s sid a :
  reachable s → get sid (assignments s) = Some a →
  rebalance_schedule sid s = (Ok (is_fully_staffed a), s).
Proof.
  intros Hr Ha.
  destruct (reachable_Inv s Hr) as [Hwf _].
  destruct (reachable_Kept s Hr) as (_ & Hflag & Hsat).
  assert (sid ∈ keys (stations s)) as Hk.
  { apply (wf_assigned_known _ Hwf), get_is_Some. eauto. }
  apply get_is_Some in Hk as [st Hst].
  apply (rebalance_saturated sid s st a); try done.
  - apply (wf_available_known _ Hwf).
  - by apply (Hflag sid).
  - intros Hpos e emp Hav Hemp. by apply (Hsat sid a st e emp).
Qed.

(** ** What an absence does to the station the employee leaves *)

Lemma rebalance_after_leaving k s st a :
  (∀ e, e ∈ available_employees s → e ∈ keys (employees s)) →
  get k (stations s) = Some st → get k (assignments s) = Some a →
  is_fully_staffed a = false → 0 < unfilled_slots a →
  (1 < unfilled_slots a →
   ∀ e emp, e ∈ available_employees s → get e (employees s) = Some emp →
            ¬ qualifies emp st) →
  ∃ b s', rebalance_schedule k s = (Ok b, s')
    ∧ (∀ k', k' ≠ k → get k' (assignments s') = get k' (assignments s))
    ∧ (((∀ e emp, e ∈ available_employees s → get e (employees s) = Some emp →
                  ¬ qualifies emp st)
        ∧ get k (assignments s') = Some a
        ∧ available_employees s' = available_employees s)
       ∨ ∃ sub emp q,
           _get_qualified_employees s st None = Ok (sub :: q)
           ∧ sub ∈ available_employees s ∧ get sub (employees s) = Some emp
           ∧ qualifies emp st ∧ unfilled_slots a = 1
           ∧ get k (assignments s')
             = Some (mkAssignment (station_id a)
                       (assigned_employee_ids a ++ [sub]) true 0)
           ∧ available_employees s' = available_employees s ∖ {[sub]}).
Proof.
  intros Hk Hst Ha Hflag Hpos Hsat.
  destruct (get_qualified_ok s st None Hk) as (q & Hq & _ & Hmem).
  destruct q as [|sub q].
  - assert (∀ e emp, e ∈ available_employees s → get e (employees s) = Some emp →
                     ¬ qualifies emp st) as Hnone.
    { intros e emp Hav Hemp Hqual.
      assert (e ∈ @nil string) as Hin by (apply Hmem; eauto).
      by apply elem_of_nil in Hin. }
    exists false, s. split_and!; [|done|by left].
    rewrite <- Hflag. apply (rebalance_saturated k s st a); try done.
    rewrite Hflag. symmetry. apply Z.eqb_neq. lia.
  - destruct (proj1 (Hmem sub)) as (Hav & emp & Hemp & Hqual); [left|].
    assert (unfilled_slots a = 1) as Hone.
    { destruct (decide (1 < unfilled_slots a)) as [Hgt|]; [|lia].
      by destruct (Hsat Hgt sub emp). }
    unfold rebalance_schedule. rewrite Hst, Ha.
    rewrite (the_assignment_get _ _ _ Ha), Hone.
    change (Z.to_nat 1) with 1%nat. cbn [fill_gaps].
    rewrite (the_assignment_get _ _ _ Ha), Hone, Hq.
    change (0 <? 1) with true. cbv iota.
    set (a2 := mkAssignment (station_id a) (assigned_employee_ids a ++ [sub])
                 (is_fully_staffed a) (1 - 1)).
    set (s2 := set_available _ _).
    assert (get k (assignments s2) = Some a2) as Ha2.
    { unfold s2. simpl. apply get_set_eq. }
    rewrite (the_assignment_get _ _ _ Ha2).
    eexists _, _. split; [reflexivity|]. split.
    + intros k' Hne. simpl. by rewrite !get_set_ne.
    + right. exists sub, emp, q. split_and!; try done.
      simpl. by rewrite get_set_eq.
Qed.

(** X12.  In a reachable state, the absence of an employee assigned to
    station [k] touches that station only.  The others keep their places
    in order; if no available employee passes the gate of the station the
    slot is left open ([unfilled_slots] one higher, not fully staffed),
    otherwise the station was full, the first candidate of the ranking by
    certification and competency is appended as the substitute and leaves
    the available set, and the station is fully staffed again. *)
Theorem handle_absence_restaffs_the_station_left s e k a :
  reachable s → get k (assignments s) = Some a → e ∈ assigned_employee_ids a →
  ∃ st s' a',
    get k (stations s) = Some st
    ∧ handle_absence e s = (Ok [k], s')
    ∧ get k (assignments s') = Some a'
    ∧ (∀ k', k' ≠ k → get k' (assignments s') = get k' (assignments s))
    ∧ (((∀ e' emp, e' ∈ available_employees s →
                   get e' (employees s) = Some emp → ¬ qualifies emp st)
        ∧ a' = mkAssignment k (remove_first e (assigned_employee_ids a))
                 false (unfilled_slots a + 1)
        ∧ available_employees s' = available_employees s)
       ∨ ∃ sub emp q,
           _get_qualified_employees s st None = Ok (sub :: q)
           ∧ sub ∈ available_employees s ∧ get sub (employees s) = Some emp
           ∧ qualifies emp st ∧ unfilled_slots a = 0
           ∧ a' = mkAssignment k (remove_first e (assigned_employee_ids a) ++ [sub])
                    true 0
           ∧ available_employees s' = available_employees s ∖ {[sub]}).
Proof.
  intros Hr Ha He.
  destruct (reachable_Inv s Hr) as [Hwf Hcs].
  destruct (reachable_Kept s Hr) as (Hac & Hflag & Hsat).
  assert (k ∈ keys (stations s)) as Hk.
  { apply (wf_assigned_known _ Hwf), get_is_Some. eauto. }
  apply get_is_Some in Hk as [st Hst].
  assert (station_id a = k) as Hid
    by apply (keyed_by_id_of _ _ _ _ (wf_assignments _ Hwf) Ha).
  destruct (cs_qualified _ Hcs k a e Ha He) as (_ & emp0 & _ & Hemp0 & _).
  assert (e ∈ keys (employees s)) as Hknown by (apply get_is_Some; eauto).
  assert (e ∉ available_employees s) as Hnav
    by apply (cs_unavailable _ Hcs k a e Ha He).
  assert (available_employees s ∖ {[e]} = available_employees s) as Eav
    by set_solver.
  assert (0 ≤ unfilled_slots a) as Hnn.
  { destruct (ac_nonneg _ Hac k a Ha) as [|Hnil]; [done|].
    rewrite Hnil in He. by apply elem_of_nil in He. }
  assert (affected_by e (assignments s) = [k]) as Haff.
  { apply NoDup_all_eq_singleton.
    - apply affected_by_NoDup, (wf_assignments _ Hwf).
    - apply affected_by_iff. exists a. split; [by apply get_Some_elem|done].
    - intros k' (a' & Hin & He')%affected_by_iff.
      apply (reachable_get s _ _ Hr) in Hin.
      by apply (cs_disjoint _ Hcs k' k a' a e). }
  rewrite handle_absence_found by by apply contains_true.
  rewrite Haff. cbn [rebalance_each].
  set (a1 := mkAssignment k (remove_first e (assigned_employee_ids a))
               false (unfilled_slots a + 1)).
  assert (get k (assignments (mark_absent e s)) = Some a1) as Ha1.
  { unfold mark_absent. simpl. rewrite get_fmap_values, Ha. simpl.
    unfold unassign. rewrite bool_decide_eq_true_2 by done.
    by rewrite Hid. }
  assert (∀ k', k' ≠ k →
            get k' (assignments (mark_absent e s)) = get k' (assignments s))
    as Hother.
  { intros k' Hne. unfold mark_absent. simpl. rewrite get_fmap_values.
    destruct (get k' (assignments s)) as [a'|] eqn:Ha'; [|done]. simpl.
    rewrite unassign_absent; [done|]. intros He'.
    by apply Hne, (cs_disjoint _ Hcs k' k a' a e). }
  assert (available_employees (mark_absent e s) = available_employees s)
    as Eav1 by (unfold mark_absent; simpl; exact Eav).
  destruct (rebalance_after_leaving k (mark_absent e s) st a1)
    as (b & s' & Hrun & Hoth & Hcase).
  - rewrite Eav1. apply (wf_available_known _ Hwf).
  - done.
  - done.
  - done.
  - simpl. lia.
  - intros Hgt e' emp Hav Hemp. rewrite Eav1 in Hav.
    apply (Hsat k a st e' emp); try done. simpl in Hgt. lia.
  - rewrite Hrun.
    destruct Hcase as [(Hnone & Hget & Hav')|
                       (sub & emp & q & Hq & Hsub & Hemp & Hqual & Hone & Hget & Hav')].
    + exists st, s', a1. split_and!; try done.
      * intros k' Hne. by rewrite Hoth, Hother.
      * left. split_and!; [|done|by rewrite Hav', Eav1].
        intros e' emp Hav Hemp. apply (Hnone e' emp); [by rewrite Eav1|done].
    + exists st, s', (mkAssignment k (remove_first e (assigned_employee_ids a) ++ [sub])
                        true 0).
      split_and!; try done.
      * intros k' Hne. by rewrite Hoth, Hother.
      * right. exists sub, emp, q. split_and!; try done.
        -- rewrite <- Hq. unfold _get_qualified_employees.
           by rewrite Eav1.
        -- by rewrite <- Eav1.
        -- simpl in Hone. lia.
        -- by rewrite Hav', Eav1.
Qed.

(** ** The reports *)

Lemma get_unfilled_stations_filter s :
  get_unfilled_stations s
  = keys (filter (fun kv => is_fully_staffed kv.2 = false) (assignments s)).
Proof.
  unfold get_unfilled_stations, keys.
  assert (∀ (d : dict Assignment) acc,
            fold_left
              (fun unfilled kv =>
                 if negb (is_fully_staffed kv.2) then unfilled ++ [kv.1]
                 else unfilled) d acc
            = acc ++ (filter (fun kv => is_fully_staffed kv.2 = false) d).*1) as H.
  { unfold dict. induction d as [|[k a] d IH]; intros acc; simpl.
    - by rewrite app_nil_r.
    - rewrite IH, filter_cons. simpl.
      destruct (is_fully_staffed a); simpl; [done|].
      by rewrite <- app_assoc. }
  apply (H _ []).
Qed.

Lemma get_unfilled_stations_iff s k :
  NoDup (keys (assignments s)) →
  k ∈ get_unfilled_stations s ↔
  ∃ a, get k (assignments s) = Some a ∧ is_fully_staffed a = false.
Proof.
  intros Hnd. rewrite get_unfilled_stations_filter. unfold keys.
  rewrite list_elem_of_fmap. split.
  - intros ([k' a] & -> & [Hf Hin]%list_elem_of_filter). simpl in *.
    exists a. split; [by apply elem_get|done].
  - intros (a & Ha & Hf). exists (k, a). split; [done|].
    apply list_elem_of_filter. split; [done|by apply get_Some_elem].
Qed.

Lemma keys_filter_NoDup {V} (P : string * V → Prop) `{∀ x, Decision (P x)}
    (d : dict V) :
  NoDup (keys d) → NoDup (keys (filter P d)).
Proof.
  unfold keys, dict. induction d as [|[k v] d IH]; [done|].
  csimpl. intros [Hk Hnd]%NoDup_cons. rewrite filter_cons.
  destruct (decide (P (k, v))); [|by apply IH].
  csimpl. apply NoDup_cons. split; [|by apply IH].
  intros (x & Hx & [_ Hin]%list_elem_of_filter)%list_elem_of_fmap.
  apply Hk. apply list_elem_of_fmap. eauto.
Qed.

Lemma no_candidate_for_open_slot s k a e :
  reachable s → get k (assignments s) = Some a → 0 < unfilled_slots a →
  e ∈ available_employees s → is_qualified e k s = Ok false.
Proof.
  intros Hr Ha Hopen Hav.
  destruct (reachable_Kept s Hr) as (_ & _ & Hsat).
  destruct (reachable_Inv s Hr) as [Hwf _].
  destruct (is_qualified_total e k s) as [[] Hb]; [|done].
  apply is_qualified_true_iff in Hb as (emp & st & Hemp & Hst & Hc & Hk).
  destruct (Hsat k a st e emp); try done.
  split; [done|].
  by rewrite (keyed_by_id_of s_id _ _ _ (wf_stations _ Hwf) Hst).
Qed.

(** X13.  In every reachable state [get_unfilled_stations] lists, each
    once, exactly the scheduled stations whose [unfilled_slots] is not 0.
    A listed station with a non-negative required headcount has fewer
    employees than it requires, and no available employee is qualified
    for it. *)
Theorem unfilled_stations_are_short_of_staff s :
  reachable s →
  NoDup (get_unfilled_stations s)
  ∧ (∀ k, k ∈ get_unfilled_stations s ↔
          ∃ a, get k (assignments s) = Some a ∧ unfilled_slots a ≠ 0)
  ∧ (∀ k st, k ∈ get_unfilled_stations s → get k (stations s) = Some st →
       0 ≤ required_headcount st →
       (∃ a, get k (assignments s) = Some a
             ∧ Z.of_nat (length (assigned_employee_ids a)) < required_headcount st)
       ∧ ∀ e, e ∈ available_employees s → is_qualified e k s = Ok false).
Proof.
  intros Hr.
  destruct (reachable_Inv s Hr) as [Hwf _].
  destruct (reachable_Kept s Hr) as (Hac & Hflag & _).
  pose proof (wf_assignments _ Hwf) as [Hnd _].
  assert (∀ k, k ∈ get_unfilled_stations s ↔
               ∃ a, get k (assignments s) = Some a ∧ unfilled_slots a ≠ 0) as Hiff.
  { intros k. rewrite (get_unfilled_stations_iff s k Hnd).
    split; intros (a & Ha & Hf); exists a; (split; [done|]).
    - rewrite (Hflag k a Ha) in Hf. by apply Z.eqb_neq.
    - rewrite (Hflag k a Ha). by apply Z.eqb_neq. }
  split_and!; [|done|].
  - rewrite get_unfilled_stations_filter. by apply keys_filter_NoDup.
  - intros k st Hin Hst Hhc.
    apply (proj1 (Hiff k)) in Hin as (a & Ha & Hne).
    assert (0 < unfilled_slots a
            ∧ Z.of_nat (length (assigned_employee_ids a)) < required_headcount st)
      as [Hpos Hlen].
    { destruct (ac_slots _ Hac k a st Ha Hst) as [Hsum|[Hz _]]; [|done].
      destruct (ac_nonneg _ Hac k a Ha) as [Hnn|Hnil]; [lia|].
      rewrite Hnil in Hsum |- *. simpl in *. lia. }
    split; [eauto|].
    intros e Hav. by apply (no_candidate_for_open_slot s k a e).
Qed.

Lemma summarize_eq s acc k a :
  summarize s acc (k, a)
  = match get k (stations s) with
    | Some st => Ok (set k (summary_of st a) acc)
    | None => Raise (KeyError k)
    end.
Proof. unfold summarize, getitem. simpl. by destruct (get k (stations s)). Qed.

Lemma summary_run s (d : dict Assignment) acc r :
  foldM (summarize s) d acc = r →
  match r with
  | Ok summary =>
      (∀ k, k ∈ keys d → k ∈ keys (stations s))
      ∧ (∀ k, k ∈ keys summary ↔ k ∈ keys acc ∨ k ∈ keys d)
      ∧ (∀ k, k ∉ keys d → get k summary = get k acc)
      ∧ (NoDup (keys d) →
         ∀ k a, (k, a) ∈ d →
           ∃ st, get k (stations s) = Some st
                 ∧ get k summary = Some (summary_of st a))
  | Raise x => ∃ k, x = KeyError k ∧ k ∈ keys d ∧ k ∉ keys (stations s)
  end.
Proof.
  revert acc. induction d as [|[k a] d IH]; intros acc.
  - intros <-. csimpl. split_and!.
    + intros k Hk. by apply elem_of_nil in Hk.
    + intros k. split; [by left|]. intros [?|Hk]; [done|].
      by apply elem_of_nil in Hk.
    + done.
    + intros _ k a Hk. by apply elem_of_nil in Hk.
  - cbn [foldM]. rewrite summarize_eq.
    assert (keys ((k, a) :: d) = k :: keys d) as -> by done.
    destruct (get k (stations s)) as [st|] eqn:Hst; csimpl.
    2:{ intros <-. exists k. split_and!; [done|apply elem_of_cons; by left|].
        by apply get_None. }
    intros Hr. apply IH in Hr. destruct r as [summary|x].
    2:{ destruct Hr as (k' & -> & Hin & Hnot). exists k'.
        split_and!; [done|apply elem_of_cons; by right|done]. }
    destruct Hr as (Hknown & Hkeys & Hframe & Hget).
    split_and!.
    + intros k' [->|Hin]%elem_of_cons; [|by apply Hknown].
      apply get_is_Some. eauto.
    + intros k'. rewrite Hkeys, elem_of_cons, keys_set. naive_solver.
    + intros k' [Hne Hnin]%not_elem_of_cons.
      rewrite (Hframe k' Hnin). by rewrite get_set_ne.
    + intros [Hfresh Hnd]%NoDup_cons k' a' [[= -> ->]|Hin]%elem_of_cons.
      * exists st. split; [done|]. rewrite (Hframe k Hfresh).
        apply get_set_eq.
      * by apply Hget.
Qed.

(** X14.  [get_schedule_summary] returns exactly when every assignment
    belongs to a known station, and then has one entry per assignment;
    otherwise it raises [KeyError] with the id of an assignment whose
    station is not in [self.stations]. *)
Theorem schedule_summary_raises_on_unknown_station s :
  match get_schedule_summary s with
  | Ok summary =>
      (∀ k, k ∈ keys (assignments s) → k ∈ keys (stations s))
      ∧ (∀ k, k ∈ keys summary ↔ k ∈ keys (assignments s))
  | Raise x =>
      ∃ k, x = KeyError k ∧ k ∈ keys (assignments s) ∧ k ∉ keys (stations s)
  end.
Proof.
  pose proof (summary_run s (assignments s) [] _ eq_refl) as H.
  unfold get_schedule_summary.
  destruct (foldM (summarize s) (assignments s) []) as [summary|x]; [|done].
  destruct H as (Hknown & Hkeys & _). split; [done|].
  intros k. rewrite Hkeys. split; [|by right].
  intros [Hk|Hk]; [|done]. by apply elem_of_nil in Hk.
Qed.

(** X15.  In every reachable state [get_schedule_summary] returns; the
    entry of a scheduled station gives the station's name and required
    headcount, the assigned employees and their number; its status is
    "fully_staffed" exactly when the station has no unfilled slot, and
    with a non-negative required headcount the number filled never
    exceeds the number required. *)
Theorem schedule_summary_of_reachable_state s :
  reachable s →
  ∃ summary,
    get_schedule_summary s = Ok summary
    ∧ (∀ k, k ∈ keys summary ↔ k ∈ keys (assignments s))
    ∧ ∀ k a, get k (assignments s) = Some a →
        ∃ st entry,
          get k (stations s) = Some st ∧ get k summary = Some entry
          ∧ sm_station_name entry = s_name st
          ∧ sm_assigned entry = assigned_employee_ids a
          ∧ sm_required entry = required_headcount st
          ∧ sm_filled entry = Z.of_nat (length (assigned_employee_ids a))
          ∧ (sm_status entry = "fully_staffed"%string ↔ unfilled_slots a = 0)
          ∧ (sm_status entry = "unfilled"%string ↔ unfilled_slots a ≠ 0)
          ∧ (0 ≤ required_headcount st → sm_filled entry ≤ sm_required entry).
Proof.
  intros Hr.
  destruct (reachable_Inv s Hr) as [Hwf _].
  destruct (reachable_Kept s Hr) as (Hac & Hflag & _).
  pose proof (wf_assignments _ Hwf) as [Hnd _].
  pose proof (summary_run s (assignments s) [] _ eq_refl) as H.
  unfold get_schedule_summary.
  destruct (foldM (summarize s) (assignments s) []) as [summary|x].
  2:{ destruct H as (k & _ & Hin & Hnot).
      destruct Hnot. by apply (wf_assigned_known _ Hwf). }
  destruct H as (_ & Hkeys & _ & Hget).
  exists summary. split_and!; [done| |].
  - intros k. rewrite Hkeys. split; [|by right].
    intros [Hk|Hk]; [|done]. by apply elem_of_nil in Hk.
  - intros k a Ha.
    destruct (Hget Hnd k a (get_Some_elem _ _ _ Ha)) as (st & Hst & Hentry).
    exists st, (summary_of st a). split_and!; try done.
    + simpl. unfold status_of. rewrite (Hflag k a Ha).
      destruct (Z.eqb_spec (unfilled_slots a) 0); by split.
    + simpl. unfold status_of. rewrite (Hflag k a Ha).
      destruct (Z.eqb_spec (unfilled_slots a) 0); by split.
    + simpl. intros Hhc.
      destruct (ac_slots _ Hac k a st Ha Hst) as [Hsum|[_ Hnil]].
      * destruct (ac_nonneg _ Hac k a Ha) as [Hnn|Hnil]; [lia|].
        rewrite Hnil. simpl. lia.
      * rewrite Hnil. simpl. lia.
Qed.

Lemma rebalance_of_scheduled_station_changes_nothing_witness :
  reachable ex_scheduled
  ∧ get "general" (assignments ex_scheduled)
    = Some (mkAssignment "general" ["bob"] true 0)
  ∧ rebalance_schedule "general" ex_scheduled
    = (Ok (is_fully_staffed (mkAssignment "general" ["bob"] true 0)), ex_scheduled).
Proof.
  assert (reachable ex_scheduled) as H.
  { unfold ex_scheduled, ex_state. apply reach_generate, reach_init. }
  assert (get "general" (assignments ex_scheduled)
          = Some (mkAssignment "general" ["bob"] true 0)) as H1.
  { vm_compute. reflexivity. }
  split; [exact H|]. split; [exact H1|].
  exact (rebalance_of_scheduled_station_changes_nothing ex_scheduled "general" _ H H1).
Defined.

Lemma handle_absence_restaffs_the_station_left_witness :
  reachable ex_scheduled
  ∧ get "critical" (assignments ex_scheduled)
    = Some (mkAssignment "critical" ["alice"] false 1)
  ∧ "alice" ∈ assigned_employee_ids (mkAssignment "critical" ["alice"] false 1)
  ∧ ∃ st s' a',
      get "critical" (stations ex_scheduled) = Some st
      ∧ handle_absence "alice" ex_scheduled = (Ok ["critical"], s')
      ∧ get "critical" (assignments s') = Some a'
      ∧ (∀ k', k' ≠ "critical" →
               get k' (assignments s') = get k' (assignments ex_scheduled))
      ∧ (((∀ e' emp, e' ∈ available_employees ex_scheduled →
                     get e' (employees ex_scheduled) = Some emp →
                     ¬ qualifies emp st)
          ∧ a' = mkAssignment "critical" (remove_first "alice" ["alice"])
                   false (1 + 1)
          ∧ available_employees s' = available_employees ex_scheduled)
         ∨ ∃ sub emp q,
             _get_qualified_employees ex_scheduled st None = Ok (sub :: q)
             ∧ sub ∈ available_employees ex_scheduled
             ∧ get sub (employees ex_scheduled) = Some emp
             ∧ qualifies emp st ∧ 1 = 0
             ∧ a' = mkAssignment "critical"
                      (remove_first "alice" ["alice"] ++ [sub]) true 0
             ∧ available_employees s'
               = available_employees ex_scheduled ∖ {[sub]}).
Proof.
  assert (reachable ex_scheduled) as H.
  { unfold ex_scheduled, ex_state. apply reach_generate, reach_init. }
  assert (get "critical" (assignments ex_scheduled)
          = Some (mkAssignment "critical" ["alice"] false 1)) as H1.
  { vm_compute. reflexivity. }
  assert ("alice" ∈ assigned_employee_ids
                     (mkAssignment "critical" ["alice"] false 1)) as H2.
  { apply list_elem_of_here. }
  split; [exact H|]. split; [exact H1|]. split; [exact H2|].
  exact (handle_absence_restaffs_the_station_left ex_scheduled "alice"
           "critical" _ H H1 H2).
Defined.

Lemma unfilled_stations_are_short_of_staff_witness :
  reachable ex_after_absence
  ∧ NoDup (get_unfilled_stations ex_after_absence)
  ∧ (∀ k, k ∈ get_unfilled_stations ex_after_absence ↔
          ∃ a, get k (assignments ex_after_absence) = Some a
               ∧ unfilled_slots a ≠ 0)
  ∧ (∀ k st, k ∈ get_unfilled_stations ex_after_absence →
       get k (stations ex_after_absence) = Some st →
       0 ≤ required_headcount st →
       (∃ a, get k (assignments ex_after_absence) = Some a
             ∧ Z.of_nat (length (assigned_employee_ids a)) < required_headcount st)
       ∧ ∀ e, e ∈ available_employees ex_after_absence →
              is_qualified e k ex_after_absence = Ok false).
Proof.
  assert (reachable ex_after_absence) as H.
  { unfold ex_after_absence, ex_scheduled, ex_state.
    apply reach_absence, reach_logs, reach_generate, reach_init. }
  split; [exact H|].
  exact (unfilled_stations_are_short_of_staff ex_after_absence H).
Defined.

Lemma schedule_summary_of_reachable_state_witness :
  reachable ex_scheduled
  ∧ ∃ summary,
      get_schedule_summary ex_scheduled = Ok summary
      ∧ (∀ k, k ∈ keys summary ↔ k ∈ keys (assignments ex_scheduled))
      ∧ ∀ k a, get k (assignments ex_scheduled) = Some a →
          ∃ st entry,
            get k (stations ex_scheduled) = Some st ∧ get k summary = Some entry
            ∧ sm_station_name entry = s_name st
            ∧ sm_assigned entry = assigned_employee_ids a
            ∧ sm_required entry = required_headcount st
            ∧ sm_filled entry = Z.of_nat (length (assigned_employee_ids a))
            ∧ (sm_status entry = "fully_staffed"%string ↔ unfilled_slots a = 0)
            ∧ (sm_status entry = "unfilled"%string ↔ unfilled_slots a ≠ 0)
            ∧ (0 ≤ required_headcount st → sm_filled entry ≤ sm_required entry).
Proof.
  assert (reachable ex_scheduled) as H.
  { unfold ex_scheduled, ex_state. apply reach_generate, reach_init. }
  split; [exact H|].
  exact (schedule_summary_of_reachable_state ex_scheduled H).
Defined.

Example ex_reports :
  get_unfilled_stations ex_after_absence = ["critical"]
  ∧ get_schedule_summary ex_scheduled
    = Ok [("critical", mkSummary "Critical" ["alice"] 2 1 "unfilled");
          ("general", mkSummary "General" ["bob"] 1 1 "fully_staffed")].
Proof. split; vm_compute; reflexivity. Qed.

(** ** The rotation statistics, pair by pair *)





(** ** A schedule generated on a restored scheduler *)








(** ** What a snapshot does not carry *)

(** X18.  The scenario is not part of a snapshot: the scheduler restored
    from the snapshot of a reachable state has the Balanced weights, so
    [generate_schedule] without a scenario on it gives what
    [generate_schedule] with the Balanced scenario gives on the original,
    whatever scenario the original was using. *)
Theorem restored_scheduler_falls_back_to_Balanced s today :
  reachable s →
  ∃ s', from_json (to_json s) = Ok s'
    ∧ scenario s' = Balanced
    ∧ generate_schedule today None s' = generate_schedule today (Some Balanced) s.
Proof.
  intros [Hwf _]%reachable_Inv. exists (set_scenario Balanced s).
  split_and!; [|done|].
  - apply from_json_to_json; apply Hwf.
  - rewrite !generate_schedule_unfold. cbv zeta.
    assert (reset_for_generate None (set_scenario Balanced s)
            = reset_for_generate (Some Balanced) s) as -> by by destruct s.
    done.
Qed.

Lemma restored_scheduler_falls_back_to_Balanced_witness :
  reachable ex_after_absence
  ∧ ∃ s', from_json (to_json ex_after_absence) = Ok s'
      ∧ scenario s' = Balanced
      ∧ generate_schedule 739924 None s'
        = generate_schedule 739924 (Some Balanced) ex_after_absence.
Proof.
  assert (reachable ex_after_absence) as H.
  { unfold ex_after_absence, ex_scheduled, ex_state.
    apply reach_absence, reach_logs, reach_generate, reach_init. }
  split; [exact H|].
  exact (restored_scheduler_falls_back_to_Balanced ex_after_absence 739924 H).
Defined.

(** ** Reading the records of models.py *)

Lemma contains_set_ne {V} k k' (v : V) d :
  k ≠ k' → contains k' (set k v d) = contains k' d.
Proof. intros Hne. unfold contains. by rewrite get_set_ne. Qed.

(** X19.  [Employee.from_dict] never reads the value of the legacy key
    "current_skill_level": adding the key, or changing what it holds,
    changes neither the employee returned nor the exception raised. *)
Theorem legacy_skill_level_is_ignored data v :
  Employee_from_dict (JObject (set "current_skill_level" v data))
  = Employee_from_dict (JObject data).
Proof.
  assert (∀ d, Employee_from_dict (JObject d)
               = (id ← field "id" as_str d;
                  name ← field "name" as_str d;
                  comps ← get_or "station_competencies" competencies_from_dict ∅ d;
                  certification ← get_or "certification_level" as_int 0 d;
                  Ok (mkEmployee id name comps certification))) as Hflat.
  { intros d. unfold Employee_from_dict. simpl.
    destruct (contains "current_skill_level" d); [|done].
    destruct (contains "station_competencies" d) eqn:Hc; [done|]. simpl.
    assert (get "station_competencies" d = None) as Hn.
    { apply get_None, contains_false. exact Hc. }
    unfold get_or at 3. rewrite Hn.
    destruct (field "id" as_str d); [|done]. simpl.
    by destruct (field "name" as_str d). }
  rewrite !Hflat. unfold field, get_or, getitem.
  by rewrite !get_set_ne.
Qed.

(** X20.  Each record of models.py is read back unchanged by [from_dict]
    from what its [to_dict] wrote. *)
Theorem records_survive_to_dict_and_back st e a l :
  Station_from_dict (Station_to_dict st) = Ok st
  ∧ Employee_from_dict (Employee_to_dict e) = Ok e
  ∧ Assignment_from_dict (Assignment_to_dict a) = Ok a
  ∧ AssignmentLog_from_dict (AssignmentLog_to_dict l) = Ok l.
Proof.
  split_and!.
  - apply Station_round_trip.
  - apply Employee_round_trip.
  - apply Assignment_round_trip.
  - apply AssignmentLog_round_trip.
Qed.

(** ** The absence of an employee who is not scheduled *)

(** X21.  In a reachable state, the absence of an employee who is
    available affects no station: [handle_absence] returns the empty list,
    moves the employee from the available set to the absent set and
    leaves every assignment as it was. *)
Theorem absence_of_available_employee_moves_them_only s e :
  reachable s → e ∈ available_employees s →
  handle_absence e s
  = (Ok [],
     set_available (available_employees s ∖ {[e]})
       (set_absent (absent_employees s ∪ {[e]}) s)).
Proof.
  intros Hr Hav.
  destruct (reachable_Inv s Hr) as [Hwf Hcs].
  assert (∀ k a, (k, a) ∈ assignments s → e ∉ assigned_employee_ids a) as Hfree.
  { intros k a Hin He. apply (reachable_get s _ _ Hr) in Hin.
    by apply (cs_unavailable _ Hcs k a e Hin He). }
  rewrite handle_absence_found
    by (apply contains_true; by apply (wf_available_known _ Hwf)).
  rewrite (affected_by_none e _ Hfree). cbn [rebalance_each].
  unfold mark_absent. cbn [assignments set_available set_absent].
  rewrite (unassign_none e _ Hfree). by destruct s.
Qed.

Lemma absence_of_available_employee_moves_them_only_witness :
  reachable ex_contested_scheduled
  ∧ "dave" ∈ available_employees ex_contested_scheduled
  ∧ handle_absence "dave" ex_contested_scheduled
    = (Ok [],
       set_available (available_employees ex_contested_scheduled ∖ {["dave"]})
         (set_absent (absent_employees ex_contested_scheduled ∪ {["dave"]})
            ex_contested_scheduled)).
Proof.
  assert (reachable ex_contested_scheduled) as H.
  { unfold ex_contested_scheduled, ex_contested.
    apply reach_generate, reach_init. }
  assert ("dave" ∈ available_employees ex_contested_scheduled) as H1.
  { apply (bool_decide_unpack _). vm_compute. exact I. }
  split; [exact H|]. split; [exact H1|].
  exact (absence_of_available_employee_moves_them_only
           ex_contested_scheduled "dave" H H1).
Defined.

(** ** The order of the schedule *)

Lemma staff_stations_keys rs l s :
  Inv s → l ⊆ values (stations s) → NoDup (s_id <$> l) →
  (∀ st, st ∈ l → s_id st ∉ keys (assignments s)) →
  keys (assignments (staff_stations rs l s).2)
  = keys (assignments s) ++ (s_id <$> l).
Proof.
  revert s. induction l as [|st l IH]; intros s HI Hsub Hnd Hfresh.
  - simpl. by rewrite app_nil_r.
  - rewrite fmap_cons in Hnd. apply NoDup_cons in Hnd as [Hnew Hnd].
    assert (st ∈ values (stations s)) as Hst by (apply Hsub; left).
    destruct (staff_station_spec rs st s HI Hst) as (q & av' & _ & Heq & _ & HI1).
    cbn [staff_stations]. simpl in Heq. rewrite Heq in *. cbn [snd] in HI1.
    match type of HI1 with Inv ?t => set (s1 := t) in * end.
    rewrite (IH s1 HI1); [| | done |].
    + unfold s1. cbn [assignments set_assignments].
      rewrite set_fresh by (apply Hfresh; left).
      unfold keys. rewrite fmap_app, fmap_cons. simpl.
      by rewrite <- app_assoc.
    + intros x Hx. apply Hsub. by right.
    + intros st' Hin. unfold s1. cbn [assignments set_assignments].
      rewrite keys_set. intros [Heq'|Hk].
      * apply Hnew. rewrite <- Heq'. by apply list_elem_of_fmap_2.
      * apply (Hfresh st'); [by right|done].
Qed.

Lemma filter_insert_desc {A} (lt : A → A → bool) (P : A → Prop)
    `{∀ x, Decision (P x)} x l :
  (∀ y, P x → P y → lt x y = false) →
  filter P (insert_desc lt x l) = filter P (x :: l).
Proof.
  intros Htie. induction l as [|y l IH]; [done|].
  simpl. destruct (lt x y) eqn:Hlt; [|done].
  rewrite (filter_cons _ y), IH, !filter_cons.
  destruct (decide (P x)) as [Hx|]; [|done].
  destruct (decide (P y)) as [Hy|]; [|done].
  rewrite (Htie y Hx Hy) in Hlt. done.
Qed.

Lemma filter_sort_desc {A} (lt : A → A → bool) (P : A → Prop)
    `{∀ x, Decision (P x)} l :
  (∀ x y, P x → P y → lt x y = false) →
  filter P (sort_desc lt l) = filter P l.
Proof.
  intros Htie. induction l as [|x l IH]; [done|].
  cbn [sort_desc foldr]. fold (sort_desc lt l).
  rewrite filter_insert_desc by (intros; by apply Htie).
  by rewrite !filter_cons, IH.
Qed.

(** X22.  [generate_schedule] lists the stations in [self.assignments] in
    the order it staffed them: every station once, by required skill
    level from the highest down, stations of equal level in the order of
    [self.stations]. *)
Theorem schedule_lists_most_demanding_stations_first today w s :
  keyed_by s_id (stations s) → keyed_by e_id (employees s) →
  ∃ s' order,
    generate_schedule today w s = (Ok (assignments s'), s')
    ∧ keys (assignments s') = s_id <$> order
    ∧ order ≡ₚ values (stations s)
    ∧ StronglySorted
        (fun a b => required_skill_level b ≤ required_skill_level a) order
    ∧ ∀ level,
        filter (fun st => required_skill_level st = level) order
        = filter (fun st => required_skill_level st = level) (values (stations s)).
Proof.
  intros Hs He.
  destruct (generate_schedule_spec today w s Hs He) as (s' & Hrun & _).
  exists s', (sorted_stations s). split; [done|].
  assert (s' = (generate_schedule today w s).2) as -> by by rewrite Hrun.
  pose proof (reset_for_generate_Inv w s Hs He) as HI0.
  pose proof (reset_for_generate_frame w s) as (Es & _ & _ & _ & _ & Eas).
  assert (sorted_stations (reset_for_generate w s) = sorted_stations s) as Esort
    by (unfold sorted_stations; by rewrite Es).
  split_and!.
  - rewrite generate_schedule_state.
    destruct (stats_for_total today (assignment_logs (reset_for_generate w s)))
      as [rs ->].
    rewrite staff_stations_keys; try done.
    + by rewrite Eas, Esort.
    + intros x. unfold sorted_stations. by rewrite elem_of_sort_desc.
    + unfold sorted_stations. rewrite sort_desc_perm.
      rewrite Es, (keyed_by_values_ids s_id) by done. apply Hs.
    + intros st _. rewrite Eas. apply not_elem_of_nil.
  - apply sort_desc_perm.
  - pose proof (stations_sorted (values (stations s))) as Hsorted.
    unfold descending in Hsorted. unfold sorted_stations.
    induction Hsorted as [|a l _ IH Hall]; constructor; [done|].
    eapply Forall_impl; [exact Hall|]. intros b. simpl. by rewrite Z.ltb_ge.
  - intros level. unfold sorted_stations. apply filter_sort_desc.
    intros x y -> Hy. apply Z.ltb_ge. lia.
Qed.

Lemma schedule_lists_most_demanding_stations_first_witness :
  keyed_by s_id (stations ex_state) ∧ keyed_by e_id (employees ex_state)
  ∧ ∃ s' order,
      generate_schedule 739924 None ex_state = (Ok (assignments s'), s')
      ∧ keys (assignments s') = s_id <$> order
      ∧ order ≡ₚ values (stations ex_state)
      ∧ StronglySorted
          (fun a b => required_skill_level b ≤ required_skill_level a) order
      ∧ ∀ level,
          filter (fun st => required_skill_level st = level) order
          = filter (fun st => required_skill_level st = level)
              (values (stations ex_state)).
Proof.
  assert (keyed_by s_id (stations ex_state)) as H1.
  { apply (bool_decide_unpack _). vm_compute. exact I. }
  assert (keyed_by e_id (employees ex_state)) as H2.
  { apply (bool_decide_unpack _). vm_compute. exact I. }
  split; [exact H1|]. split; [exact H2|].
  exact (schedule_lists_most_demanding_stations_first 739924 None ex_state H1 H2).
Defined.

(** ** The log after a day is finalized *)

Lemma replace_first_keys log logs :
  log_key <$> replace_first log logs = log_key <$> logs.
Proof.
  induction logs as [|x logs IH]; [done|]. simpl.
  destruct (decide (log_key x = log_key log)) as [Heq|]; csimpl.
  - by rewrite Heq.
  - by rewrite IH.
Qed.

Lemma replace_first_elem log logs l :
  NoDup (log_key <$> logs) → log_key log ∈ log_key <$> logs →
  l ∈ replace_first log logs ↔ (l ∈ logs ∧ log_key l ≠ log_key log) ∨ l = log.
Proof.
  induction logs as [|x logs IH]; csimpl.
  - intros _ Hin. by apply elem_of_nil in Hin.
  - intros [Hx Hnd]%NoDup_cons Hin.
    destruct (decide (log_key x = log_key log)) as [Heq|Hne].
    + rewrite !elem_of_cons. split.
      * intros [-> | Hl]; [by right|]. left. split; [by right|].
        intros Hk. apply Hx. rewrite Heq, <- Hk. by apply list_elem_of_fmap_2.
      * intros [[[-> | Hl] Hk] | ->]; [done|by right|by left].
    + apply elem_of_cons in Hin as [Hin|Hin]; [congruence|].
      rewrite !elem_of_cons, (IH Hnd Hin). naive_solver.
Qed.

Lemma merge_log_step cur keys log :
  NoDup (log_key <$> cur) → (∀ k, k ∈ keys ↔ k ∈ log_key <$> cur) →
  let acc := merge_log (cur, keys) log in
  NoDup (log_key <$> acc.1)
  ∧ (∀ k, k ∈ acc.2 ↔ k ∈ log_key <$> acc.1)
  ∧ (∀ l, l ∈ acc.1 ↔ (l ∈ cur ∧ log_key l ≠ log_key log) ∨ l = log).
Proof.
  intros Hnd Hkeys. unfold merge_log. cbn [fst snd].
  destruct (decide (log_key log ∈ keys)) as [Hin|Hnin]; cbn [fst snd].
  - apply Hkeys in Hin. rewrite replace_first_keys. split_and!; try done.
    intros l. by apply replace_first_elem.
  - assert (log_key log ∉ log_key <$> cur) as Hnew by by rewrite <- Hkeys.
    rewrite fmap_app. csimpl. split_and!.
    + apply NoDup_app. split_and!; [done| |apply NoDup_singleton].
      intros k Hk ->%list_elem_of_singleton. done.
    + intros k. rewrite elem_of_union, elem_of_singleton, elem_of_app,
        list_elem_of_singleton, Hkeys. done.
    + intros l. rewrite elem_of_app, list_elem_of_singleton. split.
      * intros [Hl| ->]; [|by right]. left. split; [done|].
        intros Hk. apply Hnew. rewrite <- Hk. by apply list_elem_of_fmap_2.
      * naive_solver.
Qed.

Lemma merge_logs_run new_logs cur keys :
  NoDup (log_key <$> cur) → (∀ k, k ∈ keys ↔ k ∈ log_key <$> cur) →
  let merged := (fold_left merge_log new_logs (cur, keys)).1 in
  NoDup (log_key <$> merged)
  ∧ ∀ l, l ∈ merged ↔
         (l ∈ cur ∧ log_key l ∉ log_key <$> new_logs)
         ∨ last_with_key l new_logs = Some l.
Proof.
  revert cur keys. induction new_logs as [|log new_logs IH]; intros cur keys Hnd Hkeys.
  - simpl. split; [done|]. intros l. unfold last_with_key. simpl.
    split; [|by intros [[? _]|?]]. intros Hl. left. split; [done|].
    apply not_elem_of_nil.
  - cbn [fold_left].
    destruct (merge_log_step cur keys log Hnd Hkeys) as (Hnd1 & Hkeys1 & Hel1).
    destruct (merge_log (cur, keys) log) as [cur1 keys1]. cbn [fst snd] in *.
    destruct (IH cur1 keys1 Hnd1 Hkeys1) as [Hnd' Hel']. split; [done|].
    intros l. rewrite Hel', Hel1. unfold last_with_key.
    rewrite filter_cons, fmap_cons, not_elem_of_cons.
    destruct (decide (log_key log = log_key l)) as [Heq|Hne].
    + destruct (filter (fun l0 => log_key l0 = log_key l) new_logs)
        as [|y ys] eqn:Hf.
      * assert (log_key l ∉ log_key <$> new_logs) as Hnone.
        { intros (l' & Hk & Hin)%list_elem_of_fmap.
          assert (l' ∈ filter (fun l0 => log_key l0 = log_key l) new_logs) as Hin'
            by (apply list_elem_of_filter; split; [done|done]).
          rewrite Hf in Hin'. by apply elem_of_nil in Hin'. }
        simpl. split.
        -- intros [[[[_ Hk]| ->] _]|?]; [done|by right|done].
        -- intros [[_ [Hk _]]|[= ->]]; [done|]. left. split; [by right|done].
      * change (last (log :: y :: ys)) with (last (y :: ys)).
        split.
        -- intros [[_ Hnone]|?]; [|by right].
           destruct Hnone. apply list_elem_of_fmap.
           assert (y ∈ filter (fun l0 => log_key l0 = log_key l) new_logs) as Hy
             by (rewrite Hf; left).
           apply list_elem_of_filter in Hy as [Hk Hy]. by exists y.
        -- intros [[_ [Hk _]]|?]; [done|by right].
    + split.
      * intros [[[[Hl _]| ->] Hnone]|?]; [|done|by right].
        left. split; [done|]. split; [done|done].
      * intros [[Hl [Hk Hnone]]|?]; [|by right].
        left. split; [|done]. left. split; [done|]. congruence.
Qed.

(** X23.  Merging the entries of a finalized day into a log that has one
    entry per (date, employee, station) gives a log with one entry per
    key again: the entries of the old log whose key is not among the new
    ones, and for each key among the new ones the last new entry with
    that key.  Finalizing the same entries a second time leaves the same
    entries. *)
Theorem merged_log_keeps_one_entry_per_key logs new_logs :
  NoDup (log_key <$> logs) →
  NoDup (log_key <$> merge_logs logs new_logs)
  ∧ (∀ l, l ∈ merge_logs logs new_logs ↔
          (l ∈ logs ∧ log_key l ∉ log_key <$> new_logs)
          ∨ last_with_key l new_logs = Some l)
  ∧ merge_logs (merge_logs logs new_logs) new_logs ≡ₚ merge_logs logs new_logs.
Proof.
  intros Hnd.
  assert (∀ cur, NoDup (log_key <$> cur) →
            NoDup (log_key <$> merge_logs cur new_logs)
            ∧ ∀ l, l ∈ merge_logs cur new_logs ↔
                   (l ∈ cur ∧ log_key l ∉ log_key <$> new_logs)
                   ∨ last_with_key l new_logs = Some l) as Hrun.
  { intros cur Hc. apply merge_logs_run; [done|].
    intros k. by rewrite elem_of_list_to_set. }
  destruct (Hrun logs Hnd) as [Hnd1 Hel1].
  destruct (Hrun _ Hnd1) as [Hnd2 Hel2].
  split_and!; try done.
  apply NoDup_Permutation.
  - by apply NoDup_fmap_1 in Hnd2.
  - by apply NoDup_fmap_1 in Hnd1.
  - intros l. rewrite Hel2, Hel1. tauto.
Qed.

Lemma merged_log_keeps_one_entry_per_key_witness :
  NoDup (log_key <$> ex_history)
  ∧ NoDup (log_key <$> merge_logs ex_history ex_finalized)
  ∧ (∀ l, l ∈ merge_logs ex_history ex_finalized ↔
          (l ∈ ex_history ∧ log_key l ∉ log_key <$> ex_finalized)
          ∨ last_with_key l ex_finalized = Some l)
  ∧ merge_logs (merge_logs ex_history ex_finalized) ex_finalized
    ≡ₚ merge_logs ex_history ex_finalized.
Proof.
  assert (NoDup (log_key <$> ex_history)) as H.
  { apply NoDup_singleton. }
  split; [exact H|].
  exact (merged_log_keeps_one_entry_per_key ex_history ex_finalized H).
Defined.

Example ex_merge :
  merge_logs ex_history ex_finalized = ex_finalized.
Proof. reflexivity. Qed.

(** ** The constructor *)

Lemma get_fold_set {V} (key : V → string) (l : list V) d0 k :
  get k (fold_left (fun d x => set (key x) x d) l d0)
  = from_option Some (get k d0) (last (filter (fun x => key x = k) l)).
Proof.
  revert d0. induction l as [|x l IH]; intros d0; [done|].
  cbn [fold_left]. rewrite IH, filter_cons.
  destruct (decide (key x = k)) as [<-|Hne].
  - rewrite get_set_eq.
    destruct (filter (fun x0 => key x0 = key x) l) as [|y ys]; [done|].
    change (last (x :: y :: ys)) with (last (y :: ys)).
    destruct (last (y :: ys)) eqn:E; [done|]. by apply last_None in E.
  - by rewrite get_set_ne.
Qed.

(** X24.  The constructor keys stations and employees by id; when several
    stations, or several employees, share an id the last one given is the
    one kept.  The new scheduler has every employee id available, nobody
    absent, no assignment and an empty log. *)
Theorem constructor_keeps_the_last_of_equal_ids sts emps :
  (∀ k, get k (stations (init sts emps))
        = last (filter (fun st => s_id st = k) sts))
  ∧ (∀ k, get k (employees (init sts emps))
          = last (filter (fun e => e_id e = k) emps))
  ∧ (∀ e, e ∈ available_employees (init sts emps) ↔ e ∈ e_id <$> emps)
  ∧ absent_employees (init sts emps) = ∅
  ∧ assignments (init sts emps) = []
  ∧ assignment_logs (init sts emps) = [].
Proof.
  assert (∀ {V} (key : V → string) (l : list V) k,
            get k (of_list key l) = last (filter (fun x => key x = k) l)) as Hget.
  { intros V key l k. unfold of_list. rewrite get_fold_set. simpl.
    by destruct (last _). }
  split_and!; try done.
  - intros k. apply Hget.
  - intros k. apply Hget.
  - intros e. simpl. rewrite elem_of_list_to_set, get_is_Some, Hget.
    rewrite last_is_Some. split.
    + intros Hne. destruct (filter (fun x => e_id x = e) emps) as [|y ys] eqn:Hf;
        [done|].
      assert (y ∈ filter (fun x => e_id x = e) emps) as Hy by (rewrite Hf; left).
      apply list_elem_of_filter in Hy as [<- Hy]. by apply list_elem_of_fmap_2.
    + intros (x & -> & Hx)%list_elem_of_fmap Hnil.
      assert (x ∈ filter (fun x0 => e_id x0 = e_id x) emps) as Hin
        by (by apply list_elem_of_filter).
      rewrite Hnil in Hin. by apply elem_of_nil in Hin.
Qed.
